(** * Scale-space pyramid, Difference-of-Gaussian and keypoint detection

    A shallow embedding of [playground/pyramid.py]:
    [build_scale_space_pyramid], [generate_DoG_pyramid], [detect_keypoints],
    [is_local_extremum], [is_edge_point] and [detect_keypoints_in_image].

    Conventions of the embedding.
    - Python exceptions are the [Raise] branch of [result].
    - A 2-D numpy array is the list of its rows; its element type is a
      [dtype] whose arithmetic wraps around as numpy's does.
    - The cv2 primitives (GaussianBlur, resize) are not part of the
      repository: the pyramid builder is parametric in them.  A call of a
      primitive returns an image or raises; [cv2_error] is the exception
      [cv2.error]. *)

From Stdlib Require Import ZArith QArith Qpower Reals Lra Lia.
From stdpp Require Import base list strings.
Local Open Scope Z_scope.

(** ** Python exceptions as an error monad *)

(** [DanglingReference] is not a Python exception: it is what the store model
    of the builder answers for a reference to no object, which a Python
    program cannot hold. *)
Inductive exn :=
  ZeroDivisionError | IndexError | ValueError | cv2_error | DanglingReference.

Inductive result (A : Type) :=
  | Ok (a : A)
  | Raise (e : exn).
Arguments Ok {A} a.
Arguments Raise {A} e.

#[global] Instance result_ret : MRet result := fun A a => Ok a.
#[global] Instance result_bind : MBind result := fun A B f m =>
  match m with Ok a => f a | Raise e => Raise e end.

(** A [for] loop whose body updates the loop-carried state [s]. *)
Fixpoint for_each {A S : Type} (l : list A) (body : A -> S -> result S) (s : S)
  : result S :=
  match l with
  | [] => Ok s
  | x :: l' => s' ← body x s; for_each l' body s'
  end.

(** [map] with a fallible function, left to right. *)
Fixpoint map_result {A B : Type} (f : A -> result B) (l : list A)
  : result (list B) :=
  match l with
  | [] => Ok []
  | x :: l' => y ← f x; ys ← map_result f l'; Ok (y :: ys)
  end.

(** [range(lo, hi)] *)
Definition py_range (lo hi : Z) : list Z :=
  map (fun k => lo + Z.of_nat k) (seq 0 (Z.to_nat (hi - lo))).

(** [enumerate(l)] *)
Definition enumerate {A : Type} (l : list A) : list (Z * A) :=
  imap (fun k x => (Z.of_nat k, x)) l.

(** Index normalisation of [l[i]]: a negative index counts from the end,
    anything still out of range raises [IndexError]. *)
Definition norm_index (len i : Z) : result nat :=
  let i' := if i <? 0 then i + len else i in
  if (0 <=? i') && (i' <? len) then Ok (Z.to_nat i') else Raise IndexError.

Definition list_getitem {A : Type} (l : list A) (i : Z) : result A :=
  k ← norm_index (Z.of_nat (length l)) i;
  match l !! k with
  | Some x => Ok x
  | None => Raise IndexError
  end.

(** Bound normalisation of a slice [l[start:stop]]: a negative bound counts
    from the end, and the result is clipped to [0, len]. *)
Definition clip_index (len i : Z) : nat :=
  let i' := if i <? 0 then i + len else i in
  Z.to_nat (Z.min len (Z.max 0 i')).

Definition py_slice {A : Type} (l : list A) (start stop : Z) : list A :=
  let a := clip_index (Z.of_nat (length l)) start in
  let b := clip_index (Z.of_nat (length l)) stop in
  take (b - a) (drop a l).

(** ** numpy arrays *)

(** The integer depths that cv2.GaussianBlur accepts (CV_8U, CV_16U,
    CV_16S).  cv2.imread(..., IMREAD_GRAYSCALE) yields [uint8]. *)
Inductive dtype := uint8 | uint16 | int16.

(** The element of type [dt] that the integer [z] is stored as. *)
Definition wrap (dt : dtype) (z : Z) : Z :=
  match dt with
  | uint8 => z mod 256
  | uint16 => z mod 65536
  | int16 => (z + 32768) mod 65536 - 32768
  end.

(** The values an element of type [dt] can hold. *)
Definition in_range (dt : dtype) (z : Z) : Prop :=
  match dt with
  | uint8 => 0 <= z < 256
  | uint16 => 0 <= z < 65536
  | int16 => -32768 <= z < 32768
  end.

(** [a - b] and [abs(a)] on elements of type [dt]. *)
Definition dt_sub (dt : dtype) (a b : Z) : Z := wrap dt (a - b).
Definition dt_abs (dt : dtype) (a : Z) : Z := wrap dt (Z.abs a).

Definition ndarray := list (list Z).

(** [a.shape], as (rows, columns). *)
Definition shape (a : ndarray) : Z * Z :=
  (Z.of_nat (length a), Z.of_nat (length (default [] (head a)))).

(** [a[i, j]] *)
Definition getitem2 (a : ndarray) (i j : Z) : result Z :=
  row ← list_getitem a i; list_getitem row j.

(** [a[r0:r1, c0:c1]] *)
Definition slice2 (a : ndarray) (r0 r1 c0 c1 : Z) : ndarray :=
  map (fun row => py_slice row c0 c1) (py_slice a r0 r1).

(** [np.max(a)] and [np.min(a)]; both raise on an empty array. *)
Definition np_max (a : ndarray) : result Z :=
  match concat a with
  | [] => Raise ValueError
  | x :: xs => Ok (foldl Z.max x xs)
  end.

Definition np_min (a : ndarray) : result Z :=
  match concat a with
  | [] => Raise ValueError
  | x :: xs => Ok (foldl Z.min x xs)
  end.

(** One axis of numpy broadcasting: equal lengths are combined pointwise, a
    length-1 operand is stretched, anything else raises. *)
Definition broadcast {A B : Type} (f : A -> A -> result B) (l1 l2 : list A)
  : result (list B) :=
  if decide (length l1 = length l2) then
    map_result (fun p => f (fst p) (snd p)) (zip l1 l2)
  else
    match l1, l2 with
    | [x], _ => map_result (fun y => f x y) l2
    | _, [y] => map_result (fun x => f x y) l1
    | _, _ => Raise ValueError
    end.

(** [a - b] on arrays of element type [dt]. *)
Definition ndarray_sub (dt : dtype) (a b : ndarray) : result ndarray :=
  broadcast (broadcast (fun x y => Ok (dt_sub dt x y))) a b.

(** ** generate_DoG_pyramid *)

Section DoG.
Variable dt : dtype.

(** The body of the outer loop: the differences of one octave. *)
Definition DoG_octave_of (octave : list ndarray) : result (list ndarray) :=
  for_each (py_range 0 (Z.of_nat (length octave) - 1))
    (fun i DoG_octave =>
       hi ← list_getitem octave (i + 1);
       lo ← list_getitem octave i;
       DoG_image ← ndarray_sub dt hi lo;
       Ok (DoG_octave ++ [DoG_image]))
    [].

Definition generate_DoG_pyramid (gaussian_pyramid : list (list ndarray))
  : result (list (list ndarray)) :=
  for_each gaussian_pyramid
    (fun octave DoG_pyramid =>
       DoG_octave ← DoG_octave_of octave;
       Ok (DoG_pyramid ++ [DoG_octave]))
    [].
End DoG.

(** ** detect_keypoints *)

(** Python's [a or b]: [b] is evaluated only when [a] is false. *)
Definition py_or (a b : result bool) : result bool :=
  x ← a; if (x : bool) then Ok true else b.

(** Truth value of a result that is [True], [False] or [None]. *)
Definition truthy (v : option bool) : bool :=
  match v with Some true => true | _ => false end.

(** [np.sqrt(n) > t] for an integer [n >= 0] and an integer [t]; the theorem
    [sqrt_gt_spec] relates it to the square root over the reals. *)
Definition sqrt_gt (n t : Z) : bool := (t <? 0) || (t * t <? n).

(** The default of [is_edge_point]'s [edge_threshold]; the detector never
    passes another value. *)
Definition default_edge_threshold : Z := 10.

Section Detector.
Variable dt : dtype.

(** Returns [True], [False], or falls off the end ([None]). *)
Definition is_local_extremum (center upper lower : ndarray)
  : result (option bool) :=
  center_val ← getitem2 center 1 1;
  c1 ← py_or (m ← np_max upper; Ok (center_val >? m))
             (m ← np_min lower; Ok (center_val <? m));
  if (c1 : bool) then Ok (Some true) else
  c2 ← py_or (m ← np_max upper; Ok (center_val <? m))
             (m ← np_min lower; Ok (center_val >? m));
  if (c2 : bool) then Ok (Some false) else Ok None.

(** The differences are taken in the image's element type; the squares and
    their sum are taken after promotion to a 64-bit integer (a numpy scalar
    combined with the Python int 2), where they are exact. *)
Definition is_edge_point (img : ndarray) (i j : Z) (edge_threshold : Z)
  : result bool :=
  a ← getitem2 img (i + 1) j;
  b ← getitem2 img (i - 1) j;
  let dx := dt_sub dt a b in
  c ← getitem2 img i (j + 1);
  d ← getitem2 img i (j - 1);
  let dy := dt_sub dt c d in
  if sqrt_gt (dx ^ 2 + dy ^ 2) edge_threshold then Ok false else Ok true.

(** The body of the pixel loop of [detect_keypoints_in_image]. *)
Definition scan_pixel (img prev_img next_img : ndarray) (threshold : Z)
    (i j : Z) (keypoints : list (Z * Z)) : result (list (Z * Z)) :=
  e ← is_local_extremum (slice2 img (i - 1) (i + 2) (j - 1) (j + 2))
                        (slice2 prev_img (i - 1) (i + 2) (j - 1) (j + 2))
                        (slice2 next_img (i - 1) (i + 2) (j - 1) (j + 2));
  if truthy e then
    center_val ← getitem2 img i j;
    if dt_abs dt center_val <? threshold then Ok keypoints
    else
      edge ← is_edge_point img i j default_edge_threshold;
      if (edge : bool) then Ok keypoints else Ok (keypoints ++ [(i, j)])
  else Ok keypoints.

Definition detect_keypoints_in_image (img prev_img next_img : ndarray)
    (threshold : Z) : result (list (Z * Z)) :=
  for_each (py_range 1 (fst (shape img) - 1))
    (fun i keypoints =>
       for_each (py_range 1 (snd (shape img) - 1))
         (fun j keypoints => scan_pixel img prev_img next_img threshold i j keypoints)
         keypoints)
    [].

(** The body of the octave loop of [detect_keypoints]. *)
Definition scan_octave (octave_images : list ndarray) (threshold : Z)
    (keypoints : list (Z * Z)) : result (list (Z * Z)) :=
  for_each (enumerate (py_slice octave_images 1 (-1)))
    (fun '(scale, img) keypoints =>
       prev_img ← list_getitem octave_images scale;
       next_img ← list_getitem octave_images (scale + 2);
       found ← detect_keypoints_in_image img prev_img next_img threshold;
       Ok (keypoints ++ found))
    keypoints.

Definition detect_keypoints (DoG_pyramid : list (list ndarray)) (threshold : Z)
  : result (list (Z * Z)) :=
  for_each (enumerate DoG_pyramid)
    (fun '(octave, octave_images) keypoints =>
       scan_octave octave_images threshold keypoints)
    [].
End Detector.

(** The extremum rule in the specification's words: the center is strictly
    greater than every value of both neighbouring 3x3 blocks, or strictly
    smaller than every one of them. *)
Definition strict_extremum_rule (center_val : Z) (below above : ndarray) : bool :=
  forallb (fun v => v <? center_val) (concat below ++ concat above)
  || forallb (fun v => center_val <? v) (concat below ++ concat above).

(** ** build_scale_space_pyramid *)

(** The interpolation flags of cv2.resize. *)
Inductive interpolation := INTER_NEAREST | INTER_LINEAR | INTER_CUBIC | INTER_AREA.

(** [int(n / d)] on Python ints: true division, then truncation toward zero
    (exact for image dimensions, which are far below 2^53). *)
Definition int_div (n d : Z) : result Z :=
  if d =? 0 then Raise ZeroDivisionError else Ok (Z.quot n d).

(** The literal [1.6] of the source. *)
Definition sigma_literal : Q := 1.6.

(** *** The builder on image values

    [image.copy()] yields an equal value, so on values [current_image] starts
    as [image]; the copy itself is modelled in [Store] below.  Each call of
    [cv2.GaussianBlur] and of [cv2.resize] may raise, and an exception ends
    the builder at that call. *)
Section PyramidBuilder.
Context {Img : Type}.
(** [image.shape], as (rows, columns) *)
Variable img_shape : Img -> nat * nat.
(** [cv2.GaussianBlur(src, (0, 0), sigma)] *)
Variable GaussianBlur : Img -> Q -> result Img.
(** [cv2.resize(src, (width, height), interpolation=...)] *)
Variable resize : Img -> Z * Z -> interpolation -> result Img.

(** The variables the octave loop carries from one iteration to the next. *)
Record builder_state := {
  current_image : Img;
  sigma : Q;
  pyramid : list (list Img)
}.

(** The body of the scale loop; it carries [octave] and [sigma]. *)
Definition scale_body (current_image : Img) (scale_level : Z)
    (st : list Img * Q) : result (list Img * Q) :=
  let '(octave, sigma) := st in
  blurred_image ← GaussianBlur current_image sigma;
  Ok (octave ++ [blurred_image], (sigma * 2)%Q).

(** The body of the octave loop. *)
Definition octave_body (num_scales downsampling_factor : Z) (octave_level : Z)
    (st : builder_state) : result builder_state :=
  '(octave, _) ← for_each (py_range 0 num_scales)
                   (scale_body (current_image st)) ([], sigma st);
  new_width ← int_div (Z.of_nat (snd (img_shape (current_image st))))
                      downsampling_factor;
  new_height ← int_div (Z.of_nat (fst (img_shape (current_image st))))
                       downsampling_factor;
  resized ← resize (current_image st) (new_width, new_height) INTER_NEAREST;
  Ok {| current_image := resized;
        sigma := sigma_literal;
        pyramid := pyramid st ++ [octave] |}.

(** The loop-carried state after the first [k] octaves. *)
Definition builder_after (image : Img) (num_scales : Z) (sigma : Q)
    (downsampling_factor : Z) (k : nat) : result builder_state :=
  for_each (py_range 0 (Z.of_nat k)) (octave_body num_scales downsampling_factor)
    {| current_image := image; sigma := sigma; pyramid := [] |}.

Definition build_scale_space_pyramid (image : Img) (num_octaves num_scales : Z)
    (sigma : Q) (downsampling_factor : Z) : result (list (list Img)) :=
  st ← for_each (py_range 0 num_octaves)
         (octave_body num_scales downsampling_factor)
         {| current_image := image; sigma := sigma; pyramid := [] |};
  Ok (pyramid st).
End PyramidBuilder.

Arguments builder_state : clear implicits.

(** The sigma the scale loop has reached after [s] doublings. *)
Definition doubled (sigma : Q) (s : nat) : Q :=
  Nat.iter s (fun x => (x * 2)%Q) sigma.

(** The sigma an octave starts from: the caller's in the first octave, the
    literal afterwards. *)
Definition octave_sigma (sigma : Q) (k : nat) : Q :=
  match k with O => sigma | S _ => sigma_literal end.

(** The schedule in the specification's words:
    [sigma(octave, scale) = initialSigma * 2^scale]. *)
Definition spec_sigma (initialSigma : Q) (octave scale : nat) : Q :=
  (initialSigma * 2 ^ Z.of_nat scale)%Q.

(** *** Where the cv2 primitives raise

    [cv2.GaussianBlur(src, (0, 0), sigma)] raises [cv2.error] for an empty
    source and for [sigma <= 0] (with the kernel size (0, 0) the kernel is
    derived from sigma); [cv2.resize(src, (w, h))] raises [cv2.error] for an
    empty source and for [w <= 0] or [h <= 0].  [checked_GaussianBlur] and
    [checked_resize] turn a function that computes the pixels into a
    primitive that raises there and returns elsewhere.  They stand for cv2
    on inputs of ordinary size: cv2 also fails for a sigma too large for a
    kernel size and for an image too large for the memory, which none of
    the runs computed with them comes near. *)
Definition is_empty (shp : nat * nat) : bool :=
  (fst shp =? 0)%nat || (snd shp =? 0)%nat.

Definition checked_GaussianBlur {Img : Type} (img_shape : Img -> nat * nat)
    (blur : Img -> Q -> Img) (src : Img) (sigma : Q) : result Img :=
  if is_empty (img_shape src) || Qle_bool sigma 0 then Raise cv2_error
  else Ok (blur src sigma).

Definition checked_resize {Img : Type} (img_shape : Img -> nat * nat)
    (scale : Img -> Z * Z -> interpolation -> Img)
    (src : Img) (dsize : Z * Z) (interp : interpolation) : result Img :=
  if is_empty (img_shape src) || (fst dsize <=? 0) || (snd dsize <=? 0)
  then Raise cv2_error
  else Ok (scale src dsize interp).

(** *** A free interpretation of the cv2 primitives

    An image is the expression that produced it, so that a pyramid shows
    which primitive was called on which image with which arguments. *)
Inductive sym :=
  | Source (rows cols : nat)
  | Blur (src : sym) (sigma : Q)
  | Resize (src : sym) (dsize : Z * Z) (interp : interpolation).

Fixpoint sym_shape (s : sym) : nat * nat :=
  match s with
  | Source rows cols => (rows, cols)
  | Blur src _ => sym_shape src
  | Resize _ dsize _ => (Z.to_nat (snd dsize), Z.to_nat (fst dsize))
  end.

Definition sym_GaussianBlur : sym -> Q -> result sym :=
  checked_GaussianBlur sym_shape Blur.

Definition sym_resize : sym -> Z * Z -> interpolation -> result sym :=
  checked_resize sym_shape Resize.

Definition build_sym : sym -> Z -> Z -> Q -> Z -> result (list (list sym)) :=
  build_scale_space_pyramid sym_shape sym_GaussianBlur sym_resize.

(** *** The builder on a store of image objects

    Python passes arrays by reference.  Here an image is a location of a
    store; [image.copy()], [cv2.GaussianBlur] and [cv2.resize] (called
    without a destination) each allocate the array they return and write to
    no other; a call that raises allocates nothing.  The store also logs
    every primitive call that returned. *)
Module Store.

Definition loc := nat.

Inductive event :=
  | Copied (src dst : loc)
  | Blurred (src : loc) (sigma : Q) (dst : loc)
  | Resized (src : loc) (dsize : Z * Z) (interp : interpolation) (dst : loc).

(** The array an event reads and the array it allocates. *)
Definition event_src (e : event) : loc :=
  match e with
  | Copied src _ | Blurred src _ _ | Resized src _ _ _ => src
  end.

Definition event_dst (e : event) : loc :=
  match e with
  | Copied _ dst | Blurred _ _ dst | Resized _ _ _ dst => dst
  end.

(** [l] is [root] or an array that an event of [tr] allocated. *)
Definition produced (root : loc) (tr : list event) (l : loc) : Prop :=
  l = root \/ exists e, In e tr /\ event_dst e = l.

(** Every event of [tr] reads [root] or an array that an earlier event of
    [tr] allocated. *)
Definition reads_descendants (root : loc) (tr : list event) : Prop :=
  forall i e, tr !! i = Some e -> produced root (take i tr) (event_src e).

Section Heap.
Context {Img : Type}.
Variable img_shape : Img -> nat * nat.
Variable GaussianBlur : Img -> Q -> result Img.
Variable resize : Img -> Z * Z -> interpolation -> result Img.

Record store := { objects : list Img; trace : list event }.

(** Computations that read and extend the store and may raise; the
    store outlives an exception, as Python's heap does. *)
Definition M (A : Type) : Type := store -> result A * store.

Definition ret {A : Type} (a : A) : M A := fun h => (Ok a, h).

Definition bind {A B : Type} (m : M A) (f : A -> M B) : M B :=
  fun h => match m h with
           | (Ok a, h') => f a h'
           | (Raise e, h') => (Raise e, h')
           end.

Definition lift {A : Type} (r : result A) : M A := fun h => (r, h).

Definition read (l : loc) : M Img :=
  fun h => match objects h !! l with
           | Some v => (Ok v, h)
           | None => (Raise DanglingReference, h)
           end.

(** Allocate a new array holding [v]; no existing object changes. *)
Definition alloc (v : Img) : M loc :=
  fun h => (Ok (length (objects h)),
            {| objects := objects h ++ [v]; trace := trace h |}).

Definition log (e : event) : M unit :=
  fun h => (Ok tt, {| objects := objects h; trace := trace h ++ [e] |}).

(** What the three array-producing calls share: read the source, compute
    the result (which may raise), allocate it, log the call. *)
Definition primitive (compute : Img -> result Img) (call : loc -> event)
    (src : loc) : M loc :=
  bind (read src) (fun v =>
  bind (lift (compute v)) (fun w =>
  bind (alloc w) (fun dst =>
  bind (log (call dst)) (fun _ => ret dst)))).

(** [src.copy()] *)
Definition np_copy (src : loc) : M loc :=
  primitive (fun v => Ok v) (Copied src) src.

(** [cv2.GaussianBlur(src, (0, 0), sigma)] *)
Definition cv_GaussianBlur (src : loc) (sigma : Q) : M loc :=
  primitive (fun v => GaussianBlur v sigma) (Blurred src sigma) src.

(** [cv2.resize(src, dsize, interpolation=interp)] *)
Definition cv_resize (src : loc) (dsize : Z * Z) (interp : interpolation)
  : M loc :=
  primitive (fun v => resize v dsize interp) (Resized src dsize interp) src.

(** [src.shape] *)
Definition get_shape (src : loc) : M (nat * nat) :=
  bind (read src) (fun v => ret (img_shape v)).

Fixpoint for_each_st {A S : Type} (l : list A) (body : A -> S -> M S) (s : S)
  : M S :=
  match l with
  | [] => ret s
  | x :: l' => bind (body x s) (fun s' => for_each_st l' body s')
  end.

Record builder_refs := {
  current_image : loc;
  sigma : Q;
  pyramid : list (list loc)
}.

Definition scale_body (current_image : loc) (scale_level : Z)
    (st : list loc * Q) : M (list loc * Q) :=
  let '(octave, sigma) := st in
  bind (cv_GaussianBlur current_image sigma) (fun blurred_image =>
  ret (octave ++ [blurred_image], (sigma * 2)%Q)).

Definition octave_body (num_scales downsampling_factor : Z) (octave_level : Z)
    (st : builder_refs) : M builder_refs :=
  bind (for_each_st (py_range 0 num_scales)
          (scale_body (current_image st)) ([], sigma st)) (fun r =>
  bind (get_shape (current_image st)) (fun shp =>
  bind (lift (int_div (Z.of_nat (snd shp)) downsampling_factor)) (fun new_width =>
  bind (get_shape (current_image st)) (fun shp' =>
  bind (lift (int_div (Z.of_nat (fst shp')) downsampling_factor)) (fun new_height =>
  bind (cv_resize (current_image st) (new_width, new_height) INTER_NEAREST)
    (fun resized =>
  ret {| current_image := resized;
         sigma := sigma_literal;
         pyramid := pyramid st ++ [fst r] |})))))).

Definition build_scale_space_pyramid (image : loc) (num_octaves num_scales : Z)
    (sigma : Q) (downsampling_factor : Z) : M (list (list loc)) :=
  bind (np_copy image) (fun current_image =>
  bind (for_each_st (py_range 0 num_octaves)
          (octave_body num_scales downsampling_factor)
          {| current_image := current_image; sigma := sigma; pyramid := [] |})
    (fun st => ret (pyramid st))).

(** The images a pyramid of references denotes in a store. *)
Definition deref (h : store) (refs : list (list loc))
  : option (list (list Img)) :=
  mapM (mapM (fun l => objects h !! l)) refs.

(** [m], run in a store satisfying [P], ends with a result and a store
    satisfying [Q]. *)
Definition triple {A : Type} (P : store -> Prop) (m : M A)
    (Q : result A -> store -> Prop) : Prop :=
  forall h, P h -> Q (fst (m h)) (snd (m h)).

(** A postcondition that asks [QOk] of a returned value and [E] of the
    store an exception leaves behind. *)
Definition post {A : Type} (QOk : A -> store -> Prop) (E : store -> Prop)
  : result A -> store -> Prop :=
  fun r h => match r with Ok a => QOk a h | Raise _ => E h end.

(** The store during a call of the builder: the objects [objs0] and the
    trace [tr0] present after the copy on entry are still there, every
    later call reads the copy [root] or an array allocated since, and
    [cur] is such an array. *)
Definition call_inv (objs0 : list Img) (tr0 : list event) (root cur : loc)
    (h : store) : Prop :=
  (exists new, objects h = objs0 ++ new) /\
  (exists rest, trace h = tr0 ++ rest /\
                Forall (fun e => (root <= event_src e)%nat) rest /\
                reads_descendants root rest /\
                produced root rest cur) /\
  (root <= cur < length (objects h))%nat.

End Heap.

Arguments store : clear implicits.
End Store.

(** The reference [l] holds the image [v] in the store [h]. *)
Definition holds {Img : Type} (h : Store.store Img) (l : Store.loc) (v : Img)
  : Prop :=
  Store.objects h !! l = Some v.

(** The loop-carried references [st] stand, in the store [h], for the
    loop-carried images [st']: same sigma, and every reference holds the
    corresponding image. *)
Definition represents {Img : Type} (h : Store.store Img) (st : Store.builder_refs)
    (st' : builder_state Img) : Prop :=
  holds h (Store.current_image st) (current_image st') /\
  Store.sigma st = sigma st' /\
  Forall2 (Forall2 (holds h)) (Store.pyramid st) (pyramid st').

(** ** Vocabulary of the statements *)

(** [kp] lies in the interior of [img]: row in [1, height - 2] and column in
    [1, width - 2]. *)
Definition interior_pixel (img : ndarray) (kp : Z * Z) : Prop :=
  1 <= fst kp <= fst (shape img) - 2 /\ 1 <= snd kp <= snd (shape img) - 2.

(** [kp] is reported by the scan of image [m] of octave [o], and [m] is an
    interior index of that octave. *)
Definition found_at (dt : dtype) (DoG_pyramid : list (list ndarray))
    (threshold : Z) (o m : nat) (kp : Z * Z) : Prop :=
  exists octave_images img prev_img next_img found,
    DoG_pyramid !! o = Some octave_images /\
    1 <= Z.of_nat m <= Z.of_nat (length octave_images) - 2 /\
    octave_images !! m = Some img /\
    octave_images !! (m - 1)%nat = Some prev_img /\
    octave_images !! (m + 1)%nat = Some next_img /\
    detect_keypoints_in_image dt img prev_img next_img threshold = Ok found /\
    In kp found.

(** Two arrays have the same number of rows and, row by row, of columns. *)
Definition same_shape (a b : ndarray) : Prop :=
  Forall2 (fun r1 r2 => length r1 = length r2) a b.

(** The element-wise signed difference [b - a] of the specification: the
    difference of the values, negative where [b] is below [a]. *)
Definition signed_difference (b a : ndarray) : ndarray :=
  zip_with (zip_with Z.sub) b a.

(** The element-wise difference in the arithmetic of the element type. *)
Definition dtype_difference (dt : dtype) (b a : ndarray) : ndarray :=
  zip_with (zip_with (dt_sub dt)) b a.

(** All images of an octave share one shape. *)
Definition uniform_octave (octave : list ndarray) : Prop :=
  forall a b, In a octave -> In b octave -> same_shape b a.

(** The images of one octave: the seed blurred with the sigmas that [n]
    successive doublings of [sigma] run through, the first blur that raises
    ending the octave. *)
Definition blurred_scales {Img : Type} (GaussianBlur : Img -> Q -> result Img)
    (seed : Img) (sigma : Q) (n : nat) : result (list Img) :=
  map_result (fun s => GaussianBlur seed (doubled sigma s)) (seq 0 n).

(** The edge rule in the specification's words, for the four neighbours
    [a = image[row+1, col]], [b = image[row-1, col]], [c = image[row, col+1]]
    and [d = image[row, col-1]]: [dx = a - b] and [dy = c - d] are the
    differences of the values, and the candidate is rejected when
    [sqrt (dx^2 + dy^2) <= edgeThreshold]. *)
Definition gradient_rule_rejects (a b c d edgeThreshold : Z) : bool :=
  negb (sqrt_gt ((a - b) ^ 2 + (c - d) ^ 2) edgeThreshold).

(** A configuration the specification calls invalid. *)
Definition invalid_configuration (num_octaves num_scales : Z) (sigma : Q)
    (downsampling_factor : Z) : Prop :=
  num_octaves < 1 \/ num_scales < 1 \/ (sigma <= 0)%Q \/ downsampling_factor < 1.

(** ** Vocabulary of the further properties *)

(** Every row of [a] has as many columns as [a.shape] says. *)
Definition rectangular (a : ndarray) : Prop :=
  forall row, In row a -> Z.of_nat (length row) = snd (shape a).

(** The pixels the scan of [img] visits, in the order of the two loops. *)
Definition interior_pixels (img : ndarray) : list (Z * Z) :=
  concat (map (fun i => map (fun j => (i, j)) (py_range 1 (snd (shape img) - 1)))
              (py_range 1 (fst (shape img) - 1))).

(** The pixel [(i, j)] passes the three tests of the scan: the extremum
    test answers a true value, the contrast is not below the threshold, and
    the edge test answers [False]. *)
Definition passes_tests (dt : dtype) (img prev_img next_img : ndarray)
    (threshold : Z) (i j : Z) : Prop :=
  exists e center_val,
    is_local_extremum (slice2 img (i - 1) (i + 2) (j - 1) (j + 2))
                      (slice2 prev_img (i - 1) (i + 2) (j - 1) (j + 2))
                      (slice2 next_img (i - 1) (i + 2) (j - 1) (j + 2)) = Ok e /\
    truthy e = true /\
    getitem2 img i j = Ok center_val /\
    threshold <= dt_abs dt center_val /\
    is_edge_point dt img i j default_edge_threshold = Ok false.

(** The largest value an element of type [dt] can hold. *)
Definition dtype_max (dt : dtype) : Z :=
  match dt with uint8 => 255 | uint16 => 65535 | int16 => 32767 end.

(** The scan of the image at position [scale] of [octave_images[1:-1]],
    with the images before and after it. *)
Definition scan_scale (dt : dtype) (octave_images : list ndarray) (threshold : Z)
    (entry : Z * ndarray) : result (list (Z * Z)) :=
  prev_img ← list_getitem octave_images (fst entry);
  next_img ← list_getitem octave_images (fst entry + 2);
  detect_keypoints_in_image dt (snd entry) prev_img next_img threshold.

(** Every image of the octave is rectangular and all share one shape. *)
Definition well_formed_octave (octave : list ndarray) : Prop :=
  uniform_octave octave /\ forall a, In a octave -> rectangular a.

(** Every value of the array can be held by an element of type [dt]. *)
Definition values_in_range (dt : dtype) (a : ndarray) : Prop :=
  forall row v, In row a -> In v row -> in_range dt v.

(** ** The pipeline of the module's script

    [build_scale_space_pyramid], then [generate_DoG_pyramid], then
    [detect_keypoints], on arrays of element type [dt]. *)

(** [image.shape] of an array, for the builder. *)
Definition nd_shape (a : ndarray) : nat * nat :=
  (length a, length (default [] (head a))).

Definition pipeline (dt : dtype) (GaussianBlur : ndarray -> Q -> result ndarray)
    (resize : ndarray -> Z * Z -> interpolation -> result ndarray)
    (image : ndarray)
    (num_octaves num_scales : Z) (sigma : Q) (downsampling_factor : Z)
    (threshold : Z) : result (list (Z * Z)) :=
  gaussian_pyramid ← build_scale_space_pyramid nd_shape GaussianBlur resize
                        image num_octaves num_scales sigma downsampling_factor;
  DoG_pyramid ← generate_DoG_pyramid dt gaussian_pyramid;
  detect_keypoints dt DoG_pyramid threshold.

(** The script calls the builder with its defaults and the detector with
    the threshold 100. *)
Definition script_keypoints (dt : dtype)
    (GaussianBlur : ndarray -> Q -> result ndarray)
    (resize : ndarray -> Z * Z -> interpolation -> result ndarray)
    (image : ndarray) : result (list (Z * Z)) :=
  pipeline dt GaussianBlur resize image 3 5 1.6 2 100.

(** Stand-ins for the cv2 primitives on arrays.  They raise where cv2
    raises; where cv2 returns they keep its shape contract: the blur returns
    its input (or, for [sample_blur], an array of the same shape whose
    values change with sigma, so that the differences of the scales are not
    all zero), the resize a zero-filled array of the requested size. *)
Definition stub_blur (a : ndarray) (sigma : Q) : ndarray := a.

Definition sample_blur (a : ndarray) (sigma : Q) : ndarray :=
  map (map (fun v => (v * ((Qnum sigma / Zpos (Qden sigma)) mod 4)) mod 256)) a.

Definition stub_resize (a : ndarray) (dsize : Z * Z) (interp : interpolation)
  : ndarray :=
  replicate (Z.to_nat (snd dsize)) (replicate (Z.to_nat (fst dsize)) 0).

Definition stub_GaussianBlur : ndarray -> Q -> result ndarray :=
  checked_GaussianBlur nd_shape stub_blur.

Definition sample_GaussianBlur : ndarray -> Q -> result ndarray :=
  checked_GaussianBlur nd_shape sample_blur.

Definition stub_cv_resize : ndarray -> Z * Z -> interpolation -> result ndarray :=
  checked_resize nd_shape stub_resize.

(** The kinds of logged calls, and how many calls of a kind a trace holds. *)
Definition is_blur (e : Store.event) : bool :=
  match e with Store.Blurred _ _ _ => true | _ => false end.

Definition is_resize (e : Store.event) : bool :=
  match e with Store.Resized _ _ _ _ => true | _ => false end.

Definition count_calls (kind : Store.event -> bool) (tr : list Store.event) : nat :=
  length (List.filter kind tr).

(** ** playground/Face_detec&Rec.py: folders of labelled images and the
       performance counters

    The file system ([os.listdir], [os.path.join]), the image loading of cv2
    and the PCA matcher [PCA_APPLY] (floating-point linear algebra) are
    parameters, taken as total functions; the loops, the counters and the
    divisions are the code's.  A quotient of two Python ints is the exact
    rational. *)

(** [a / b] on Python ints. *)
Definition py_truediv (a b : Z) : result Q :=
  if b =? 0 then Raise ZeroDivisionError
  else Ok (Qmake (a * Z.sgn b) (Z.to_pos (Z.abs b))).

Section FaceRecognition.
Context {Raw Img : Type}.
(** [os.listdir(path)] and [os.path.join(a, b)] *)
Variable listdir : string -> list string.
Variable join : string -> string -> string.
(** [cv2.imread(path, cv2.IMREAD_GRAYSCALE)], [cv2.resize(image, dsize)] and
    [image.flatten()] *)
Variable imread : string -> Raw.
Variable cv_resize : Raw -> Z * Z -> Raw.
Variable flatten : Raw -> Img.
(** [PCA_APPLY(unknown_face)], returning
    [(train_imgs_paths, trainLabels, best_match)] *)
Variable PCA_APPLY : Img -> list string * list string * Z.

Definition get_image_paths (path : string) : list string * list string :=
  foldl (fun '(image_paths, labels) subdir =>
           let label := subdir in
           let subdir_path := join path subdir in
           foldl (fun '(image_paths, labels) filename =>
                    let labels := labels ++ [label] in
                    let image_path := join subdir_path filename in
                    (image_paths ++ [image_path], labels))
                 (image_paths, labels) (listdir subdir_path))
        ([], []) (listdir path).

Definition get_array_images (image_paths : list string) (width height : Z)
  : list Img :=
  foldl (fun images image_path =>
           let image := imread image_path in
           let image := cv_resize image (width, height) in
           images ++ [flatten image])
        [] image_paths.

(** The variables the loop of [calculate_performance] updates. *)
Record counters := {
  tp : Z; tn : Z; fp : Z; fn : Z;
  tpr_values : list Q;
  fpr_values : list Q;
  bestMatches : list Z
}.

(** The body of the loop of [calculate_performance]. *)
Definition performance_step (test_labels : list string) (threshold : Z)
    (entry : Z * Img) (c : counters) : result counters :=
  let '(i, img) := entry in
  let '(train_imgs_paths, train_labels, best_match) := PCA_APPLY img in
  let bestMatches := bestMatches c ++ [best_match] in
  test_label ← list_getitem test_labels i;
  train_label ← list_getitem train_labels best_match;
  let positive := bool_decide (test_label = train_label) in
  let '(tp, tn, fp, fn) :=
    if best_match <=? threshold then
      if positive then (tp c + 1, tn c, fp c, fn c)
      else (tp c, tn c, fp c + 1, fn c)
    else if best_match >=? threshold then
      if positive then (tp c, tn c, fp c, fn c + 1)
      else (tp c, tn c + 1, fp c, fn c)
    else (tp c, tn c, fp c, fn c) in
  tpr ← (if negb (tp + fn =? 0) then py_truediv tp (tp + fn) else Ok 0%Q);
  fpr ← (if negb (fp + tn =? 0) then py_truediv fp (fp + tn) else Ok 0%Q);
  Ok {| tp := tp; tn := tn; fp := fp; fn := fn;
        tpr_values := tpr_values c ++ [tpr];
        fpr_values := fpr_values c ++ [fpr];
        bestMatches := bestMatches |}.

(** The counters when the loop over the test images is done. *)
Definition performance_counters (test_labels : list string) (test_images : list Img)
    (threshold : Z) : result counters :=
  for_each (enumerate test_images) (performance_step test_labels threshold)
    {| tp := 0; tn := 0; fp := 0; fn := 0;
       tpr_values := []; fpr_values := []; bestMatches := [] |}.

(** The parameters [width] and [height] are not used: the images are loaded
    with the defaults of [get_array_images]. *)
Definition calculate_performance (test_path : string) (threshold width height : Z)
  : result (list Q * list Q * Q * Q * Q) :=
  let '(test_image_paths, test_labels) := get_image_paths test_path in
  let test_images := get_array_images test_image_paths 64 64 in
  c ← performance_counters test_labels test_images threshold;
  let num_images := tp c + tn c + fp c + fn c in
  FMR ← py_truediv (fp c) num_images;
  FNMR ← py_truediv (fn c) num_images;
  accuracy ← py_truediv (tp c + tn c) num_images;
  precision ← py_truediv (tp c) (tp c + fp c);
  specificity ← py_truediv (tn c) (tn c + fn c);
  Ok (fpr_values c, tpr_values c, accuracy, precision, specificity).

(** The best match [PCA_APPLY] reports for an image, and whether it is a
    valid index into the training labels it reports. *)
Definition best_match_of (img : Img) : Z := snd (PCA_APPLY img).

Definition valid_match (img : Img) : Prop :=
  0 <= best_match_of img < Z.of_nat (length (snd (fst (PCA_APPLY img)))).
End FaceRecognition.

(** [enumerate(l, start=n)] *)
Definition enumerate_from {A : Type} (n : nat) (l : list A) : list (Z * A) :=
  imap (fun k x => (Z.of_nat (n + k), x)) l.

(** A small test folder and a recogniser for the examples: the folder
    [test] holds two pictures of [tony] and one of [thor]; the recogniser
    knows one training picture of each and answers with the index of the
    person whose folder the picture is in. *)
Definition sample_listdir (path : string) : list string :=
  if String.eqb path "test" then ["tony"; "thor"]%string
  else if String.eqb path "test/tony" then ["a.png"; "b.png"]%string
  else if String.eqb path "test/thor" then ["c.png"]%string
  else [].

Definition sample_join (a b : string) : string :=
  String.append a (String.append "/" b).

Definition sample_imread (path : string) : string := path.

Definition sample_resize (image : string) (dsize : Z * Z) : string := image.

Definition sample_flatten (image : string) : string := image.

Definition sample_PCA (img : string) : list string * list string * Z :=
  (["train/tony/0.png"; "train/thor/0.png"]%string, ["tony"; "thor"]%string,
   if String.prefix "test/tony" img then 0 else 1).

(** ** The drawing loop of the script *)

(** [(idx * 10 % 256, idx * 20 % 256, idx * 30 % 256)] *)
Definition keypoint_color (idx : Z) : Z * Z * Z :=
  ((idx * 10) mod 256, (idx * 20) mod 256, (idx * 30) mod 256).

(** The arguments of one call [cv2.circle(img, center, radius, color,
    thickness)]; [center] is [(x, y)]. *)
Record circle := {
  center : Z * Z;
  radius : Z;
  color : Z * Z * Z;
  thickness : Z
}.

(** The calls of [cv2.circle] the loop over [enumerate(keypoints)] makes on
    [keypoint_image], in order. *)
Definition draw_keypoints (keypoints : list (Z * Z)) : list circle :=
  map (fun '(idx, point) =>
         {| center := (snd point, fst point);
            radius := 3;
            color := keypoint_color idx;
            thickness := 1 |})
      (enumerate keypoints).

(** * Properties *)

(** ** Loops, ranges and slices *)

Lemma bind_Ok {A B : Type} (a : A) (f : A -> result B) : (Ok a ≫= f) = f a.
Proof. reflexivity. Qed.

Lemma bind_Raise {A B : Type} (e : exn) (f : A -> result B) :
  (Raise e ≫= f) = Raise e.
Proof. reflexivity. Qed.

Lemma bind_Ok_inv {A B : Type} (m : result A) (f : A -> result B) (b : B) :
  (m ≫= f) = Ok b -> exists a, m = Ok a /\ f a = Ok b.
Proof. destruct m as [a|e]; [eauto | discriminate]. Qed.

(** Split a hypothesis [x ← m; k = Ok b] into its two steps. *)
Ltac bind_inv H :=
  let a := fresh "a" in
  let Ha := fresh "Ha" in
  apply bind_Ok_inv in H; destruct H as (a & Ha & H).

Section Loops.
Context {A S : Type}.
Implicit Types (body : A -> S -> result S) (l : list A).

Lemma for_each_app l1 l2 body s :
  for_each (l1 ++ l2) body s = (for_each l1 body s ≫= for_each l2 body).
Proof.
  revert s; induction l1 as [|x l1 IH]; intros s; simpl; [reflexivity|].
  destruct (body x s) as [s'|e]; simpl; [apply IH | reflexivity].
Qed.

Lemma for_each_invariant (P : S -> Prop) l body :
  (forall x s s', In x l -> P s -> body x s = Ok s' -> P s') ->
  forall s s', P s -> for_each l body s = Ok s' -> P s'.
Proof.
  induction l as [|x l IH]; intros Hbody s s' Hs Hrun; simpl in Hrun.
  - congruence.
  - bind_inv Hrun. eapply IH; [| |exact Hrun].
    + intros y t t' Hy. apply Hbody. now right.
    + eapply Hbody; [now left|exact Hs|exact Ha].
Qed.

Lemma for_each_skip l body :
  (forall x s, In x l -> body x s = Ok s) ->
  forall s, for_each l body s = Ok s.
Proof.
  induction l as [|x l IH]; intros Hbody s; simpl; [reflexivity|].
  rewrite Hbody by now left. simpl. apply IH.
  intros y t Hy. apply Hbody. now right.
Qed.
End Loops.

Lemma In_py_range lo hi x : In x (py_range lo hi) <-> lo <= x < hi.
Proof.
  unfold py_range. rewrite in_map_iff. split.
  - intros (k & <- & Hk). apply in_seq in Hk. lia.
  - intros Hx. exists (Z.to_nat (x - lo)). split; [lia|]. apply in_seq. lia.
Qed.

Lemma py_range_empty lo hi : hi <= lo -> py_range lo hi = [].
Proof.
  intros H. unfold py_range. replace (Z.to_nat (hi - lo)) with O by lia.
  reflexivity.
Qed.

Lemma py_range_nat n : py_range 0 (Z.of_nat n) = map Z.of_nat (seq 0 n).
Proof.
  unfold py_range. rewrite Z.sub_0_r, Nat2Z.id. reflexivity.
Qed.

Lemma py_range_succ n :
  py_range 0 (Z.of_nat (S n)) = py_range 0 (Z.of_nat n) ++ [Z.of_nat n].
Proof.
  rewrite !py_range_nat, seq_S, map_app. reflexivity.
Qed.

Lemma length_py_range lo hi : length (py_range lo hi) = Z.to_nat (hi - lo).
Proof. unfold py_range. now rewrite length_map, length_seq. Qed.

Lemma In_enumerate {A : Type} (l : list A) k x :
  In (k, x) (enumerate l) <-> 0 <= k /\ l !! Z.to_nat k = Some x.
Proof.
  unfold enumerate. rewrite <- list_elem_of_In, list_elem_of_lookup. split.
  - intros (i & Hi). rewrite list_lookup_imap in Hi.
    destruct (l !! i) as [y|] eqn:E; simpl in Hi; [|discriminate].
    injection Hi as <- <-. rewrite Nat2Z.id. split; [lia|assumption].
  - intros (Hk & Hx). exists (Z.to_nat k). rewrite list_lookup_imap, Hx. simpl.
    now rewrite Z2Nat.id.
Qed.

(** [l[1:-1]] drops the first and the last element. *)
Lemma py_slice_interior {A : Type} (l : list A) :
  py_slice l 1 (-1) = take (length l - 2) (drop 1 l).
Proof.
  unfold py_slice, clip_index. simpl.
  destruct l as [|a l]; [reflexivity|].
  replace (Z.to_nat (Z.min (Z.of_nat (length (a :: l))) (Z.max 0 1))) with 1%nat
    by (simpl length; lia).
  f_equal. simpl length. lia.
Qed.

Lemma py_slice_interior_short {A : Type} (l : list A) :
  (length l <= 2)%nat -> py_slice l 1 (-1) = [].
Proof.
  intros H. rewrite py_slice_interior.
  replace (length l - 2)%nat with O by lia. reflexivity.
Qed.

Lemma py_slice_interior_lookup {A : Type} (l : list A) (k : nat) x :
  py_slice l 1 (-1) !! k = Some x ->
  l !! S k = Some x /\ (S k + 1 < length l)%nat.
Proof.
  rewrite py_slice_interior. intros H.
  apply lookup_take_Some in H as [H Hk].
  rewrite lookup_drop in H. simpl in H. split; [assumption|lia].
Qed.

Lemma list_getitem_Ok {A : Type} (l : list A) (i : Z) (x : A) :
  0 <= i -> list_getitem l i = Ok x -> l !! Z.to_nat i = Some x.
Proof.
  intros Hi H. unfold list_getitem, norm_index in H.
  destruct (i <? 0) eqn:E; [lia|].
  destruct ((0 <=? i) && (i <? Z.of_nat (length l))); simpl in H; [|discriminate].
  destruct (l !! Z.to_nat i); congruence.
Qed.

Lemma list_getitem_lookup {A : Type} (l : list A) (k : nat) (x : A) :
  l !! k = Some x -> list_getitem l (Z.of_nat k) = Ok x.
Proof.
  intros H. pose proof (lookup_lt_Some _ _ _ H) as Hlt.
  unfold list_getitem, norm_index.
  destruct (Z.of_nat k <? 0) eqn:E; [lia|].
  replace ((0 <=? Z.of_nat k) && (Z.of_nat k <? Z.of_nat (length l))) with true
    by (symmetry; apply andb_true_intro; split; lia).
  simpl. rewrite Nat2Z.id, H. reflexivity.
Qed.

(** ** The keypoint detector *)

Lemma scan_octave_short dt octave_images threshold keypoints :
  (length octave_images <= 2)%nat ->
  scan_octave dt octave_images threshold keypoints = Ok keypoints.
Proof.
  intros H. unfold scan_octave. now rewrite py_slice_interior_short.
Qed.

Lemma detect_keypoints_short_octaves_all dt DoG_pyramid threshold :
  Forall (fun octave_images => (length octave_images <= 2)%nat) DoG_pyramid ->
  detect_keypoints dt DoG_pyramid threshold = Ok [].
Proof.
  intros Hshort. rewrite Forall_forall in Hshort.
  unfold detect_keypoints. apply for_each_skip.
  intros [o octave_images] kps Hin. apply In_enumerate in Hin as [_ Hin].
  apply scan_octave_short, Hshort. eapply list_elem_of_lookup_2. exact Hin.
Qed.

(** C9. An octave of at most two DoG images has no interior scale: its scan
    adds nothing to the keypoints and raises nothing, and a pyramid made of
    such octaves yields the empty keypoint list. *)
Theorem detect_keypoints_short_octaves dt DoG_pyramid threshold :
  Forall (fun octave_images => (length octave_images <= 2)%nat) DoG_pyramid ->
  detect_keypoints dt DoG_pyramid threshold = Ok [] /\
  forall octave_images keypoints,
    In octave_images DoG_pyramid ->
    scan_octave dt octave_images threshold keypoints = Ok keypoints.
Proof.
  intros Hshort. rewrite Forall_forall in Hshort.
  assert (Hoct : forall octave_images keypoints,
             In octave_images DoG_pyramid ->
             scan_octave dt octave_images threshold keypoints = Ok keypoints).
  { intros o kps Hin. apply scan_octave_short.
    apply Hshort. now apply list_elem_of_In. }
  split; [|exact Hoct].
  unfold detect_keypoints. apply for_each_skip.
  intros [o octave_images] kps Hin. apply In_enumerate in Hin as [_ Hin].
  apply Hoct. apply list_elem_of_In. eapply list_elem_of_lookup_2. exact Hin.
Qed.

Lemma detect_keypoints_short_octaves_witness :
  detect_keypoints uint8 [[ [[1; 2; 3]; [4; 5; 6]; [7; 8; 9]]; [[0; 0; 0]; [0; 9; 0]; [0; 0; 0]] ]; [];
                          [ [[3; 1]; [4; 1]] ]] 5 = Ok [] /\
  forall octave_images keypoints,
    In octave_images [[ [[1; 2; 3]; [4; 5; 6]; [7; 8; 9]]; [[0; 0; 0]; [0; 9; 0]; [0; 0; 0]] ]; [];
                      [ [[3; 1]; [4; 1]] ]] ->
    scan_octave uint8 octave_images 5 keypoints = Ok keypoints.
Proof.
  apply (detect_keypoints_short_octaves uint8).
  repeat constructor; simpl; lia.
Defined.

(** The pixel step appends the pixel it examines, or nothing. *)
Lemma scan_pixel_result dt img prev_img next_img threshold i j keypoints keypoints' :
  scan_pixel dt img prev_img next_img threshold i j keypoints = Ok keypoints' ->
  keypoints' = keypoints \/ keypoints' = keypoints ++ [(i, j)].
Proof.
  unfold scan_pixel. intros H. bind_inv H.
  destruct (truthy a); [|left; congruence].
  bind_inv H. destruct (dt_abs dt a0 <? threshold); [left; congruence|].
  bind_inv H. destruct a1; [left|right]; congruence.
Qed.

(** Every keypoint of one image scan is an interior pixel of that image. *)
Lemma detect_keypoints_in_image_interior dt img prev_img next_img threshold found :
  detect_keypoints_in_image dt img prev_img next_img threshold = Ok found ->
  forall kp, In kp found -> interior_pixel img kp.
Proof.
  unfold detect_keypoints_in_image.
  apply (for_each_invariant (fun kps => forall kp, In kp kps -> interior_pixel img kp));
    [|intros kp []].
  intros i kps kps' Hi Hkps.
  apply (for_each_invariant (fun kps => forall kp, In kp kps -> interior_pixel img kp));
    [|exact Hkps].
  intros j s s' Hj Hs Hstep kp Hkp.
  apply scan_pixel_result in Hstep as [->| ->]; [now apply Hs|].
  apply in_app_or in Hkp as [Hkp|[<-|[]]]; [now apply Hs|].
  apply In_py_range in Hi, Hj. unfold interior_pixel. cbn [fst snd]. lia.
Qed.

(** Every keypoint the scan of an octave adds comes from the scan of one of
    its interior images. *)
Lemma scan_octave_found dt octave_images threshold keypoints keypoints' :
  scan_octave dt octave_images threshold keypoints = Ok keypoints' ->
  forall kp, In kp keypoints' ->
    In kp keypoints \/
    exists (m : nat) img prev_img next_img found,
      1 <= Z.of_nat m <= Z.of_nat (length octave_images) - 2 /\
      octave_images !! m = Some img /\
      octave_images !! (m - 1)%nat = Some prev_img /\
      octave_images !! (m + 1)%nat = Some next_img /\
      detect_keypoints_in_image dt img prev_img next_img threshold = Ok found /\
      In kp found.
Proof.
  unfold scan_octave.
  apply (for_each_invariant (fun kps => forall kp, In kp kps -> In kp keypoints \/ _));
    [|now left].
  intros [scale img] s s' Hin Hs Hstep kp Hkp.
  apply In_enumerate in Hin as [Hscale Hin].
  apply py_slice_interior_lookup in Hin as [Himg Hlen].
  bind_inv Hstep. rename a into prev_img.
  bind_inv Hstep. rename a into next_img.
  bind_inv Hstep. rename a into found.
  injection Hstep as <-.
  apply in_app_or in Hkp as [Hkp|Hkp]; [now apply Hs|].
  right. exists (S (Z.to_nat scale)), img, prev_img, next_img, found.
  apply list_getitem_Ok in Ha, Ha0; [|lia..].
  repeat split; try assumption; try lia.
  - replace (S (Z.to_nat scale) - 1)%nat with (Z.to_nat scale) by lia. exact Ha.
  - replace (S (Z.to_nat scale) + 1)%nat with (Z.to_nat (scale + 2)) by lia.
    exact Ha0.
Qed.

Lemma detect_keypoints_found dt DoG_pyramid threshold keypoints :
  detect_keypoints dt DoG_pyramid threshold = Ok keypoints ->
  forall kp, In kp keypoints ->
    exists o m, found_at dt DoG_pyramid threshold o m kp.
Proof.
  unfold detect_keypoints.
  apply (for_each_invariant
           (fun kps => forall kp, In kp kps ->
                         exists o m, found_at dt DoG_pyramid threshold o m kp));
    [|intros kp []].
  intros [octave octave_images] s s' Hin Hs Hstep kp Hkp.
  apply In_enumerate in Hin as [_ Hoct].
  destruct (scan_octave_found _ _ _ _ _ Hstep kp Hkp)
    as [Hold|(m & img & prev_img & next_img & found & H)]; [now apply Hs|].
  exists (Z.to_nat octave), m, octave_images, img, prev_img, next_img, found.
  tauto.
Qed.

(** C3 (as amended). A keypoint is the pair (row, col) of a pixel; it was
    found in the scan of an image [m] of some octave [o], where [m] lies in
    [1, len(octave) - 2], row in [1, height - 2] and col in [1, width - 2] of
    that image.  Neither [o] nor [m] is part of the keypoint. *)
Theorem detect_keypoints_interior dt DoG_pyramid threshold keypoints kp :
  detect_keypoints dt DoG_pyramid threshold = Ok keypoints ->
  In kp keypoints ->
  exists (o m : nat) octave_images img,
    DoG_pyramid !! o = Some octave_images /\
    octave_images !! m = Some img /\
    1 <= Z.of_nat m <= Z.of_nat (length octave_images) - 2 /\
    1 <= fst kp <= fst (shape img) - 2 /\
    1 <= snd kp <= snd (shape img) - 2 /\
    found_at dt DoG_pyramid threshold o m kp.
Proof.
  intros Hrun Hkp.
  destruct (detect_keypoints_found _ _ _ _ Hrun kp Hkp) as (o & m & Hfound).
  pose proof Hfound as
    (octave_images & img & prev_img & next_img & found & Ho & Hm & Himg & _ & _ & Hscan & Hin).
  exists o, m, octave_images, img.
  pose proof (detect_keypoints_in_image_interior _ _ _ _ _ _ Hscan kp Hin) as [Hr Hc].
  repeat split; try assumption; lia.
Qed.

Lemma detect_keypoints_interior_witness :
  exists (o m : nat) octave_images img,
    [[ [[0; 0; 0]; [0; 0; 0]; [0; 0; 0]];
       [[0; 0; 0]; [0; 50; 0]; [0; 30; 0]];
       [[0; 0; 0]; [0; 0; 0]; [0; 0; 0]] ]] !! o = Some octave_images /\
    octave_images !! m = Some img /\
    1 <= Z.of_nat m <= Z.of_nat (length octave_images) - 2 /\
    1 <= fst (1, 1) <= fst (shape img) - 2 /\
    1 <= snd (1, 1) <= snd (shape img) - 2 /\
    found_at uint8
      [[ [[0; 0; 0]; [0; 0; 0]; [0; 0; 0]];
         [[0; 0; 0]; [0; 50; 0]; [0; 30; 0]];
         [[0; 0; 0]; [0; 0; 0]; [0; 0; 0]] ]] 5 o m (1, 1).
Proof.
  apply (detect_keypoints_interior uint8 _ 5 [(1, 1)] (1, 1)).
  - reflexivity.
  - simpl. auto.
Defined.

(** C3 (as stated) fails: a returned keypoint carries no octave index and no
    scale index.  The same keypoint list [(1, 1)] is returned for a pyramid
    whose extremum lies in octave 0 and for one whose extremum lies in
    octave 1, so no reading of indices off the keypoint is right for both. *)
Lemma keypoints_carry_no_indices :
  ~ exists octaveIndex scaleIndex : Z * Z -> nat,
      forall DoG_pyramid threshold keypoints kp,
        detect_keypoints uint8 DoG_pyramid threshold = Ok keypoints ->
        In kp keypoints ->
        found_at uint8 DoG_pyramid threshold (octaveIndex kp) (scaleIndex kp) kp.
Proof.
  intros (octaveIndex & scaleIndex & H).
  set (flat := [[0; 0; 0]; [0; 0; 0]; [0; 0; 0]] : ndarray).
  set (peak := [[0; 0; 0]; [0; 50; 0]; [0; 30; 0]] : ndarray).
  assert (HA := H [[flat; peak; flat]] 5 [(1, 1)] (1, 1) eq_refl (or_introl eq_refl)).
  assert (HB := H [[flat]; [flat; peak; flat]] 5 [(1, 1)] (1, 1) eq_refl (or_introl eq_refl)).
  destruct HA as (octA & _ & _ & _ & _ & HoA & _).
  destruct HB as (octB & _ & _ & _ & _ & HoB & HmB & _).
  destruct (octaveIndex (1, 1)) as [|o].
  - injection HoB as <-. simpl in HmB. lia.
  - destruct o; discriminate HoA.
Qed.

(** ** The extremum test *)

Lemma foldl_max_spec (xs : list Z) (x : Z) :
  (forall v, In v (x :: xs) -> v <= foldl Z.max x xs) /\
  In (foldl Z.max x xs) (x :: xs).
Proof.
  revert x; induction xs as [|y xs IH]; intros x; simpl.
  - split; [intros v [<-|[]]; lia | now left].
  - destruct (IH (Z.max x y)) as [Hle Hin]. split.
    + intros v [<-|[<-|Hv]].
      * specialize (Hle (Z.max x y) (or_introl eq_refl)). lia.
      * specialize (Hle (Z.max x y) (or_introl eq_refl)). lia.
      * apply Hle. now right.
    + destruct Hin as [Hin|Hin]; [|now right; right].
      rewrite <- Hin. destruct (Z.max_spec x y) as [[_ ->]|[_ ->]]; auto.
Qed.

Lemma foldl_min_spec (xs : list Z) (x : Z) :
  (forall v, In v (x :: xs) -> foldl Z.min x xs <= v) /\
  In (foldl Z.min x xs) (x :: xs).
Proof.
  revert x; induction xs as [|y xs IH]; intros x; simpl.
  - split; [intros v [<-|[]]; lia | now left].
  - destruct (IH (Z.min x y)) as [Hle Hin]. split.
    + intros v [<-|[<-|Hv]].
      * specialize (Hle (Z.min x y) (or_introl eq_refl)). lia.
      * specialize (Hle (Z.min x y) (or_introl eq_refl)). lia.
      * apply Hle. now right.
    + destruct Hin as [Hin|Hin]; [|now right; right].
      rewrite <- Hin. destruct (Z.min_spec x y) as [[_ ->]|[_ ->]]; auto.
Qed.

(** [c > np.max(a)] says that [c] is above every value of [a]. *)
Lemma np_max_gt (a : ndarray) (m c : Z) :
  np_max a = Ok m -> (m < c <-> forall v, In v (concat a) -> v < c).
Proof.
  unfold np_max. destruct (concat a) as [|x xs]; [discriminate|].
  intros [= <-]. destruct (foldl_max_spec xs x) as [Hle Hin]. split.
  - intros Hc v Hv. specialize (Hle v Hv). lia.
  - intros Hall. now apply Hall.
Qed.

Lemma np_min_lt (a : ndarray) (m c : Z) :
  np_min a = Ok m -> (c < m <-> forall v, In v (concat a) -> c < v).
Proof.
  unfold np_min. destruct (concat a) as [|x xs]; [discriminate|].
  intros [= <-]. destruct (foldl_min_spec xs x) as [Hle Hin]. split.
  - intros Hc v Hv. specialize (Hle v Hv). lia.
  - intros Hall. now apply Hall.
Qed.

(** What the code's test accepts: the center is above every value of the
    block of the previous scale, or below every value of the block of the
    next scale.  (The detector passes the previous scale as [upper] and the
    next one as [lower].) *)
Lemma is_local_extremum_accepts center upper lower c mu ml :
  getitem2 center 1 1 = Ok c ->
  np_max upper = Ok mu ->
  np_min lower = Ok ml ->
  exists r, is_local_extremum center upper lower = Ok r /\
            (truthy r = true <->
             (forall v, In v (concat upper) -> v < c) \/
             (forall v, In v (concat lower) -> c < v)).
Proof.
  intros Hc Hmu Hml.
  pose proof (np_max_gt _ _ c Hmu) as Hmax.
  pose proof (np_min_lt _ _ c Hml) as Hmin.
  assert (Hno : c <= mu -> ml <= c ->
                false = true <->
                (forall v, In v (concat upper) -> v < c) \/
                (forall v, In v (concat lower) -> c < v)).
  { intros H1 H2. split; [discriminate|]. intros [H|H]; [apply Hmax in H|apply Hmin in H]; lia. }
  unfold is_local_extremum, py_or. rewrite Hc, Hmu, Hml. cbn [mbind result_bind].
  destruct (c >? mu) eqn:E1; cbn [mbind result_bind].
  - eexists; split; [reflexivity|]. split; [intros _; left; apply Hmax; lia|reflexivity].
  - destruct (c <? ml) eqn:E2; cbn [mbind result_bind].
    + eexists; split; [reflexivity|].
      split; [intros _; right; apply Hmin; lia|reflexivity].
    + destruct (c <? mu); cbn [mbind result_bind];
        [|destruct (c >? ml); cbn [mbind result_bind]];
        (eexists; split; [reflexivity|]; apply Hno; lia).
Qed.

(** C1. The code's extremum test accepts a center that is no strict extremum
    of the two neighbouring blocks: center 5 lies above the previous scale
    (all 0) but below the next scale (all 10), the test returns [True], and
    the detector reports the pixel. *)
Theorem is_local_extremum_accepts_non_extremum :
  let prev_img := [[0; 0; 0]; [0; 0; 0]; [0; 0; 0]] in
  let img := [[0; 0; 0]; [0; 5; 0]; [0; 20; 0]] in
  let next_img := [[10; 10; 10]; [10; 10; 10]; [10; 10; 10]] in
  is_local_extremum (slice2 img 0 3 0 3) (slice2 prev_img 0 3 0 3)
                    (slice2 next_img 0 3 0 3) = Ok (Some true) /\
  strict_extremum_rule 5 prev_img next_img = false /\
  detect_keypoints uint8 [[prev_img; img; next_img]] 0 = Ok [(1, 1)].
Proof. repeat split. Qed.

(** ** The edge filter *)

(** [sqrt_gt n t] decides [sqrt n > t] over the reals. *)
Lemma sqrt_gt_spec (n t : Z) :
  0 <= n -> (sqrt_gt n t = true <-> (IZR t < sqrt (IZR n))%R).
Proof.
  intros Hn. unfold sqrt_gt.
  assert (Hn' : (0 <= IZR n)%R) by now apply IZR_le.
  destruct (t <? 0) eqn:Et; simpl.
  - apply Z.ltb_lt in Et. apply IZR_lt in Et.
    pose proof (sqrt_pos (IZR n)). split; [intros _; lra|reflexivity].
  - apply Z.ltb_ge in Et. assert (Ht : (0 <= IZR t)%R) by now apply IZR_le.
    rewrite Z.ltb_lt. split.
    + intros H. apply IZR_lt in H. rewrite mult_IZR in H.
      rewrite <- (sqrt_square (IZR t)) at 1 by exact Ht.
      apply sqrt_lt_1_alt. split; [nra|exact H].
    + intros H. destruct (Z_lt_le_dec (t * t) n) as [Hlt|Hge]; [exact Hlt|].
      apply IZR_le in Hge. rewrite mult_IZR in Hge.
      apply sqrt_le_1_alt in Hge. rewrite sqrt_square in Hge by exact Ht. lra.
Qed.

(** Where the difference is representable in the element type, the
    subtraction of two elements is the difference of their values. *)
Lemma dt_sub_exact dt a b : in_range dt (a - b) -> dt_sub dt a b = a - b.
Proof.
  unfold dt_sub, wrap, in_range. destruct dt; intros H.
  - now apply Z.mod_small.
  - now apply Z.mod_small.
  - rewrite Z.mod_small by lia. lia.
Qed.

Lemma is_edge_point_rule dt img i j edge_threshold a b c d :
  getitem2 img (i + 1) j = Ok a ->
  getitem2 img (i - 1) j = Ok b ->
  getitem2 img i (j + 1) = Ok c ->
  getitem2 img i (j - 1) = Ok d ->
  exists r,
    is_edge_point dt img i j edge_threshold = Ok r /\
    (r = true <->
     (sqrt (IZR (dt_sub dt a b ^ 2 + dt_sub dt c d ^ 2)) <= IZR edge_threshold)%R).
Proof.
  intros Ha Hb Hc Hd. unfold is_edge_point. rewrite Ha, Hb, Hc, Hd.
  cbn [mbind result_bind].
  set (n := dt_sub dt a b ^ 2 + dt_sub dt c d ^ 2).
  assert (Hn : 0 <= n) by (unfold n; nia).
  pose proof (sqrt_gt_spec n edge_threshold Hn) as Hspec.
  destruct (sqrt_gt n edge_threshold).
  - exists false. split; [reflexivity|]. split; [discriminate|].
    intros Hle. assert (IZR edge_threshold < sqrt (IZR n))%R by now apply Hspec.
    lra.
  - exists true. split; [reflexivity|]. split; [|reflexivity]. intros _.
    destruct (Rle_or_lt (sqrt (IZR n)) (IZR edge_threshold)) as [Hle|Hlt];
      [exact Hle|].
    apply Hspec in Hlt. discriminate.
Qed.

(** What the edge filter of the code decides.  For a pixel that passes the
    extremum test and the contrast test, the candidate is dropped exactly
    when [sqrt (dx^2 + dy^2) <= edge_threshold], with
    [dx = img[i+1, j] - img[i-1, j]] and [dy = img[i, j+1] - img[i, j-1]]
    taken in the image's element type, and the threshold is the default 10.
    Only where the two differences are representable in that type are they
    the differences of the values. *)
Lemma edge_filter_rejects_weak_gradient
    dt img prev_img next_img threshold i j keypoints e center_val a b c d :
  is_local_extremum (slice2 img (i - 1) (i + 2) (j - 1) (j + 2))
                    (slice2 prev_img (i - 1) (i + 2) (j - 1) (j + 2))
                    (slice2 next_img (i - 1) (i + 2) (j - 1) (j + 2)) = Ok e ->
  truthy e = true ->
  getitem2 img i j = Ok center_val ->
  (dt_abs dt center_val <? threshold) = false ->
  getitem2 img (i + 1) j = Ok a ->
  getitem2 img (i - 1) j = Ok b ->
  getitem2 img i (j + 1) = Ok c ->
  getitem2 img i (j - 1) = Ok d ->
  let dx := dt_sub dt a b in
  let dy := dt_sub dt c d in
  default_edge_threshold = 10 /\
  (in_range dt (a - b) -> dx = a - b) /\
  (in_range dt (c - d) -> dy = c - d) /\
  ((sqrt (IZR (dx ^ 2 + dy ^ 2)) <= 10)%R ->
   is_edge_point dt img i j default_edge_threshold = Ok true /\
   scan_pixel dt img prev_img next_img threshold i j keypoints = Ok keypoints) /\
  (~ (sqrt (IZR (dx ^ 2 + dy ^ 2)) <= 10)%R ->
   is_edge_point dt img i j default_edge_threshold = Ok false /\
   scan_pixel dt img prev_img next_img threshold i j keypoints
   = Ok (keypoints ++ [(i, j)])).
Proof.
  intros He Ht Hcv Hcontrast Ha Hb Hc Hd dx dy.
  destruct (is_edge_point_rule dt img i j default_edge_threshold a b c d Ha Hb Hc Hd)
    as (r & Hr & Hrule).
  fold dx dy in Hrule. change (IZR default_edge_threshold) with 10%R in Hrule.
  assert (Hstep : scan_pixel dt img prev_img next_img threshold i j keypoints
                  = if r then Ok keypoints else Ok (keypoints ++ [(i, j)])).
  { unfold scan_pixel. rewrite He. cbn [mbind result_bind]. rewrite Ht, Hcv.
    cbn [mbind result_bind]. rewrite Hcontrast, Hr. reflexivity. }
  split; [reflexivity|].
  split; [apply dt_sub_exact|].
  split; [apply dt_sub_exact|].
  split; intros Hmag.
  - apply Hrule in Hmag. subst r. split; [exact Hr|exact Hstep].
  - destruct r; [exfalso; apply Hmag; now apply Hrule|].
    split; [exact Hr|exact Hstep].
Qed.

Lemma edge_filter_rejects_weak_gradient_example :
  let img := [[0; 0; 0]; [0; 50; 0]; [0; 30; 0]] in
  let flat := [[0; 0; 0]; [0; 0; 0]; [0; 0; 0]] in
  let dx := dt_sub uint8 30 0 in
  let dy := dt_sub uint8 0 0 in
  default_edge_threshold = 10 /\
  (in_range uint8 (30 - 0) -> dx = 30 - 0) /\
  (in_range uint8 (0 - 0) -> dy = 0 - 0) /\
  ((sqrt (IZR (dx ^ 2 + dy ^ 2)) <= 10)%R ->
   is_edge_point uint8 img 1 1 default_edge_threshold = Ok true /\
   scan_pixel uint8 img flat flat 5 1 1 [] = Ok []) /\
  (~ (sqrt (IZR (dx ^ 2 + dy ^ 2)) <= 10)%R ->
   is_edge_point uint8 img 1 1 default_edge_threshold = Ok false /\
   scan_pixel uint8 img flat flat 5 1 1 [] = Ok ([] ++ [(1, 1)])).
Proof.
  intros img flat.
  apply (edge_filter_rejects_weak_gradient uint8 img flat flat 5 1 1 []
           (Some true) 50 30 0 0 0); reflexivity.
Qed.

(** C8. On uint8 arrays the edge filter does not follow the rule of the
    claim.  The pixel (1, 1) of the image below passes the extremum and the
    contrast test; the values above and below it are 250 and 0, so the
    gradient of the claim is [dx = 0 - 250], of magnitude 250 > 10, and the
    rule keeps the candidate.  The code subtracts in uint8, gets
    [dx = 6], a magnitude of 6 <= 10, and drops it: the detector reports
    nothing. *)
Theorem edge_filter_wraps_uint8 :
  let img := [[0; 250; 0]; [0; 50; 0]; [0; 0; 0]] in
  let flat := [[0; 0; 0]; [0; 0; 0]; [0; 0; 0]] in
  is_local_extremum (slice2 img 0 3 0 3) (slice2 flat 0 3 0 3)
                    (slice2 flat 0 3 0 3) = Ok (Some true) /\
  (dt_abs uint8 50 <? 5) = false /\
  getitem2 img 2 1 = Ok 0 /\ getitem2 img 0 1 = Ok 250 /\
  getitem2 img 1 2 = Ok 0 /\ getitem2 img 1 0 = Ok 0 /\
  gradient_rule_rejects 0 250 0 0 10 = false /\
  (10 < sqrt (IZR ((0 - 250) ^ 2 + (0 - 0) ^ 2)))%R /\
  dt_sub uint8 0 250 = 6 /\
  is_edge_point uint8 img 1 1 default_edge_threshold = Ok true /\
  detect_keypoints_in_image uint8 img flat flat 5 = Ok [] /\
  detect_keypoints uint8 [[flat; img; flat]] 5 = Ok [].
Proof.
  cbv zeta. repeat split; try reflexivity.
  change 10%R with (IZR 10). apply sqrt_gt_spec; [lia|reflexivity].
Qed.

(** ** The Difference-of-Gaussian generator *)

Section Collect.
Context {A B : Type}.
Implicit Types (f : A -> result B) (l : list A).

Lemma for_each_ext {S : Type} l (body1 body2 : A -> S -> result S) s :
  (forall x t, body1 x t = body2 x t) ->
  for_each l body1 s = for_each l body2 s.
Proof.
  intros Hext. revert s; induction l as [|x l IH]; intros s; simpl;
    [reflexivity|].
  rewrite Hext. destruct (body2 x s); simpl; [apply IH|reflexivity].
Qed.

(** A loop that appends one computed element per iteration. *)
Lemma for_each_collect f l (acc : list B) :
  for_each l (fun x acc => y ← f x; Ok (acc ++ [y])) acc
  = (ys ← map_result f l; Ok (acc ++ ys)).
Proof.
  revert acc; induction l as [|x l IH]; intros acc; simpl.
  - now rewrite app_nil_r.
  - destruct (f x) as [y|e]; simpl; [|reflexivity].
    rewrite IH. destruct (map_result f l); simpl; [|reflexivity].
    now rewrite <- app_assoc.
Qed.

Lemma for_each_collect_nil f l :
  for_each l (fun x acc => y ← f x; Ok (acc ++ [y])) [] = map_result f l.
Proof.
  rewrite for_each_collect. destruct (map_result f l); reflexivity.
Qed.

Lemma map_result_Ok f l ys :
  map_result f l = Ok ys -> Forall2 (fun x y => f x = Ok y) l ys.
Proof.
  revert ys; induction l as [|x l IH]; intros ys H; simpl in H.
  - injection H as <-. constructor.
  - bind_inv H. bind_inv H. injection H as <-. constructor; auto.
Qed.

Lemma map_result_total f l :
  (forall x, In x l -> exists y, f x = Ok y) -> exists ys, map_result f l = Ok ys.
Proof.
  induction l as [|x l IH]; intros H; simpl; [eauto|].
  destruct (H x (or_introl eq_refl)) as [y ->].
  destruct IH as [ys ->]; [intros; apply H; now right|]. simpl. eauto.
Qed.

Lemma map_result_pure (g : A -> B) l :
  map_result (fun x => Ok (g x)) l = Ok (map g l).
Proof. induction l as [|x l IH]; simpl; [reflexivity|]. now rewrite IH. Qed.
End Collect.

Lemma broadcast_same_length {A B : Type} (f : A -> A -> result B) l1 l2 :
  length l1 = length l2 ->
  broadcast f l1 l2 = map_result (fun p => f (fst p) (snd p)) (zip l1 l2).
Proof. intros H. unfold broadcast. now rewrite decide_True. Qed.

Lemma map_zip {A B : Type} (g : A -> A -> B) (l k : list A) :
  map (fun p => g (fst p) (snd p)) (zip l k) = zip_with g l k.
Proof.
  revert k; induction l as [|x l IH]; intros [|y k]; simpl; try reflexivity.
  now rewrite IH.
Qed.

(** On arrays of one shape, array subtraction is element-wise subtraction in
    the element type. *)
Lemma ndarray_sub_same_shape dt b a :
  same_shape b a -> ndarray_sub dt b a = Ok (dtype_difference dt b a).
Proof.
  intros H. unfold ndarray_sub, dtype_difference.
  rewrite broadcast_same_length by (eapply Forall2_length; exact H).
  induction H as [|r1 r2 b a Hr H IH]; simpl; [reflexivity|].
  rewrite broadcast_same_length by exact Hr.
  rewrite (map_result_pure (fun p => dt_sub dt (fst p) (snd p))). simpl.
  rewrite IH. simpl. now rewrite map_zip.
Qed.

Lemma py_range_lookup (n i : nat) :
  (i < n)%nat -> py_range 0 (Z.of_nat n) !! i = Some (Z.of_nat i).
Proof.
  intros H. rewrite py_range_nat, list_lookup_fmap, lookup_seq_lt by exact H.
  reflexivity.
Qed.

Lemma DoG_octave_of_eq dt octave :
  DoG_octave_of dt octave
  = map_result (fun i => hi ← list_getitem octave (i + 1);
                         lo ← list_getitem octave i;
                         ndarray_sub dt hi lo)
      (py_range 0 (Z.of_nat (length octave) - 1)).
Proof.
  unfold DoG_octave_of. rewrite <- for_each_collect_nil.
  apply for_each_ext. intros i acc.
  destruct (list_getitem octave (i + 1)); simpl; [|reflexivity].
  destruct (list_getitem octave i); reflexivity.
Qed.

(** For an octave whose images share one shape, the generator returns one
    image less than the octave has, and image [i] is the element-wise
    difference of images [i + 1] and [i] in the element type. *)
Lemma DoG_octave_of_uniform dt octave :
  uniform_octave octave ->
  exists DoG_octave,
    DoG_octave_of dt octave = Ok DoG_octave /\
    length DoG_octave = (length octave - 1)%nat /\
    forall i a b, octave !! i = Some a -> octave !! S i = Some b ->
                  DoG_octave !! i = Some (dtype_difference dt b a).
Proof.
  intros Huni. rewrite DoG_octave_of_eq.
  destruct (decide (octave = [])) as [->|Hne].
  { exists []. repeat split. intros i a b Ha. discriminate Ha. }
  replace (Z.of_nat (length octave) - 1) with (Z.of_nat (length octave - 1))
    by (destruct octave; [congruence|simpl length; lia]).
  set (f := fun i => hi ← list_getitem octave (i + 1);
                     lo ← list_getitem octave i; ndarray_sub dt hi lo).
  assert (Hf : forall i a b, octave !! i = Some a -> octave !! S i = Some b ->
                 f (Z.of_nat i) = Ok (dtype_difference dt b a)).
  { intros i a b Ha Hb. unfold f.
    replace (Z.of_nat i + 1) with (Z.of_nat (S i)) by lia.
    rewrite (list_getitem_lookup _ _ _ Hb), (list_getitem_lookup _ _ _ Ha).
    cbn [mbind result_bind]. apply ndarray_sub_same_shape.
    apply Huni; apply list_elem_of_In; eapply list_elem_of_lookup_2; eassumption. }
  destruct (map_result_total f (py_range 0 (Z.of_nat (length octave - 1))))
    as [ds Hds].
  { intros x Hx. apply In_py_range in Hx.
    destruct (lookup_lt_is_Some_2 octave (Z.to_nat x)) as [a Ha]; [lia|].
    destruct (lookup_lt_is_Some_2 octave (S (Z.to_nat x))) as [b Hb]; [lia|].
    exists (dtype_difference dt b a). rewrite <- (Hf _ _ _ Ha Hb).
    f_equal. lia. }
  exists ds. split; [exact Hds|].
  apply map_result_Ok in Hds.
  pose proof (Forall2_length _ _ _ Hds) as Hlen.
  rewrite length_py_range in Hlen. split; [lia|].
  intros i a b Ha Hb.
  pose proof (lookup_lt_Some _ _ _ Hb) as Hi.
  destruct (Forall2_lookup_l _ _ _ i (Z.of_nat i) Hds) as (y & Hy & Hfy).
  { apply py_range_lookup. lia. }
  rewrite Hy. f_equal. rewrite (Hf _ _ _ Ha Hb) in Hfy. congruence.
Qed.

Lemma generate_DoG_pyramid_eq dt gaussian_pyramid :
  generate_DoG_pyramid dt gaussian_pyramid
  = map_result (DoG_octave_of dt) gaussian_pyramid.
Proof.
  unfold generate_DoG_pyramid. apply for_each_collect_nil.
Qed.

(** What the generator returns on a pyramid whose octaves are uniform: for
    every octave one image less, image [i] being [octave[i+1] - octave[i]]
    element-wise in the element type. *)
Lemma generate_DoG_pyramid_uniform dt gaussian_pyramid :
  Forall uniform_octave gaussian_pyramid ->
  exists DoG_pyramid,
    generate_DoG_pyramid dt gaussian_pyramid = Ok DoG_pyramid /\
    Forall2 (fun octave DoG_octave =>
               length DoG_octave = (length octave - 1)%nat /\
               forall i a b, octave !! i = Some a -> octave !! S i = Some b ->
                             DoG_octave !! i = Some (dtype_difference dt b a))
            gaussian_pyramid DoG_pyramid.
Proof.
  intros Huni. rewrite generate_DoG_pyramid_eq.
  induction Huni as [|octave gp Ho Hgp IH]; simpl; [eauto|].
  destruct (DoG_octave_of_uniform dt octave Ho) as (d & -> & Hd).
  destruct IH as (dp & -> & Hdp). simpl. eauto.
Qed.

(** The difference in the element type is the signed difference exactly
    where no element-wise difference leaves the range of the type. *)
Lemma dtype_difference_exact dt b a :
  Forall2 (Forall2 (fun x y => in_range dt (x - y))) b a ->
  dtype_difference dt b a = signed_difference b a.
Proof.
  unfold dtype_difference, signed_difference.
  induction 1 as [|r1 r2 b a Hr _ IH]; simpl; [reflexivity|].
  rewrite IH. f_equal.
  induction Hr as [|x y r1 r2 Hxy _ IHr]; simpl; [reflexivity|].
  now rewrite IHr, dt_sub_exact.
Qed.

(** C4. On [uint8] images, the type of a grayscale image read by cv2, the
    generator returns one image for an octave of two, but the negative
    difference 3 - 5 is stored as 254: it wraps around instead of being
    kept as -2. *)
Theorem generate_DoG_pyramid_wraps_uint8 :
  let scale0 := [[5; 7]; [1; 0]] in
  let scale1 := [[3; 9]; [1; 4]] in
  generate_DoG_pyramid uint8 [[scale0; scale1]] = Ok [[ [[254; 2]; [0; 4]] ]] /\
  signed_difference scale1 scale0 = [[-2; 2]; [0; 4]].
Proof. split; reflexivity. Qed.

(** ** The pyramid builder *)

Lemma py_range_to_nat n : py_range 0 n = py_range 0 (Z.of_nat (Z.to_nat n)).
Proof. unfold py_range. do 2 f_equal. lia. Qed.

Lemma doubled_succ sigma s : doubled (sigma * 2)%Q s = doubled sigma (S s).
Proof. unfold doubled. now rewrite Nat.iter_succ_r. Qed.

(** [s] doublings multiply by [2^s]. *)
Lemma doubled_spec sigma s : (doubled sigma s == sigma * 2 ^ Z.of_nat s)%Q.
Proof.
  induction s as [|s IH].
  - simpl. ring.
  - change (doubled sigma (S s)) with (doubled sigma s * 2)%Q.
    rewrite IH, Nat2Z.inj_succ, <- Z.add_1_r, Qpower_plus by discriminate.
    change (2 ^ 1)%Q with 2%Q. ring.
Qed.

Lemma doubled_pos sigma s : (0 < sigma)%Q -> (0 < doubled sigma s)%Q.
Proof.
  intros H. induction s as [|s IH]; [exact H|].
  change (doubled sigma (S s)) with (doubled sigma s * 2)%Q.
  apply Qmult_lt_0_compat; [exact IH|reflexivity].
Qed.

(** Doubling a positive sigma makes it larger. *)
Lemma doubled_le sigma s n :
  (0 < sigma)%Q -> (s <= n)%nat -> (doubled sigma s <= doubled sigma n)%Q.
Proof.
  intros Hsigma Hle. induction Hle as [|n Hle IH]; [apply Qle_refl|].
  eapply Qle_trans; [exact IH|].
  change (doubled sigma (S n)) with (doubled sigma n * 2)%Q.
  pose proof (doubled_pos sigma n Hsigma) as Hpos.
  unfold Qle, Qlt in *. cbn [Qnum Qden Qmult] in *.
  rewrite Pos2Z.inj_mul. nia.
Qed.

Lemma map_result_app {A B : Type} (f : A -> result B) (l1 l2 : list A) :
  map_result f (l1 ++ l2)
  = (a ← map_result f l1; b ← map_result f l2; Ok (a ++ b)).
Proof.
  induction l1 as [|x l1 IH]; simpl.
  - now destruct (map_result f l2).
  - destruct (f x); simpl; [|reflexivity]. rewrite IH.
    destruct (map_result f l1); simpl; [|reflexivity].
    now destruct (map_result f l2).
Qed.

Lemma map_result_map {A B C : Type} (f : B -> result C) (g : A -> B) (l : list A) :
  map_result f (map g l) = map_result (fun x => f (g x)) l.
Proof.
  induction l as [|x l IH]; simpl; [reflexivity|]. now rewrite IH.
Qed.

Lemma map_result_ext {A B : Type} (f g : A -> result B) (l : list A) :
  (forall x, In x l -> f x = g x) -> map_result f l = map_result g l.
Proof.
  induction l as [|x l IH]; intros H; simpl; [reflexivity|].
  rewrite (H x) by now left. rewrite IH; [reflexivity|].
  intros y Hy. apply H. now right.
Qed.

Lemma map_result_Ok_length {A B : Type} (f : A -> result B) l ys :
  map_result f l = Ok ys -> length ys = length l.
Proof.
  intros H. apply map_result_Ok in H. symmetry. eapply Forall2_length, H.
Qed.

Section BuilderProperties.
Context {Img : Type}.
Variable img_shape : Img -> nat * nat.
Variable GaussianBlur : Img -> Q -> result Img.
Variable resize : Img -> Z * Z -> interpolation -> result Img.

Local Abbreviation body := (octave_body img_shape GaussianBlur resize).
Local Abbreviation after := (builder_after img_shape GaussianBlur resize).
Local Abbreviation scales := (blurred_scales GaussianBlur).

Lemma blurred_scales_succ seed s n :
  scales seed s (S n)
  = (b ← GaussianBlur seed s; bs ← scales seed (s * 2)%Q n; Ok (b :: bs)).
Proof.
  unfold blurred_scales. rewrite <- cons_seq, <- seq_shift. cbn [map_result].
  change (doubled s 0) with s. rewrite map_result_map.
  rewrite (map_result_ext _ (fun k => GaussianBlur seed (doubled (s * 2) k)));
    [reflexivity|].
  intros k _. now rewrite doubled_succ.
Qed.

(** The images of an octave that was blurred to the end: one per scale,
    image [k] the blur of the seed with the sigma doubled [k] times. *)
Lemma blurred_scales_Ok seed s n octave :
  scales seed s n = Ok octave ->
  length octave = n /\
  forall k img, octave !! k = Some img ->
                GaussianBlur seed (doubled s k) = Ok img.
Proof.
  intros H. split.
  - apply map_result_Ok_length in H. now rewrite length_seq in H.
  - apply map_result_Ok in H. intros k img Hk.
    destruct (Forall2_lookup_r _ _ _ _ _ H Hk) as (k' & Hk' & Hblur).
    apply lookup_seq in Hk' as [-> _]. exact Hblur.
Qed.

(** The scale loop appends one blur of the seed per scale, doubling sigma,
    and stops at the first blur that raises. *)
Lemma scale_loop_spec (l : list Z) seed octave sigma :
  for_each l (scale_body GaussianBlur seed) (octave, sigma)
  = (imgs ← scales seed sigma (length l);
     Ok (octave ++ imgs, doubled sigma (length l))).
Proof.
  revert octave sigma; induction l as [|x l IH]; intros octave sigma.
  - cbn. now rewrite app_nil_r.
  - cbn [for_each length]. rewrite blurred_scales_succ.
    change (scale_body GaussianBlur seed x (octave, sigma))
      with (b ← GaussianBlur seed sigma; Ok (octave ++ [b], (sigma * 2)%Q)).
    destruct (GaussianBlur seed sigma) as [b|e]; cbn [mbind result_bind];
      [|reflexivity].
    rewrite IH.
    destruct (scales seed (sigma * 2)%Q (length l)) as [bs|e];
      cbn [mbind result_bind]; [|reflexivity].
    now rewrite <- app_assoc, doubled_succ.
Qed.

Lemma octave_body_spec num_scales f k st :
  body num_scales f k st
  = (octave ← scales (current_image st) (sigma st) (Z.to_nat num_scales);
     new_width ← int_div (Z.of_nat (snd (img_shape (current_image st)))) f;
     new_height ← int_div (Z.of_nat (fst (img_shape (current_image st)))) f;
     resized ← resize (current_image st) (new_width, new_height) INTER_NEAREST;
     Ok {| current_image := resized;
           sigma := sigma_literal;
           pyramid := pyramid st ++ [octave] |}).
Proof.
  unfold octave_body. rewrite scale_loop_spec, length_py_range, Z.sub_0_r.
  destruct (scales _ _ _); reflexivity.
Qed.

(** What an octave iteration that completed has done. *)
Lemma octave_body_Ok num_scales f k st st' :
  body num_scales f k st = Ok st' ->
  f <> 0 /\
  exists octave,
    scales (current_image st) (sigma st) (Z.to_nat num_scales) = Ok octave /\
    resize (current_image st)
      (Z.quot (Z.of_nat (snd (img_shape (current_image st)))) f,
       Z.quot (Z.of_nat (fst (img_shape (current_image st)))) f)
      INTER_NEAREST
    = Ok (current_image st') /\
    sigma st' = sigma_literal /\
    pyramid st' = pyramid st ++ [octave].
Proof.
  rewrite octave_body_spec. intros H.
  apply bind_Ok_inv in H as (octave & Hoct & H). unfold int_div in H.
  destruct (f =? 0) eqn:Ef; [discriminate|]. apply Z.eqb_neq in Ef.
  cbn [mbind result_bind] in H.
  apply bind_Ok_inv in H as (resized & Hres & H). injection H as <-.
  split; [exact Ef|]. exists octave. cbn [current_image sigma pyramid]. auto.
Qed.


Lemma builder_after_succ image num_scales sigma f k :
  after image num_scales sigma f (S k)
  = (after image num_scales sigma f k
       ≫= body num_scales f (Z.of_nat k)).
Proof.
  unfold builder_after. rewrite py_range_succ, for_each_app.
  destruct (for_each (py_range 0 (Z.of_nat k)) _ _) as [st|e]; [|reflexivity].
  cbn [mbind result_bind for_each].
  now destruct (octave_body _ _ _ _ _ _ _).
Qed.

Lemma build_eq image num_octaves num_scales sigma f :
  build_scale_space_pyramid img_shape GaussianBlur resize image num_octaves num_scales sigma f
  = (st ← after image num_scales sigma f (Z.to_nat num_octaves);
     Ok (pyramid st)).
Proof.
  unfold build_scale_space_pyramid, builder_after.
  now rewrite <- py_range_to_nat.
Qed.

(** After [k] octaves the pyramid has [k] octaves, and the sigma is the
    caller's before the first octave and the literal afterwards. *)
Lemma builder_after_state image num_scales sigma0 f k st :
  after image num_scales sigma0 f k = Ok st ->
  length (pyramid st) = k /\ sigma st = octave_sigma sigma0 k.
Proof.
  revert st; induction k as [|k IH]; intros st H.
  - injection H as <-. split; reflexivity.
  - rewrite builder_after_succ in H. bind_inv H.
    destruct (IH _ Ha) as [Hlen _].
    apply octave_body_Ok in H as (_ & octave & _ & _ & Hsig & Hpyr).
    rewrite Hpyr, length_app, Hlen. simpl. split; [lia|exact Hsig].
Qed.

(** A run that completed [k] octaves completed every smaller number. *)
Lemma builder_after_prefix image num_scales sigma0 f k st o :
  after image num_scales sigma0 f k = Ok st ->
  (o <= k)%nat ->
  exists st_o, after image num_scales sigma0 f o = Ok st_o.
Proof.
  revert st; induction k as [|k IH]; intros st H Ho.
  - replace o with O by lia. eauto.
  - destruct (decide (o = S k)) as [->|Hne]; [eauto|].
    rewrite builder_after_succ in H. bind_inv H.
    eapply IH; [exact Ha|lia].
Qed.

Lemma builder_after_nonzero image num_scales sigma0 f k st :
  after image num_scales sigma0 f (S k) = Ok st -> f <> 0.
Proof.
  rewrite builder_after_succ. intros H. bind_inv H.
  now apply octave_body_Ok in H as [Hf _].
Qed.

(** Octave [o] of the pyramid holds the blurs of the image the loop
    carried into iteration [o], with the sigmas doubling from the sigma of
    that octave. *)
Lemma builder_after_octave image num_scales sigma0 f k st o st_o :
  after image num_scales sigma0 f k = Ok st ->
  (o < k)%nat ->
  after image num_scales sigma0 f o = Ok st_o ->
  exists octave,
    pyramid st !! o = Some octave /\
    scales (current_image st_o) (octave_sigma sigma0 o) (Z.to_nat num_scales)
    = Ok octave.
Proof.
  revert st; induction k as [|k IH]; intros st H Ho Hst_o; [lia|].
  rewrite builder_after_succ in H. bind_inv H.
  destruct (builder_after_state _ _ _ _ _ _ Ha) as [Hlen Hsig].
  apply octave_body_Ok in H as (_ & octave & Hoct & _ & _ & Hpyr).
  rewrite Hpyr. destruct (decide (o = k)) as [->|Hne].
  - exists octave. rewrite lookup_app_r by lia. rewrite Hlen, Nat.sub_diag.
    rewrite Ha in Hst_o. injection Hst_o as <-. rewrite <- Hsig. auto.
  - destruct (IH _ Ha ltac:(lia) Hst_o) as (octave_o & Hlook & Hscales).
    exists octave_o. rewrite lookup_app_l by lia. auto.
Qed.

(** The pyramid only grows: the octaves present after [o] octaves are the
    first [o] octaves after any later octave. *)
Lemma builder_after_pyramid_prefix image num_scales sigma0 f k st o st_o :
  after image num_scales sigma0 f k = Ok st ->
  (o <= k)%nat ->
  after image num_scales sigma0 f o = Ok st_o ->
  pyramid st_o = take o (pyramid st).
Proof.
  revert st; induction k as [|k IH]; intros st H Ho Hst_o.
  - assert (o = O) as -> by lia. rewrite H in Hst_o.
    injection Hst_o as <-. injection H as <-. reflexivity.
  - destruct (decide (o = S k)) as [->|Hne].
    + rewrite H in Hst_o. injection Hst_o as <-.
      destruct (builder_after_state _ _ _ _ _ _ H) as [Hlen _].
      now rewrite take_ge by lia.
    + rewrite builder_after_succ in H. bind_inv H.
      destruct (builder_after_state _ _ _ _ _ _ Ha) as [Hlen _].
      apply octave_body_Ok in H as (_ & octave & _ & _ & _ & Hpyr).
      rewrite Hpyr, take_app_le by lia. eapply IH; [exact Ha|lia|exact Hst_o].
Qed.
End BuilderProperties.


Section BuilderClaims.
Context {Img : Type}.
Variable img_shape : Img -> nat * nat.
Variable GaussianBlur : Img -> Q -> result Img.
Variable resize : Img -> Z * Z -> interpolation -> result Img.

Local Abbreviation after := (builder_after img_shape GaussianBlur resize).
Local Abbreviation scales := (blurred_scales GaussianBlur).

(** Every octave of the returned pyramid is the blurs of one seed image,
    with sigmas doubling from the caller's sigma in the first octave and
    from the literal 1.6 in every later one. *)
Lemma build_octave_images image num_octaves num_scales sigma0 f pyr o octave :
  build_scale_space_pyramid img_shape GaussianBlur resize image num_octaves num_scales sigma0 f = Ok pyr ->
  pyr !! o = Some octave ->
  exists seed,
    scales seed (octave_sigma sigma0 o) (Z.to_nat num_scales) = Ok octave.
Proof.
  rewrite build_eq. intros H Ho. bind_inv H. injection H as <-.
  destruct (builder_after_state _ _ _ _ _ _ _ _ _ Ha) as [Hlen _].
  pose proof (lookup_lt_Some _ _ _ Ho) as Hlt. rewrite Hlen in Hlt.
  destruct (builder_after_prefix _ _ _ _ _ _ _ _ _ o Ha) as [st_o Hst_o]; [lia|].
  destruct (builder_after_octave _ _ _ _ _ _ _ _ _ _ _ Ha Hlt Hst_o)
    as (octave' & Hlook & Hscales).
  rewrite Hlook in Ho. injection Ho as <-. eauto.
Qed.

(** A pyramid the builder returns has exactly [num_octaves] octaves, each of
    exactly [num_scales] images, all of one shape when the blur keeps the
    shape of its input. *)
Lemma build_counts_when_returned image num_octaves num_scales sigma0 f pyr :
  (forall img s b, GaussianBlur img s = Ok b -> img_shape b = img_shape img) ->
  0 <= num_octaves -> 0 <= num_scales ->
  build_scale_space_pyramid img_shape GaussianBlur resize image num_octaves num_scales sigma0 f = Ok pyr ->
  Z.of_nat (length pyr) = num_octaves /\
  Forall (fun octave =>
            Z.of_nat (length octave) = num_scales /\
            forall a b, In a octave -> In b octave -> img_shape a = img_shape b)
         pyr.
Proof.
  intros Hblur Ho Hs Hbuild. split.
  - rewrite build_eq in Hbuild. bind_inv Hbuild. injection Hbuild as <-.
    destruct (builder_after_state _ _ _ _ _ _ _ _ _ Ha) as [Hlen _]. lia.
  - apply Forall_forall. intros octave Hin.
    apply list_elem_of_lookup in Hin as [o Hlook].
    destruct (build_octave_images _ _ _ _ _ _ _ _ Hbuild Hlook) as [seed Hseed].
    apply blurred_scales_Ok in Hseed as [Hlen Himgs]. split; [lia|].
    assert (Hshape : forall a, In a octave -> img_shape a = img_shape seed).
    { intros a Ha. apply list_elem_of_In, list_elem_of_lookup in Ha as [k Hk].
      eapply Hblur, Himgs, Hk. }
    intros a b Ha Hb. now rewrite (Hshape a Ha), (Hshape b Hb).
Qed.

(** C7. For a downsampling factor of at least 1 and a resize whose result
    has the requested size: whenever the builder gets from octave [k] to
    octave [k + 1], the image carried into octave [k + 1] is the
    nearest-neighbour resize of the image carried into octave [k], the
    images of octave [k] are blurs of that same, un-blurred image, and the
    new width and height are the floors of the old ones divided by the
    factor. *)
Theorem next_seed_is_resized_seed image num_scales sigma0 f k st st' :
  (forall img w h interp r,
     resize img (w, h) interp = Ok r -> img_shape r = (Z.to_nat h, Z.to_nat w)) ->
  1 <= f ->
  builder_after img_shape GaussianBlur resize image num_scales sigma0 f k = Ok st ->
  builder_after img_shape GaussianBlur resize image num_scales sigma0 f (S k) = Ok st' ->
  let width := Z.of_nat (snd (img_shape (current_image st))) in
  let height := Z.of_nat (fst (img_shape (current_image st))) in
  (exists octave,
      blurred_scales GaussianBlur (current_image st) (octave_sigma sigma0 k)
        (Z.to_nat num_scales) = Ok octave /\
      pyramid st' = pyramid st ++ [octave]) /\
  resize (current_image st) (width / f, height / f) INTER_NEAREST
  = Ok (current_image st') /\
  Z.of_nat (snd (img_shape (current_image st'))) = width / f /\
  Z.of_nat (fst (img_shape (current_image st'))) = height / f.
Proof.
  intros Hresize Hf Hst Hst' width height.
  rewrite builder_after_succ, Hst in Hst'. cbn [mbind result_bind] in Hst'.
  apply octave_body_Ok in Hst' as (_ & octave & Hoct & Hres & _ & Hpyr).
  destruct (builder_after_state _ _ _ _ _ _ _ _ _ Hst) as [_ Hsig].
  rewrite Hsig in Hoct. rewrite !Z.quot_div_nonneg in Hres by lia.
  fold width height in Hres.
  split; [eauto|]. split; [exact Hres|].
  rewrite (Hresize _ _ _ _ _ Hres). cbn [fst snd].
  split; apply Z2Nat.id; apply Z.div_pos; lia.
Qed.



End BuilderClaims.

Lemma next_seed_is_resized_seed_witness :
  let seed1 := Resize (Source 9 7) (3, 4) INTER_NEAREST in
  let seed2 := Resize seed1 (1, 2) INTER_NEAREST in
  let st := {| current_image := seed1; sigma := sigma_literal;
               pyramid := [[Blur (Source 9 7) 1; Blur (Source 9 7) 2]] |} in
  let st' := {| current_image := seed2; sigma := sigma_literal;
                pyramid := [[Blur (Source 9 7) 1; Blur (Source 9 7) 2];
                            [Blur seed1 1.6; Blur seed1 3.2]] |} in
  let width := Z.of_nat (snd (sym_shape (current_image st))) in
  let height := Z.of_nat (fst (sym_shape (current_image st))) in
  (exists octave,
      blurred_scales sym_GaussianBlur (current_image st) (octave_sigma 1 1)
        (Z.to_nat 2) = Ok octave /\
      pyramid st' = pyramid st ++ [octave]) /\
  sym_resize (current_image st) (width / 2, height / 2) INTER_NEAREST
  = Ok (current_image st') /\
  Z.of_nat (snd (sym_shape (current_image st'))) = width / 2 /\
  Z.of_nat (fst (sym_shape (current_image st'))) = height / 2.
Proof.
  intros seed1 seed2 st st'.
  apply (next_seed_is_resized_seed sym_shape sym_GaussianBlur sym_resize
           (Source 9 7) 2 1 2 1 st st').
  - intros img w h interp r. unfold sym_resize, checked_resize.
    destruct (_ || _); [discriminate|]. intros H. injection H as <-. reflexivity.
  - lia.
  - reflexivity.
  - reflexivity.
Defined.



(** C2. Called with sigma 1, the builder blurs the scales of the first
    octave with 1 and 2, but those of the second octave with 1.6 and 3.2:
    the reset after an octave assigns the literal 1.6, not the caller's
    sigma, where the schedule [initialSigma * 2^s] asks for 1 and 2. *)
Theorem build_resets_sigma_to_literal :
  build_sym (Source 8 8) 2 2 1 2
  = Ok [[Blur (Source 8 8) 1; Blur (Source 8 8) 2];
        [Blur (Resize (Source 8 8) (4, 4) INTER_NEAREST) 1.6;
         Blur (Resize (Source 8 8) (4, 4) INTER_NEAREST) 3.2]] /\
  spec_sigma 1 1 0 = 1%Q /\ spec_sigma 1 1 1 = 2%Q /\
  ~ (1.6 == spec_sigma 1 1 0)%Q /\ ~ (3.2 == spec_sigma 1 1 1)%Q.
Proof. repeat split; discriminate. Qed.

(** C6. On a valid input the builder fails after its last octave.  For a
    9x7 image, three octaves of one scale, sigma 1 and factor 2, the
    octaves have the sizes 9x7, 4x3 and 2x1 and all three are blurred; the
    resize that follows the third octave, whose result no octave would
    use, asks for the size (0, 1), [cv2.resize] raises, and no pyramid is
    returned.  For two octaves the same input gives the pyramid. *)
Theorem build_raises_after_last_octave :
  let seed1 := Resize (Source 9 7) (3, 4) INTER_NEAREST in
  let seed2 := Resize seed1 (1, 2) INTER_NEAREST in
  ~ invalid_configuration 3 1 1 2 /\
  builder_after sym_shape sym_GaussianBlur sym_resize (Source 9 7) 1 1 2 2
  = Ok {| current_image := seed2; sigma := sigma_literal;
          pyramid := [[Blur (Source 9 7) 1]; [Blur seed1 1.6]] |} /\
  sym_shape seed2 = (2%nat, 1%nat) /\
  blurred_scales sym_GaussianBlur seed2 sigma_literal 1 = Ok [Blur seed2 1.6] /\
  sym_resize seed2 (0, 1) INTER_NEAREST = Raise cv2_error /\
  build_sym (Source 9 7) 3 1 1 2 = Raise cv2_error /\
  build_sym (Source 9 7) 2 1 1 2
  = Ok [[Blur (Source 9 7) 1]; [Blur seed1 1.6]].
Proof.
  cbv zeta. split; [|repeat split].
  intros [H|[H|[H|H]]]; try lia. unfold Qle in H. simpl in H. lia.
Qed.
(** ** The builder on the store *)

Lemma produced_app root tr tr' l :
  Store.produced root tr l -> Store.produced root (tr ++ tr') l.
Proof.
  intros [->|(e & He & Hdst)]; [now left|].
  right. exists e. split; [apply in_or_app; now left|exact Hdst].
Qed.

Lemma reads_descendants_nil root : Store.reads_descendants root [].
Proof. intros i e H. discriminate H. Qed.

Lemma reads_descendants_snoc root tr e :
  Store.reads_descendants root tr ->
  Store.produced root tr (Store.event_src e) ->
  Store.reads_descendants root (tr ++ [e]).
Proof.
  intros Htr He i e' Hi.
  destruct (decide (i < length tr)%nat) as [Hlt|Hge].
  - rewrite lookup_app_l in Hi by exact Hlt.
    rewrite take_app_le by lia. now apply Htr.
  - rewrite lookup_app_r in Hi by lia.
    destruct (i - length tr)%nat as [|k] eqn:Ek; [|destruct k; discriminate Hi].
    injection Hi as <-. replace i with (length tr) by lia.
    now rewrite take_app_length.
Qed.

Section StoreProperties.
Import Store.
Context {Img : Type}.
Variable img_shape : Img -> nat * nat.
Variable GaussianBlur : Img -> Q -> result Img.
Variable resize : Img -> Z * Z -> interpolation -> result Img.
Variable objs0 : list Img.
Variable tr0 : list event.
Variable root : loc.

Local Abbreviation inv := (call_inv objs0 tr0 root).
Local Abbreviation broken := (fun h : store Img => exists cur, inv cur h).

Lemma for_each_st_invariant {A S : Type} (J : S -> store Img -> Prop)
    (E : store Img -> Prop) (l : list A) (body : A -> S -> M S) :
  (forall x s, triple (J s) (body x s) (post J E)) ->
  forall s, triple (J s) (for_each_st l body s) (post J E).
Proof.
  intros Hbody. induction l as [|x l IH]; intros s h HJ; [exact HJ|].
  cbn [for_each_st]. unfold bind. specialize (Hbody x s h HJ).
  destruct (body x s h) as [[s'|e] h']; cbn [fst snd post] in *;
    [now apply IH|exact Hbody].
Qed.

(** A primitive call on an array of the call extends the store and the
    trace, and its result is an array of the call too. *)
Lemma primitive_spec compute call src cur :
  (forall dst, event_src (call dst) = src) ->
  (forall dst, event_dst (call dst) = dst) ->
  triple (fun h => inv src h /\ inv cur h) (primitive compute call src)
    (post (fun dst h => inv cur h /\ inv dst h) broken).
Proof.
  intros Hsrc Hdst h [Hs Hc].
  unfold primitive, bind, read, lift, alloc, log, ret.
  destruct Hs as ((new & Hobj) & (rest & Htr & Hfrom & Hdesc & Hprod) & Hb).
  destruct (objects h !! src) as [v|] eqn:Hlook; cbn [fst snd post objects trace];
    [|exists cur; exact Hc].
  destruct (compute v) as [w|e]; cbn [fst snd post objects trace];
    [|exists cur; exact Hc].
  assert (Hframe : forall l, inv l h -> inv l
            {| objects := objects h ++ [w];
               trace := trace h ++ [call (length (objects h))] |}).
  { intros l (_ & (rest' & Htr' & Hfrom' & Hdesc' & Hprod') & Hb').
    rewrite Htr in Htr'. apply app_inv_head in Htr' as <-.
    split; [|split]; cbn [objects trace].
    - exists (new ++ [w]). now rewrite Hobj, app_assoc.
    - exists (rest ++ [call (length (objects h))]).
      split; [now rewrite Htr, app_assoc|].
      split; [apply Forall_app; split; [exact Hfrom|]|].
      { constructor; [|constructor]. rewrite Hsrc. lia. }
      split; [apply reads_descendants_snoc; [exact Hdesc|now rewrite Hsrc]|].
      now apply produced_app.
    - rewrite length_app. simpl. lia. }
  split; [now apply Hframe|].
  split; [|split]; cbn [objects trace].
  - exists (new ++ [w]). now rewrite Hobj, app_assoc.
  - exists (rest ++ [call (length (objects h))]).
    split; [now rewrite Htr, app_assoc|].
    split; [apply Forall_app; split; [exact Hfrom|]|].
    { constructor; [|constructor]. rewrite Hsrc. lia. }
    split; [apply reads_descendants_snoc; [exact Hdesc|now rewrite Hsrc]|].
    right. exists (call (length (objects h))).
    split; [apply in_or_app; right; now left|apply Hdst].
  - rewrite length_app. simpl. lia.
Qed.

Lemma get_shape_spec src (P : store Img -> Prop) :
  triple P (get_shape img_shape src) (post (fun _ h => P h) P).
Proof.
  intros h HP. unfold get_shape, bind, read, ret.
  destruct (objects h !! src); exact HP.
Qed.

(** One scale: the blur reads the image the octave started from. *)
Lemma scale_body_spec cur k st :
  triple (fun h => Forall (fun l => (root <= l)%nat) (fst st) /\ inv cur h)
    (scale_body GaussianBlur cur k st)
    (post (fun st' h => Forall (fun l => (root <= l)%nat) (fst st') /\ inv cur h)
          broken).
Proof.
  destruct st as [octave s]. intros h [Hoct Hinv].
  unfold scale_body, cv_GaussianBlur, bind.
  pose proof (primitive_spec (fun v => GaussianBlur v s) (Blurred cur s) cur cur
                (fun _ => eq_refl) (fun _ => eq_refl) h (conj Hinv Hinv)) as H.
  destruct (primitive _ _ cur h) as [[dst|e] h']; cbn [fst snd post ret] in *;
    [|exact H].
  destruct H as [Hcur Hdst]. split; [|exact Hcur].
  apply Forall_app. split; [exact Hoct|].
  constructor; [|constructor]. destruct Hdst as (_ & _ & Hb). lia.
Qed.

(** One octave: every call reads the image carried into the octave, and
    the image carried out of it is the array the resize allocated. *)
Lemma octave_body_spec_st num_scales f k st :
  triple (fun h => Forall (Forall (fun l => (root <= l)%nat)) (pyramid st) /\
                   inv (current_image st) h)
    (octave_body img_shape GaussianBlur resize num_scales f k st)
    (post (fun st' h => Forall (Forall (fun l => (root <= l)%nat)) (pyramid st') /\
                        inv (current_image st') h)
          broken).
Proof.
  intros h [Hpyr Hinv]. unfold octave_body, bind, lift.
  set (cur := current_image st) in *.
  pose proof (for_each_st_invariant
                (fun st' h => Forall (fun l => (root <= l)%nat) (fst st') /\ inv cur h)
                broken (py_range 0 num_scales) (scale_body GaussianBlur cur)
                (scale_body_spec cur) ([], sigma st) h (conj (Forall_nil_2 _) Hinv))
    as H1.
  destruct (for_each_st _ _ _ h) as [[r|e] h1]; cbn [fst snd post] in H1 |- *;
    [|exact H1].
  destruct H1 as [Hoct H1].
  pose proof (get_shape_spec cur (inv cur) h1 H1) as H2.
  destruct (get_shape img_shape cur h1) as [[shp|e] h2]; cbn [fst snd post] in H2 |- *;
    [|exists cur; exact H2].
  destruct (int_div (Z.of_nat (snd shp)) f) as [new_width|e]; cbn [fst snd post];
    [|exists cur; exact H2].
  pose proof (get_shape_spec cur (inv cur) h2 H2) as H3.
  destruct (get_shape img_shape cur h2) as [[shp'|e] h3]; cbn [fst snd post] in H3 |- *;
    [|exists cur; exact H3].
  destruct (int_div (Z.of_nat (fst shp')) f) as [new_height|e]; cbn [fst snd post];
    [|exists cur; exact H3].
  unfold cv_resize.
  pose proof (primitive_spec (fun v => resize v (new_width, new_height) INTER_NEAREST)
                (Resized cur (new_width, new_height) INTER_NEAREST) cur cur
                (fun _ => eq_refl) (fun _ => eq_refl) h3 (conj H3 H3)) as H4.
  destruct (primitive _ _ cur h3) as [[dst|e] h4]; cbn [fst snd post ret] in *;
    [|exact H4].
  cbn [pyramid current_image]. split; [|apply H4].
  apply Forall_app. split; [exact Hpyr|]. constructor; [exact Hoct|constructor].
Qed.
End StoreProperties.

Section StoreClaim.
Import Store.
Context {Img : Type}.
Variable img_shape : Img -> nat * nat.
Variable GaussianBlur : Img -> Q -> result Img.
Variable resize : Img -> Z * Z -> interpolation -> result Img.

(** The copy on entry allocates one array with the contents of the input. *)
Lemma np_copy_run (h : store Img) src v :
  objects h !! src = Some v ->
  np_copy src h
  = (Ok (length (objects h)),
     {| objects := objects h ++ [v];
        trace := trace h ++ [Copied src (length (objects h))] |}).
Proof.
  intros Hv. unfold np_copy, primitive, bind, read, lift, alloc, log, ret.
  now rewrite Hv.
Qed.

(** C10. Whatever the configuration, and whether the builder returns or
    raises: the input array holds what it held, as does every array that
    existed before the call; the first thing the call does is copy the
    input; every blur and resize reads that copy or an array a previous
    blur or resize of the call allocated, never the input; and no image of
    the returned pyramid is the input array. *)
Theorem build_leaves_input_unchanged
    (h0 : store Img) image v num_octaves num_scales sigma0 f :
  objects h0 !! image = Some v ->
  let copy := length (objects h0) in
  let run := Store.build_scale_space_pyramid img_shape GaussianBlur resize
               image num_octaves num_scales sigma0 f h0 in
  objects (snd run) !! image = Some v /\
  (forall l w, objects h0 !! l = Some w -> objects (snd run) !! l = Some w) /\
  objects (snd run) !! copy = Some v /\
  (exists rest,
      trace (snd run) = trace h0 ++ Copied image copy :: rest /\
      Forall (fun e => event_src e <> image) rest /\
      reads_descendants copy rest) /\
  (forall refs, fst run = Ok refs -> Forall (Forall (fun l => l <> image)) refs).
Proof.
  intros Hv copy run.
  pose proof (lookup_lt_Some _ _ _ Hv) as Himage. fold copy in Himage.
  set (objs1 := objects h0 ++ [v]).
  set (tr1 := trace h0 ++ [Copied image copy]).
  assert (Hrun :
            post (fun refs h => Forall (Forall (fun l => (copy <= l)%nat)) refs /\
                                exists cur, call_inv objs1 tr1 copy cur h)
                 (fun h => exists cur, call_inv objs1 tr1 copy cur h)
                 (fst run) (snd run)).
  { subst run. unfold Store.build_scale_space_pyramid, bind.
    rewrite (np_copy_run _ _ _ Hv). cbn beta iota.
    pose (h1 := {| objects := objs1; trace := tr1 |}).
    pose (st1 := {| current_image := copy; sigma := sigma0; pyramid := [] |}).
    assert (H1 : call_inv objs1 tr1 copy (current_image st1) h1).
    { split; [|split]; cbn [objects trace current_image st1 h1].
      - exists []. now rewrite app_nil_r.
      - exists []. rewrite app_nil_r. split; [reflexivity|].
        split; [constructor|]. split; [apply reads_descendants_nil|now left].
      - unfold objs1. rewrite length_app. simpl. fold copy. lia. }
    pose proof (for_each_st_invariant _ _ (py_range 0 num_octaves) _
                  (octave_body_spec_st img_shape GaussianBlur resize objs1 tr1 copy
                     num_scales f)
                  st1 h1 (conj (Forall_nil_2 _) H1)) as H.
    unfold st1, h1, objs1, tr1, copy in *.
    destruct (for_each_st _ _ _ _) as [[st|e] h']; cbn [fst snd post ret] in *;
      [|exact H].
    destruct H as [Hpyr Hinv]. split; [exact Hpyr|eauto]. }
  assert (Hinv : exists cur, call_inv objs1 tr1 copy cur (snd run))
    by (destruct (fst run); cbn [post] in Hrun; [apply Hrun|exact Hrun]).
  destruct Hinv as (cur & (new & Hobj) & (rest & Htr & Hfrom & Hdesc & _) & _).
  assert (Hkeep : forall l w, objects h0 !! l = Some w ->
                              objects (snd run) !! l = Some w).
  { intros l w Hl. rewrite Hobj. unfold objs1.
    apply lookup_app_l_Some. now apply lookup_app_l_Some. }
  split; [now apply Hkeep|]. split; [exact Hkeep|]. split; [|split].
  - rewrite Hobj. apply lookup_app_l_Some. unfold objs1.
    rewrite lookup_app_r by (fold copy; lia). fold copy.
    now rewrite Nat.sub_diag.
  - exists rest. split; [rewrite Htr; unfold tr1; now rewrite <- app_assoc|].
    split; [|exact Hdesc].
    eapply Forall_impl; [exact Hfrom|]. cbn beta. intros e He. lia.
  - intros refs Hrefs. rewrite Hrefs in Hrun. cbn [post] in Hrun.
    destruct Hrun as [Hfresh _].
    eapply Forall_impl; [exact Hfresh|]. cbn beta. intros octave Hoct.
    eapply Forall_impl; [exact Hoct|]. cbn beta. intros l Hl. lia.
Qed.
End StoreClaim.

Lemma build_leaves_input_unchanged_witness :
  let h0 := {| Store.objects := [Source 1 1; Source 9 9]; Store.trace := [] |} in
  let copy := length (Store.objects h0) in
  let run := Store.build_scale_space_pyramid sym_shape sym_GaussianBlur sym_resize
               1%nat 2 2 1 2 h0 in
  Store.objects (snd run) !! 1%nat = Some (Source 9 9) /\
  (forall l w, Store.objects h0 !! l = Some w -> Store.objects (snd run) !! l = Some w) /\
  Store.objects (snd run) !! copy = Some (Source 9 9) /\
  (exists rest,
      Store.trace (snd run) = Store.trace h0 ++ Store.Copied 1%nat copy :: rest /\
      Forall (fun e => Store.event_src e <> 1%nat) rest /\
      Store.reads_descendants copy rest) /\
  (forall refs, fst run = Ok refs -> Forall (Forall (fun l => l <> 1%nat)) refs).
Proof.
  intros h0.
  apply (build_leaves_input_unchanged sym_shape sym_GaussianBlur sym_resize h0 1%nat (Source 9 9)
           2 2 1 2).
  reflexivity.
Defined.

(** ** The store model computes the pyramid of the value model *)

Section Refinement.
Context {Img : Type}.
Variable img_shape : Img -> nat * nat.
Variable GaussianBlur : Img -> Q -> result Img.
Variable resize : Img -> Z * Z -> interpolation -> result Img.

(** A primitive call whose computation returns allocates the result. *)
Lemma primitive_run (h : Store.store Img) compute call src v w :
  Store.objects h !! src = Some v ->
  compute v = Ok w ->
  Store.primitive compute call src h
  = (Ok (length (Store.objects h)),
     {| Store.objects := Store.objects h ++ [w];
        Store.trace := Store.trace h ++ [call (length (Store.objects h))] |}).
Proof.
  intros Hv Hw.
  unfold Store.primitive, Store.bind, Store.read, Store.lift, Store.alloc,
    Store.log, Store.ret.
  now rewrite Hv, Hw.
Qed.

(** A primitive call whose computation raises leaves the store as it is. *)
Lemma primitive_raise (h : Store.store Img) compute call src v e :
  Store.objects h !! src = Some v ->
  compute v = Raise e ->
  Store.primitive compute call src h = (Raise e, h).
Proof.
  intros Hv He.
  unfold Store.primitive, Store.bind, Store.read, Store.lift.
  now rewrite Hv, He.
Qed.

Lemma bind_run {A B : Type} (m : Store.M A) (f : A -> Store.M B)
    (h : Store.store Img) :
  Store.bind m f h
  = match m h with
    | (Ok a, h') => f a h'
    | (Raise e, h') => (Raise e, h')
    end.
Proof. reflexivity. Qed.

(** One iteration of the scale loop whose blur returns. *)
Lemma scale_step_run (h : Store.store Img) cur v octave_r s x l b :
  holds h cur v ->
  GaussianBlur v s = Ok b ->
  Store.for_each_st (x :: l) (Store.scale_body GaussianBlur cur) (octave_r, s) h
  = Store.for_each_st l (Store.scale_body GaussianBlur cur)
      (octave_r ++ [length (Store.objects h)], (s * 2)%Q)
      {| Store.objects := Store.objects h ++ [b];
         Store.trace := Store.trace h
                        ++ [Store.Blurred cur s (length (Store.objects h))] |}.
Proof.
  intros Hcur Hb. cbn [Store.for_each_st]. rewrite bind_run.
  change (Store.scale_body GaussianBlur cur x (octave_r, s))
    with (Store.bind (Store.cv_GaussianBlur GaussianBlur cur s)
            (fun blurred_image =>
               Store.ret (octave_r ++ [blurred_image], (s * 2)%Q))).
  rewrite bind_run. unfold Store.cv_GaussianBlur.
  now rewrite (primitive_run _ _ _ _ _ _ Hcur Hb).
Qed.

(** One iteration of the scale loop whose blur raises. *)
Lemma scale_step_raise (h : Store.store Img) cur v octave_r s x l e :
  holds h cur v ->
  GaussianBlur v s = Raise e ->
  Store.for_each_st (x :: l) (Store.scale_body GaussianBlur cur) (octave_r, s) h
  = (Raise e, h).
Proof.
  intros Hcur Hb. cbn [Store.for_each_st]. rewrite bind_run.
  change (Store.scale_body GaussianBlur cur x (octave_r, s))
    with (Store.bind (Store.cv_GaussianBlur GaussianBlur cur s)
            (fun blurred_image =>
               Store.ret (octave_r ++ [blurred_image], (s * 2)%Q))).
  rewrite bind_run. unfold Store.cv_GaussianBlur.
  now rewrite (primitive_raise _ _ _ _ _ _ Hcur Hb).
Qed.

(** An octave iteration on the store, once its scale loop has returned. *)
Lemma store_octave_body_run (h h1 : Store.store Img) st v num_scales f k r :
  Store.for_each_st (py_range 0 num_scales)
    (Store.scale_body GaussianBlur (Store.current_image st))
    ([], Store.sigma st) h = (Ok r, h1) ->
  holds h1 (Store.current_image st) v ->
  Store.octave_body img_shape GaussianBlur resize num_scales f k st h
  = if f =? 0 then (Raise ZeroDivisionError, h1)
    else
      match resize v (Z.quot (Z.of_nat (snd (img_shape v))) f,
                      Z.quot (Z.of_nat (fst (img_shape v))) f) INTER_NEAREST with
      | Ok w =>
          (Ok {| Store.current_image := length (Store.objects h1);
                 Store.sigma := sigma_literal;
                 Store.pyramid := Store.pyramid st ++ [fst r] |},
           {| Store.objects := Store.objects h1 ++ [w];
              Store.trace :=
                Store.trace h1
                ++ [Store.Resized (Store.current_image st)
                      (Z.quot (Z.of_nat (snd (img_shape v))) f,
                       Z.quot (Z.of_nat (fst (img_shape v))) f)
                      INTER_NEAREST (length (Store.objects h1))] |})
      | Raise e => (Raise e, h1)
      end.
Proof.
  intros Hrun Hcur1.
  assert (Hshape : Store.get_shape img_shape (Store.current_image st) h1
                   = (Ok (img_shape v), h1)).
  { unfold Store.get_shape, Store.bind, Store.read, Store.ret.
    unfold holds in Hcur1. now rewrite Hcur1. }
  unfold Store.octave_body. rewrite bind_run, Hrun.
  rewrite bind_run, Hshape. rewrite bind_run. unfold Store.lift at 1, int_div.
  destruct (f =? 0) eqn:Ef; [reflexivity|].
  rewrite bind_run, Hshape. rewrite bind_run. unfold Store.lift at 1.
  rewrite bind_run. unfold Store.cv_resize.
  destruct (resize v _ INTER_NEAREST) as [w|e] eqn:Hres.
  - now rewrite (primitive_run _ _ _ _ _ _ Hcur1 Hres).
  - now rewrite (primitive_raise _ _ _ _ _ _ Hcur1 Hres).
Qed.

(** An octave iteration on the store whose scale loop raises. *)
Lemma store_octave_body_raise (h h1 : Store.store Img) st num_scales f k e :
  Store.for_each_st (py_range 0 num_scales)
    (Store.scale_body GaussianBlur (Store.current_image st))
    ([], Store.sigma st) h = (Raise e, h1) ->
  Store.octave_body img_shape GaussianBlur resize num_scales f k st h
  = (Raise e, h1).
Proof. intros Hrun. unfold Store.octave_body. now rewrite bind_run, Hrun. Qed.

Lemma holds_extend (h h' : Store.store Img) new l v :
  Store.objects h' = Store.objects h ++ new -> holds h l v -> holds h' l v.
Proof. unfold holds. intros -> H. now apply lookup_app_l_Some. Qed.

Lemma represents_extend (h h' : Store.store Img) new st st' :
  Store.objects h' = Store.objects h ++ new ->
  represents h st st' -> represents h' st st'.
Proof.
  intros Hobj (Hcur & Hsig & Hpyr). split; [|split].
  - eapply holds_extend; eassumption.
  - exact Hsig.
  - eapply Forall2_impl; [exact Hpyr|]. intros refs imgs H.
    eapply Forall2_impl; [exact H|]. intros l w.
    eapply holds_extend; eassumption.
Qed.

(** The scale loop on references allocates the blurs the scale loop on
    values computes, and raises where it raises. *)
Lemma scale_loop_refines (l : list Z) :
  forall (h : Store.store Img) cur v octave_r octave_p s,
    holds h cur v ->
    Forall2 (holds h) octave_r octave_p ->
    match blurred_scales GaussianBlur v s (length l) with
    | Ok imgs =>
        exists octave_r' h' new,
          Store.for_each_st l (Store.scale_body GaussianBlur cur) (octave_r, s) h
          = (Ok (octave_r', doubled s (length l)), h') /\
          Store.objects h' = Store.objects h ++ new /\
          Forall2 (holds h') octave_r' (octave_p ++ imgs)
    | Raise e =>
        exists h' new,
          Store.for_each_st l (Store.scale_body GaussianBlur cur) (octave_r, s) h
          = (Raise e, h') /\
          Store.objects h' = Store.objects h ++ new
    end.
Proof.
  induction l as [|x l IH]; intros h cur v octave_r octave_p s Hcur Hoct.
  - cbn. exists octave_r, h, []. rewrite !app_nil_r. repeat split. exact Hoct.
  - cbn [length]. rewrite blurred_scales_succ.
    destruct (GaussianBlur v s) as [b|e] eqn:Hb; cbn [mbind result_bind].
    2:{ exists h, []. rewrite (scale_step_raise _ _ _ _ _ _ _ _ Hcur Hb).
        now rewrite app_nil_r. }
    set (h1 := {| Store.objects := Store.objects h ++ [b];
                  Store.trace := Store.trace h
                    ++ [Store.Blurred cur s (length (Store.objects h))] |}).
    assert (Hext : Store.objects h1 = Store.objects h ++ [b]) by reflexivity.
    assert (Hcur1 : holds h1 cur v) by (eapply holds_extend; eassumption).
    assert (Hoct1 : Forall2 (holds h1) (octave_r ++ [length (Store.objects h)])
                      (octave_p ++ [b])).
    { apply Forall2_app.
      - eapply Forall2_impl; [exact Hoct|]. intros r w.
        eapply holds_extend; eassumption.
      - constructor; [|constructor]. unfold holds. cbn [Store.objects h1].
        rewrite lookup_app_r by lia. now rewrite Nat.sub_diag. }
    specialize (IH h1 cur v (octave_r ++ [length (Store.objects h)])
                  (octave_p ++ [b]) (s * 2)%Q Hcur1 Hoct1).
    destruct (blurred_scales GaussianBlur v (s * 2)%Q (length l)) as [bs|e];
      cbn [mbind result_bind].
    + destruct IH as (octave_r' & h' & new & Hrun & Hobj & Hall).
      exists octave_r', h', ([b] ++ new).
      rewrite (scale_step_run _ _ _ _ _ _ _ _ Hcur Hb). fold h1.
      split; [rewrite <- doubled_succ; exact Hrun|].
      split; [now rewrite Hobj, Hext, app_assoc|].
      now rewrite <- app_assoc in Hall.
    + destruct IH as (h' & new & Hrun & Hobj).
      exists h', ([b] ++ new).
      rewrite (scale_step_run _ _ _ _ _ _ _ _ Hcur Hb). fold h1.
      split; [exact Hrun|]. now rewrite Hobj, Hext, app_assoc.
Qed.

(** One octave on references against one octave on values. *)
Lemma octave_body_refines (h : Store.store Img) st st' num_scales f k :
  represents h st st' ->
  match octave_body img_shape GaussianBlur resize num_scales f k st' with
  | Ok st1' =>
      exists st1 h1 new,
        Store.octave_body img_shape GaussianBlur resize num_scales f k st h
        = (Ok st1, h1) /\
        Store.objects h1 = Store.objects h ++ new /\
        represents h1 st1 st1'
  | Raise e =>
      exists h1 new,
        Store.octave_body img_shape GaussianBlur resize num_scales f k st h
        = (Raise e, h1) /\
        Store.objects h1 = Store.objects h ++ new
  end.
Proof.
  intros (Hcur & Hsig & Hpyr). rewrite octave_body_spec.
  pose proof (scale_loop_refines (py_range 0 num_scales) h (Store.current_image st)
                (current_image st') [] [] (Store.sigma st) Hcur ltac:(constructor))
    as Hloop.
  rewrite length_py_range, Z.sub_0_r in Hloop. rewrite <- Hsig.
  destruct (blurred_scales GaussianBlur (current_image st') (Store.sigma st)
              (Z.to_nat num_scales)) as [octave|e]; cbn [mbind result_bind].
  2:{ destruct Hloop as (h1 & new & Hrun & Hobj). exists h1, new.
      now rewrite (store_octave_body_raise _ _ _ _ _ _ _ Hrun). }
  destruct Hloop as (octave_r & h1 & new & Hrun & Hobj & Hoct).
  cbn [app] in Hoct.
  assert (Hcur1 : holds h1 (Store.current_image st) (current_image st'))
    by (eapply holds_extend; eassumption).
  rewrite (store_octave_body_run _ _ _ _ _ _ _ _ Hrun Hcur1).
  unfold int_div. destruct (f =? 0); cbn [mbind result_bind].
  { exists h1, new. auto. }
  destruct (resize (current_image st') _ INTER_NEAREST) as [r|e];
    cbn [mbind result_bind].
  2:{ exists h1, new. auto. }
  eexists _, _, (new ++ [r]). split; [reflexivity|]. split.
  { cbn [Store.objects]. now rewrite Hobj, app_assoc. }
  split; [|split]; cbn [Store.objects Store.current_image Store.sigma
                          Store.pyramid current_image sigma pyramid fst].
  - unfold holds. cbn [Store.objects].
    rewrite lookup_app_r by lia. now rewrite Nat.sub_diag.
  - reflexivity.
  - apply Forall2_app.
    + eapply Forall2_impl; [exact Hpyr|]. intros refs imgs H.
      eapply Forall2_impl; [exact H|]. intros l w Hl.
      eapply holds_extend; [|eapply holds_extend; eassumption].
      cbn [Store.objects]. reflexivity.
    + constructor; [|constructor].
      eapply Forall2_impl; [exact Hoct|]. intros l w Hl.
      eapply holds_extend; [|exact Hl]. cbn [Store.objects]. reflexivity.
Qed.

Lemma octave_loop_refines (l : list Z) num_scales f :
  forall (h : Store.store Img) st st',
    represents h st st' ->
    match for_each l (octave_body img_shape GaussianBlur resize num_scales f) st' with
    | Ok st1' =>
        exists st1 h1,
          Store.for_each_st l
            (Store.octave_body img_shape GaussianBlur resize num_scales f) st h
          = (Ok st1, h1) /\
          represents h1 st1 st1'
    | Raise e =>
        exists h1,
          Store.for_each_st l
            (Store.octave_body img_shape GaussianBlur resize num_scales f) st h
          = (Raise e, h1)
    end.
Proof.
  induction l as [|x l IH]; intros h st st' Hrep; [now exists st, h|].
  cbn [for_each Store.for_each_st]. unfold Store.bind.
  pose proof (octave_body_refines h st st' num_scales f x Hrep) as Hbody.
  destruct (octave_body _ _ _ _ _ x st') as [st1'|e]; cbn [mbind result_bind].
  - destruct Hbody as (st1 & h1 & new & -> & _ & Hrep1). now apply IH.
  - destruct Hbody as (h1 & new & -> & _). now exists h1.
Qed.

(** The builder on the store and the builder on values agree: run on a
    reference that holds [v], the store model returns references to the
    images the value model computes from [v], and raises when it raises. *)
Lemma store_build_refines (h0 : Store.store Img) image v
    num_octaves num_scales sigma0 f :
  holds h0 image v ->
  match build_scale_space_pyramid img_shape GaussianBlur resize
          v num_octaves num_scales sigma0 f with
  | Ok pyr =>
      exists refs h',
        Store.build_scale_space_pyramid img_shape GaussianBlur resize
          image num_octaves num_scales sigma0 f h0 = (Ok refs, h') /\
        Store.deref h' refs = Some pyr
  | Raise e =>
      exists h',
        Store.build_scale_space_pyramid img_shape GaussianBlur resize
          image num_octaves num_scales sigma0 f h0 = (Raise e, h')
  end.
Proof.
  intros Hv. unfold build_scale_space_pyramid, Store.build_scale_space_pyramid.
  unfold Store.bind, Store.np_copy.
  rewrite (primitive_run _ _ _ _ _ _ Hv eq_refl).
  cbn beta iota.
  set (h1 := {| Store.objects := _; Store.trace := _ |}).
  set (st := {| Store.current_image := _; Store.sigma := _; Store.pyramid := _ |}).
  set (st' := {| current_image := v; sigma := sigma0; pyramid := [] |}).
  assert (Hrep : represents h1 st st').
  { split; [|split]; [|reflexivity|constructor].
    unfold holds. cbn [Store.objects h1 Store.current_image st current_image st'].
    rewrite lookup_app_r by lia. now rewrite Nat.sub_diag. }
  pose proof (octave_loop_refines (py_range 0 num_octaves) num_scales f h1 st st' Hrep)
    as Hloop.
  destruct (for_each _ _ st') as [st1'|e]; cbn [mbind result_bind].
  - destruct Hloop as (st1 & h' & -> & _ & _ & Hpyr).
    exists (Store.pyramid st1), h'. split; [reflexivity|].
    unfold Store.deref. apply mapM_Some.
    eapply Forall2_impl; [exact Hpyr|]. intros refs imgs H.
    apply mapM_Some. exact H.
  - destruct Hloop as (h' & ->). now exists h'.
Qed.
End Refinement.

(** With a factor of 0 the division error comes after the blurs of the
    first octave: the store keeps the two blurred arrays, and no pyramid is
    returned. *)
Lemma zero_factor_raises_after_blurring :
  Store.build_scale_space_pyramid sym_shape sym_GaussianBlur sym_resize
    0%nat 3 2 1.6 0
    {| Store.objects := [Source 4 4]; Store.trace := [] |}
  = (Raise ZeroDivisionError,
     {| Store.objects := [Source 4 4; Source 4 4;
                          Blur (Source 4 4) 1.6; Blur (Source 4 4) 3.2];
        Store.trace := [Store.Copied 0%nat 1%nat;
                        Store.Blurred 1%nat 1.6 2%nat;
                        Store.Blurred 1%nat 3.2 3%nat] |}).
Proof. reflexivity. Qed.

(** * Further properties of the detector *)

Section Extend.
Context {A B : Type}.
Implicit Types (f : A -> result (list B)) (l : list A).

(** A loop that appends what each iteration finds. *)
Lemma for_each_extend f (body : A -> list B -> result (list B)) l acc :
  (forall x acc, body x acc = (r ← f x; Ok (acc ++ r))) ->
  for_each l body acc = (rs ← map_result f l; Ok (acc ++ concat rs)).
Proof.
  intros Hbody. revert acc; induction l as [|x l IH]; intros acc; simpl.
  - now rewrite app_nil_r.
  - rewrite Hbody. destruct (f x) as [r|e]; simpl; [|reflexivity].
    rewrite IH. destruct (map_result f l); simpl; [|reflexivity].
    now rewrite app_assoc.
Qed.

Lemma for_each_extend_nil f (body : A -> list B -> result (list B)) l :
  (forall x acc, body x acc = (r ← f x; Ok (acc ++ r))) ->
  for_each l body [] = (rs ← map_result f l; Ok (concat rs)).
Proof. intros Hbody. now rewrite (for_each_extend f). Qed.
End Extend.

(** Two nested collecting loops visit the pairs in row-major order. *)
Lemma map_result_nested {A B C : Type} (f : A -> B -> result (list C))
    (rows : list A) (cols : list B) :
  (rs ← map_result (fun i => cs ← map_result (f i) cols; Ok (concat cs)) rows;
   Ok (concat rs))
  = (ps ← map_result (fun p => f (fst p) (snd p))
          (concat (map (fun i => map (fun j => (i, j)) cols) rows));
     Ok (concat ps)).
Proof.
  induction rows as [|i rows IH]; [reflexivity|].
  cbn [map concat map_result]. rewrite map_result_app, map_result_map.
  cbn [fst snd].
  destruct (map_result (f i) cols) as [cs|e]; cbn [mbind result_bind];
    [|reflexivity].
  destruct (map_result (fun i0 => cs0 ← map_result (f i0) cols; Ok (concat cs0)) rows)
    as [rs|e]; cbn [mbind result_bind] in *.
  - destruct (map_result _ (concat _)) as [ps|e]; cbn [mbind result_bind] in *;
      [|discriminate].
    injection IH as IH. cbn [concat]. now rewrite concat_app, IH.
  - destruct (map_result _ (concat _)) as [ps|e']; cbn [mbind result_bind] in *;
      [discriminate|exact IH].
Qed.

Lemma scan_pixel_acc dt img prev_img next_img threshold i j keypoints :
  scan_pixel dt img prev_img next_img threshold i j keypoints
  = (r ← scan_pixel dt img prev_img next_img threshold i j []; Ok (keypoints ++ r)).
Proof.
  unfold scan_pixel.
  destruct (is_local_extremum _ _ _) as [e|]; cbn [mbind result_bind];
    [|reflexivity].
  destruct (truthy e); cbn [mbind result_bind]; [|now rewrite app_nil_r].
  destruct (getitem2 img i j) as [c|]; cbn [mbind result_bind]; [|reflexivity].
  destruct (dt_abs dt c <? threshold); cbn [mbind result_bind];
    [now rewrite app_nil_r|].
  destruct (is_edge_point dt img i j default_edge_threshold) as [[|]|];
    cbn [mbind result_bind]; rewrite ?app_nil_r; reflexivity.
Qed.

(** The scan of an image collects, over its interior pixels in row-major
    order, what the pixel step finds at each. *)
Lemma detect_keypoints_in_image_eq dt img prev_img next_img threshold :
  detect_keypoints_in_image dt img prev_img next_img threshold
  = (rs ← map_result
            (fun p => scan_pixel dt img prev_img next_img threshold (fst p) (snd p) [])
            (interior_pixels img);
     Ok (concat rs)).
Proof.
  unfold detect_keypoints_in_image, interior_pixels.
  rewrite <- (map_result_nested
                (fun i j => scan_pixel dt img prev_img next_img threshold i j [])).
  apply for_each_extend_nil. intros i acc.
  rewrite (for_each_extend
             (fun j => scan_pixel dt img prev_img next_img threshold i j [])).
  - destruct (map_result _ _); reflexivity.
  - intros j acc'. apply scan_pixel_acc.
Qed.

Lemma Forall2_In_l {A B : Type} (R : A -> B -> Prop) l k x :
  Forall2 R l k -> In x l -> exists y, In y k /\ R x y.
Proof.
  induction 1 as [|a b l k Hab _ IH]; intros Hx; [destruct Hx|].
  destruct Hx as [<-|Hx]; [exists b; split; [now left|exact Hab]|].
  destruct (IH Hx) as (y & Hy & Hxy). exists y. split; [now right|exact Hxy].
Qed.

Lemma Forall2_In_r {A B : Type} (R : A -> B -> Prop) l k y :
  Forall2 R l k -> In y k -> exists x, In x l /\ R x y.
Proof.
  induction 1 as [|a b l k Hab _ IH]; intros Hy; [destruct Hy|].
  destruct Hy as [<-|Hy]; [exists a; split; [now left|exact Hab]|].
  destruct (IH Hy) as (x & Hx & Hxy). exists x. split; [now right|exact Hxy].
Qed.

Lemma In_interior_pixels img i j :
  In (i, j) (interior_pixels img) <-> interior_pixel img (i, j).
Proof.
  unfold interior_pixels, interior_pixel. cbn [fst snd].
  rewrite in_concat. split.
  - intros (row & Hrow & Hin). apply in_map_iff in Hrow as (i' & <- & Hi').
    apply in_map_iff in Hin as (j' & [= <- <-] & Hj').
    apply In_py_range in Hi', Hj'. lia.
  - intros [Hi Hj]. exists (map (fun j => (i, j)) (py_range 1 (snd (shape img) - 1))).
    split; apply in_map_iff.
    + exists i. split; [reflexivity|]. apply In_py_range. lia.
    + exists j. split; [reflexivity|]. apply In_py_range. lia.
Qed.

(** At a pixel the step finds the pixel itself, when it passes the three
    tests, and nothing otherwise. *)
Lemma scan_pixel_cases dt img prev_img next_img threshold i j r :
  scan_pixel dt img prev_img next_img threshold i j [] = Ok r ->
  (r = [(i, j)] /\ passes_tests dt img prev_img next_img threshold i j) \/
  (r = [] /\ ~ passes_tests dt img prev_img next_img threshold i j).
Proof.
  unfold scan_pixel, passes_tests. intros H. bind_inv H. rename a into e.
  destruct (truthy e) eqn:Et.
  - bind_inv H. rename a into c.
    destruct (dt_abs dt c <? threshold) eqn:Ec.
    + injection H as <-. right. split; [reflexivity|].
      intros (e' & c' & He' & _ & Hc' & Hle & _).
      rewrite Ha0 in Hc'. injection Hc' as <-. lia.
    + bind_inv H. destruct a.
      * injection H as <-. right. split; [reflexivity|].
        intros (_ & _ & _ & _ & _ & _ & Hedge). congruence.
      * injection H as <-. left. split; [reflexivity|].
        exists e, c. repeat split; try assumption. lia.
  - injection H as <-. right. split; [reflexivity|].
    intros (e' & _ & He' & Ht' & _). rewrite Ha in He'. injection He' as <-.
    congruence.
Qed.

Lemma detect_keypoints_in_image_iff dt img prev_img next_img threshold found :
  detect_keypoints_in_image dt img prev_img next_img threshold = Ok found ->
  forall i j,
    In (i, j) found <->
    interior_pixel img (i, j) /\
    passes_tests dt img prev_img next_img threshold i j.
Proof.
  rewrite detect_keypoints_in_image_eq. intros H i j. bind_inv H.
  injection H as <-. apply map_result_Ok in Ha. rename a into rs.
  rewrite <- In_interior_pixels, in_concat. split.
  - intros (r & Hr & Hin).
    destruct (Forall2_In_r _ _ _ _ Ha Hr) as ([i' j'] & Hp & Hscan).
    cbn [fst snd] in Hscan.
    apply scan_pixel_cases in Hscan as [[-> Hpass]|[-> _]]; [|destruct Hin].
    destruct Hin as [[= <- <-]|[]]. now split.
  - intros [Hp Hpass].
    destruct (Forall2_In_l _ _ _ _ Ha Hp) as (r & Hr & Hscan).
    cbn [fst snd] in Hscan.
    apply scan_pixel_cases in Hscan as [[-> _]|[_ Hno]]; [|contradiction].
    exists [(i, j)]. split; [exact Hr|now left].
Qed.

(** X1. When the scan of an image returns, the keypoints it reports are
    exactly the interior pixels that pass the three tests. *)
Theorem detect_keypoints_in_image_reports dt img prev_img next_img threshold found :
  detect_keypoints_in_image dt img prev_img next_img threshold = Ok found ->
  forall i j,
    In (i, j) found <->
    interior_pixel img (i, j) /\
    passes_tests dt img prev_img next_img threshold i j.
Proof. apply detect_keypoints_in_image_iff. Qed.

Lemma detect_keypoints_in_image_reports_witness :
  In (1, 1) [(1, 1)] <->
  interior_pixel [[0; 0; 0]; [0; 50; 0]; [0; 30; 0]] (1, 1) /\
  passes_tests uint8 [[0; 0; 0]; [0; 50; 0]; [0; 30; 0]]
    [[0; 0; 0]; [0; 0; 0]; [0; 0; 0]] [[0; 0; 0]; [0; 0; 0]; [0; 0; 0]] 5 1 1.
Proof.
  apply (detect_keypoints_in_image_reports uint8
           [[0; 0; 0]; [0; 50; 0]; [0; 30; 0]]
           [[0; 0; 0]; [0; 0; 0]; [0; 0; 0]] [[0; 0; 0]; [0; 0; 0]; [0; 0; 0]]
           5 [(1, 1)]).
  reflexivity.
Defined.

Lemma NoDup_py_range lo hi : NoDup (py_range lo hi).
Proof.
  unfold py_range. apply NoDup_fmap_2; [|apply NoDup_seq].
  intros a b H. lia.
Qed.

Lemma NoDup_pairs {A B : Type} (rows : list A) (cols : list B) :
  NoDup rows -> NoDup cols ->
  NoDup (concat (map (fun i => map (fun j => (i, j)) cols) rows)).
Proof.
  intros Hrows Hcols. induction Hrows as [|i rows Hi Hrows IH]; [constructor|].
  cbn [map concat]. apply NoDup_app. split; [|split].
  - apply NoDup_fmap_2; [|exact Hcols]. intros a b H. congruence.
  - intros p Hp Hq. apply list_elem_of_In in Hp, Hq.
    apply in_map_iff in Hp as (j & <- & _).
    apply in_concat in Hq as (row & Hrow & Hin).
    apply in_map_iff in Hrow as (i' & <- & Hi').
    apply in_map_iff in Hin as (j' & [= <- _] & _).
    apply Hi. now apply list_elem_of_In.
  - exact IH.
Qed.

Lemma sublist_concat_picks {A : Type} (l : list A) (rs : list (list A)) :
  Forall2 (fun p r => r = [p] \/ r = []) l rs -> sublist (concat rs) l.
Proof.
  induction 1 as [|p r l rs [->| ->] _ IH]; cbn [concat app].
  - constructor.
  - now apply sublist_skip.
  - now apply sublist_cons.
Qed.

(** X2. The keypoints of one image come in the order of the scan, row by
    row and left to right within a row, and no pixel is reported twice. *)
Theorem detect_keypoints_in_image_order dt img prev_img next_img threshold found :
  detect_keypoints_in_image dt img prev_img next_img threshold = Ok found ->
  sublist found (interior_pixels img) /\ NoDup found.
Proof.
  rewrite detect_keypoints_in_image_eq. intros H. bind_inv H.
  injection H as <-. apply map_result_Ok in Ha.
  assert (Hsub : sublist (concat a) (interior_pixels img)).
  { apply sublist_concat_picks. eapply Forall2_impl; [exact Ha|].
    intros [i j] r Hscan. cbn [fst snd] in Hscan.
    apply scan_pixel_cases in Hscan as [[-> _]|[-> _]]; auto. }
  split; [exact Hsub|].
  eapply sublist_NoDup; [|exact Hsub].
  apply NoDup_pairs; apply NoDup_py_range.
Qed.

Lemma detect_keypoints_in_image_order_witness :
  sublist [(1, 1); (2, 1); (2, 2)]
    (interior_pixels [[0; 0; 0; 0]; [0; 50; 0; 0]; [0; 30; 90; 0]; [0; 0; 50; 0]]) /\
  NoDup [(1, 1); (2, 1); (2, 2)].
Proof.
  apply (detect_keypoints_in_image_order uint8
           [[0; 0; 0; 0]; [0; 50; 0; 0]; [0; 30; 90; 0]; [0; 0; 50; 0]]
           [[0; 0; 0; 0]; [0; 0; 0; 0]; [0; 0; 0; 0]; [0; 0; 0; 0]]
           [[0; 0; 0; 0]; [0; 0; 0; 0]; [0; 0; 0; 0]; [0; 0; 0; 0]] 5).
  reflexivity.
Defined.

Lemma for_each_enumerate {A S : Type} (g : A -> S -> result S) (l : list A) (s : S) :
  for_each (enumerate l) (fun '(k, x) s => g x s) s = for_each l g s.
Proof.
  unfold enumerate.
  assert (Hgen : forall (h : nat -> A -> Z * A),
             (forall k x, snd (h k x) = x) ->
             for_each (imap h l) (fun '(k, x) s => g x s) s = for_each l g s).
  { revert s. induction l as [|x l IH]; intros s h' Hh; [reflexivity|].
    rewrite imap_cons. cbn [for_each].
    specialize (Hh 0%nat x) as Hx. destruct (h' 0%nat x) as [k y]. cbn in Hx.
    subst y. destruct (g x s); cbn [mbind result_bind]; [|reflexivity].
    apply IH. intros k' x'. apply Hh. }
  apply Hgen. reflexivity.
Qed.

(** The scan of an octave appends the scans of its interior images. *)
Lemma scan_octave_eq dt octave_images threshold keypoints :
  scan_octave dt octave_images threshold keypoints
  = (rs ← map_result (scan_scale dt octave_images threshold)
            (enumerate (py_slice octave_images 1 (-1)));
     Ok (keypoints ++ concat rs)).
Proof.
  unfold scan_octave. apply for_each_extend.
  intros [scale img] acc. unfold scan_scale. cbn [fst snd].
  destruct (list_getitem octave_images scale); cbn [mbind result_bind];
    [|reflexivity].
  destruct (list_getitem octave_images (scale + 2)); reflexivity.
Qed.

Lemma scan_octave_acc dt octave_images threshold keypoints :
  scan_octave dt octave_images threshold keypoints
  = (r ← scan_octave dt octave_images threshold []; Ok (keypoints ++ r)).
Proof.
  rewrite !scan_octave_eq. now destruct (map_result _ _).
Qed.

(** The detector concatenates the scans of the octaves. *)
Lemma detect_keypoints_eq dt DoG_pyramid threshold :
  detect_keypoints dt DoG_pyramid threshold
  = (rs ← map_result (fun octave_images => scan_octave dt octave_images threshold [])
            DoG_pyramid;
     Ok (concat rs)).
Proof.
  unfold detect_keypoints.
  rewrite (for_each_enumerate
             (fun octave_images keypoints =>
                scan_octave dt octave_images threshold keypoints)).
  apply for_each_extend_nil. intros o acc. apply scan_octave_acc.
Qed.

(** X5. The detector works octave by octave: the keypoints of a pyramid
    that is two pyramids put end to end are the keypoints of the first
    followed by the keypoints of the second, and it raises exactly when one
    of the two does, the first having precedence. *)
Theorem detect_keypoints_app dt pyramid1 pyramid2 threshold :
  detect_keypoints dt (pyramid1 ++ pyramid2) threshold
  = (keypoints1 ← detect_keypoints dt pyramid1 threshold;
     keypoints2 ← detect_keypoints dt pyramid2 threshold;
     Ok (keypoints1 ++ keypoints2)).
Proof.
  rewrite !detect_keypoints_eq, map_result_app.
  destruct (map_result _ pyramid1) as [rs1|e]; cbn [mbind result_bind];
    [|reflexivity].
  destruct (map_result _ pyramid2) as [rs2|e]; cbn [mbind result_bind];
    [|reflexivity].
  now rewrite concat_app.
Qed.

Lemma wrap_le_max dt z : wrap dt z <= dtype_max dt.
Proof.
  unfold wrap, dtype_max. destruct dt.
  - pose proof (Z.mod_pos_bound z 256). lia.
  - pose proof (Z.mod_pos_bound z 65536). lia.
  - pose proof (Z.mod_pos_bound (z + 32768) 65536). lia.
Qed.

(** X3. A contrast threshold above the largest value of the element type
    (255 for uint8) leaves no keypoint: whenever the detector returns, it
    returns the empty list. *)
Theorem detect_keypoints_threshold_above_max dt DoG_pyramid threshold keypoints :
  dtype_max dt < threshold ->
  detect_keypoints dt DoG_pyramid threshold = Ok keypoints ->
  keypoints = [].
Proof.
  intros Hmax Hrun. destruct keypoints as [|[i j] rest]; [reflexivity|].
  destruct (detect_keypoints_found _ _ _ _ Hrun (i, j) (or_introl eq_refl))
    as (o & m & octave_images & img & prev_img & next_img & found
        & _ & _ & _ & _ & _ & Hscan & Hin).
  apply (detect_keypoints_in_image_iff _ _ _ _ _ _ Hscan) in Hin
    as [_ (e & c & _ & _ & _ & Hle & _)].
  pose proof (wrap_le_max dt (Z.abs c)) as Hc. unfold dt_abs in Hle. lia.
Qed.

Lemma detect_keypoints_threshold_above_max_witness :
  dtype_max uint8 < 256 /\
  detect_keypoints uint8
    [[ [[0; 0; 0]; [0; 0; 0]; [0; 0; 0]];
       [[0; 0; 0]; [0; 250; 0]; [0; 30; 0]];
       [[0; 0; 0]; [0; 0; 0]; [0; 0; 0]] ]] 256 = Ok [] /\
  @nil (Z * Z) = [].
Proof.
  split; [reflexivity|]. split; [reflexivity|].
  apply (detect_keypoints_threshold_above_max uint8
           [[ [[0; 0; 0]; [0; 0; 0]; [0; 0; 0]];
              [[0; 0; 0]; [0; 250; 0]; [0; 30; 0]];
              [[0; 0; 0]; [0; 0; 0]; [0; 0; 0]] ]] 256 []).
  - reflexivity.
  - reflexivity.
Defined.

Lemma map_result_sublist {A B : Type} (f1 f2 : A -> result (list B)) (l : list A) rs1 :
  map_result f1 l = Ok rs1 ->
  (forall x r1, In x l -> f1 x = Ok r1 -> exists r2, f2 x = Ok r2 /\ sublist r2 r1) ->
  exists rs2, map_result f2 l = Ok rs2 /\ sublist (concat rs2) (concat rs1).
Proof.
  revert rs1; induction l as [|x l IH]; intros rs1 H Hf; simpl in H.
  - injection H as <-. exists []. split; [reflexivity|constructor].
  - bind_inv H. bind_inv H. injection H as <-.
    destruct (Hf x a (or_introl eq_refl) Ha) as (r2 & Hr2 & Hsub).
    destruct (IH a0 Ha0) as (rs2 & Hrs2 & Hsubs).
    { intros y r Hy. apply Hf. now right. }
    exists (r2 :: rs2). simpl. rewrite Hr2, Hrs2. split; [reflexivity|].
    now apply sublist_app.
Qed.

Lemma scan_pixel_threshold_mono dt img prev_img next_img t1 t2 i j r1 :
  t1 <= t2 ->
  scan_pixel dt img prev_img next_img t1 i j [] = Ok r1 ->
  exists r2, scan_pixel dt img prev_img next_img t2 i j [] = Ok r2 /\ sublist r2 r1.
Proof.
  intros Ht. unfold scan_pixel.
  destruct (is_local_extremum _ _ _) as [e|]; cbn [mbind result_bind];
    [|discriminate].
  destruct (truthy e); [|intros [= <-]; eexists; split; [reflexivity|constructor]].
  destruct (getitem2 img i j) as [c|]; cbn [mbind result_bind]; [|discriminate].
  destruct (dt_abs dt c <? t1) eqn:E1.
  - intros [= <-]. replace (dt_abs dt c <? t2) with true by (symmetry; lia).
    eexists; split; [reflexivity|constructor].
  - destruct (dt_abs dt c <? t2); [intros _; eexists; split;
                                    [reflexivity|apply sublist_nil_l]|].
    intros H. exists r1. split; [exact H|reflexivity].
Qed.

(** X4. Raising the contrast threshold only removes keypoints: if the
    detector returns for a threshold, it returns for every larger one, and
    with a sublist of the keypoints, in the same order. *)
Theorem detect_keypoints_threshold_mono dt DoG_pyramid t1 t2 keypoints1 :
  t1 <= t2 ->
  detect_keypoints dt DoG_pyramid t1 = Ok keypoints1 ->
  exists keypoints2,
    detect_keypoints dt DoG_pyramid t2 = Ok keypoints2 /\
    sublist keypoints2 keypoints1.
Proof.
  intros Ht. rewrite !detect_keypoints_eq. intros H. bind_inv H.
  injection H as <-.
  destruct (map_result_sublist
              (fun o => scan_octave dt o t1 []) (fun o => scan_octave dt o t2 [])
              DoG_pyramid a Ha) as (rs2 & -> & Hsub); [|eauto].
  intros octave_images r1 _. rewrite !scan_octave_eq. intros H. bind_inv H.
  injection H as <-.
  destruct (map_result_sublist
              (scan_scale dt octave_images t1) (scan_scale dt octave_images t2)
              _ a0 Ha0) as (rs & -> & Hs); [|eauto].
  intros [scale img] r _. unfold scan_scale. cbn [fst snd].
  destruct (list_getitem octave_images scale) as [prev_img|];
    cbn [mbind result_bind]; [|discriminate].
  destruct (list_getitem octave_images (scale + 2)) as [next_img|];
    cbn [mbind result_bind]; [|discriminate].
  rewrite !detect_keypoints_in_image_eq. intros H. bind_inv H. injection H as <-.
  destruct (map_result_sublist
              (fun p => scan_pixel dt img prev_img next_img t1 (fst p) (snd p) [])
              (fun p => scan_pixel dt img prev_img next_img t2 (fst p) (snd p) [])
              _ a1 Ha1) as (rs' & -> & Hs'); [|eauto].
  intros [i j] r' _. cbn [fst snd]. now apply scan_pixel_threshold_mono.
Qed.

Lemma detect_keypoints_threshold_mono_witness :
  exists keypoints2,
    detect_keypoints uint8
      [[ [[0; 0; 0; 0]; [0; 0; 0; 0]; [0; 0; 0; 0]; [0; 0; 0; 0]];
         [[0; 0; 0; 0]; [0; 50; 0; 0]; [0; 30; 90; 0]; [0; 0; 50; 0]];
         [[0; 0; 0; 0]; [0; 0; 0; 0]; [0; 0; 0; 0]; [0; 0; 0; 0]] ]] 40
    = Ok keypoints2 /\
    sublist keypoints2 [(1, 1); (2, 1); (2, 2)].
Proof.
  apply (detect_keypoints_threshold_mono uint8 _ 5 40).
  - lia.
  - reflexivity.
Defined.

(** X6. A pixel whose two vertical neighbours hold the same value and whose
    two horizontal neighbours hold the same value is never reported,
    whatever its own value and the threshold: its gradient is zero, and the
    edge test drops it. *)
Theorem symmetric_pixel_never_reported
    dt img prev_img next_img threshold found i j a c :
  detect_keypoints_in_image dt img prev_img next_img threshold = Ok found ->
  getitem2 img (i + 1) j = Ok a ->
  getitem2 img (i - 1) j = Ok a ->
  getitem2 img i (j + 1) = Ok c ->
  getitem2 img i (j - 1) = Ok c ->
  ~ In (i, j) found.
Proof.
  intros Hrun Ha Hb Hc Hd Hin.
  apply (detect_keypoints_in_image_iff _ _ _ _ _ _ Hrun) in Hin
    as [_ (e & cv & _ & _ & _ & _ & Hedge)].
  unfold is_edge_point in Hedge. rewrite Ha, Hb, Hc, Hd in Hedge.
  cbn [mbind result_bind] in Hedge.
  replace (dt_sub dt a a) with 0 in Hedge
    by (unfold dt_sub; rewrite Z.sub_diag; now destruct dt).
  replace (dt_sub dt c c) with 0 in Hedge
    by (unfold dt_sub; rewrite Z.sub_diag; now destruct dt).
  discriminate Hedge.
Qed.

Lemma symmetric_pixel_never_reported_witness :
  ~ In (1, 1) (@nil (Z * Z)).
Proof.
  apply (symmetric_pixel_never_reported uint8
           [[0; 7; 0]; [9; 200; 9]; [0; 7; 0]]
           [[0; 0; 0]; [0; 0; 0]; [0; 0; 0]] [[0; 0; 0]; [0; 0; 0]; [0; 0; 0]]
           5 [] 1 1 7 9); reflexivity.
Defined.

(** *** The detector raises nothing on well-formed pyramids *)

Lemma length_py_slice {A : Type} (l : list A) (a b : Z) :
  0 <= a <= b -> b <= Z.of_nat (length l) ->
  length (py_slice l a b) = Z.to_nat (b - a).
Proof.
  intros Hab Hb. unfold py_slice, clip_index.
  destruct (Z.ltb_spec a 0); [lia|]. destruct (Z.ltb_spec b 0); [lia|].
  rewrite length_take, length_drop. lia.
Qed.

Lemma In_py_slice {A : Type} (l : list A) (a b : Z) x :
  In x (py_slice l a b) -> In x l.
Proof.
  unfold py_slice. intros H. apply list_elem_of_In in H.
  apply list_elem_of_In. eapply elem_of_sublist; [exact H|].
  etransitivity; [apply sublist_take|apply sublist_drop].
Qed.

Lemma same_shape_shape a b : same_shape a b -> shape a = shape b.
Proof.
  unfold shape. intros H. rewrite (Forall2_length _ _ _ H).
  destruct H as [|r1 r2 a b Hr _]; [reflexivity|]. simpl. now rewrite Hr.
Qed.

Lemma same_shape_rectangular a b : same_shape a b -> rectangular a -> rectangular b.
Proof.
  intros H Ha row Hrow. rewrite <- (same_shape_shape _ _ H).
  destruct (Forall2_In_r _ _ _ _ H Hrow) as (row' & Hrow' & Hlen).
  rewrite <- Hlen. now apply Ha.
Qed.

Lemma getitem2_in_bounds (a : ndarray) i j :
  rectangular a -> 0 <= i < fst (shape a) -> 0 <= j < snd (shape a) ->
  exists v, getitem2 a i j = Ok v.
Proof.
  intros Hrect Hi Hj. unfold shape in Hi. cbn [fst] in Hi.
  destruct (lookup_lt_is_Some_2 a (Z.to_nat i)) as [row Hrow]; [lia|].
  assert (Hlen : Z.of_nat (length row) = snd (shape a)).
  { apply Hrect. apply list_elem_of_In. eapply list_elem_of_lookup_2. exact Hrow. }
  destruct (lookup_lt_is_Some_2 row (Z.to_nat j)) as [v Hv]; [lia|].
  exists v. unfold getitem2.
  replace i with (Z.of_nat (Z.to_nat i)) by lia.
  rewrite (list_getitem_lookup _ _ _ Hrow). cbn [mbind result_bind].
  replace j with (Z.of_nat (Z.to_nat j)) by lia.
  now apply list_getitem_lookup.
Qed.

(** A window of a rectangular array is rectangular, of the window's size. *)
Lemma slice2_rows (a : ndarray) r0 r1 c0 c1 :
  rectangular a ->
  0 <= r0 <= r1 -> r1 <= fst (shape a) -> 0 <= c0 <= c1 -> c1 <= snd (shape a) ->
  length (slice2 a r0 r1 c0 c1) = Z.to_nat (r1 - r0) /\
  forall row, In row (slice2 a r0 r1 c0 c1) -> length row = Z.to_nat (c1 - c0).
Proof.
  intros Hrect Hr Hr1 Hc Hc1. unfold slice2. split.
  - rewrite length_map. now apply length_py_slice.
  - intros row Hrow. apply in_map_iff in Hrow as (row' & <- & Hrow').
    apply In_py_slice in Hrow'. apply length_py_slice; [exact Hc|].
    now rewrite (Hrect _ Hrow').
Qed.

(** At an interior pixel the 3x3 window is full: it has a center and a
    maximum and a minimum. *)
Lemma window_full (a : ndarray) i j :
  rectangular a ->
  1 <= i <= fst (shape a) - 2 -> 1 <= j <= snd (shape a) - 2 ->
  (exists v, getitem2 (slice2 a (i - 1) (i + 2) (j - 1) (j + 2)) 1 1 = Ok v) /\
  (exists m, np_max (slice2 a (i - 1) (i + 2) (j - 1) (j + 2)) = Ok m) /\
  (exists m, np_min (slice2 a (i - 1) (i + 2) (j - 1) (j + 2)) = Ok m).
Proof.
  intros Hrect Hi Hj.
  destruct (slice2_rows a (i - 1) (i + 2) (j - 1) (j + 2) Hrect)
    as [Hrows Hcols]; try lia.
  set (w := slice2 a (i - 1) (i + 2) (j - 1) (j + 2)) in *.
  replace (Z.to_nat (i + 2 - (i - 1))) with 3%nat in Hrows by lia.
  replace (Z.to_nat (j + 2 - (j - 1))) with 3%nat in Hcols by lia.
  destruct w as [|r1 [|r2 [|r3 [|]]]]; try discriminate.
  pose proof (Hcols r1 (or_introl eq_refl)) as H1.
  pose proof (Hcols r2 (or_intror (or_introl eq_refl))) as H2.
  destruct r1 as [|x1 r1]; [discriminate|].
  destruct r2 as [|x2 [|y2 r2]]; try discriminate.
  split; [|split]; [|eexists; reflexivity..].
  exists y2. unfold getitem2. change 1 with (Z.of_nat 1).
  rewrite (list_getitem_lookup [x1 :: r1; x2 :: y2 :: r2; r3] 1 _ eq_refl).
  cbn [mbind result_bind].
  exact (list_getitem_lookup (x2 :: y2 :: r2) 1 _ eq_refl).
Qed.

Lemma scan_pixel_total dt img prev_img next_img threshold i j :
  rectangular img -> same_shape img prev_img -> same_shape img next_img ->
  interior_pixel img (i, j) ->
  exists r, scan_pixel dt img prev_img next_img threshold i j [] = Ok r.
Proof.
  intros Hrect Hprev Hnext [Hi Hj]. cbn [fst snd] in Hi, Hj.
  destruct (window_full img i j Hrect Hi Hj) as [[c Hc] _].
  destruct (window_full prev_img i j) as (_ & [mu Hmu] & _);
    [eapply same_shape_rectangular; eassumption
    |now rewrite <- (same_shape_shape _ _ Hprev)..|].
  destruct (window_full next_img i j) as (_ & _ & [ml Hml]);
    [eapply same_shape_rectangular; eassumption
    |now rewrite <- (same_shape_shape _ _ Hnext)..|].
  destruct (is_local_extremum_accepts _ _ _ _ _ _ Hc Hmu Hml) as (e & He & _).
  destruct (getitem2_in_bounds img i j Hrect) as [cv Hcv]; [lia..|].
  destruct (getitem2_in_bounds img (i + 1) j Hrect) as [a Ha]; [lia..|].
  destruct (getitem2_in_bounds img (i - 1) j Hrect) as [b Hb]; [lia..|].
  destruct (getitem2_in_bounds img i (j + 1) Hrect) as [c' Hc']; [lia..|].
  destruct (getitem2_in_bounds img i (j - 1) Hrect) as [d Hd]; [lia..|].
  destruct (is_edge_point_rule dt img i j default_edge_threshold a b c' d Ha Hb Hc' Hd)
    as (edge & Hedge & _).
  unfold scan_pixel. rewrite He. cbn [mbind result_bind].
  destruct (truthy e); [|eauto]. rewrite Hcv. cbn [mbind result_bind].
  destruct (dt_abs dt cv <? threshold); [eauto|].
  rewrite Hedge. cbn [mbind result_bind]. destruct edge; eauto.
Qed.

Lemma detect_keypoints_in_image_total dt img prev_img next_img threshold :
  rectangular img -> same_shape img prev_img -> same_shape img next_img ->
  exists found, detect_keypoints_in_image dt img prev_img next_img threshold = Ok found.
Proof.
  intros Hrect Hprev Hnext. rewrite detect_keypoints_in_image_eq.
  destruct (map_result_total
              (fun p => scan_pixel dt img prev_img next_img threshold (fst p) (snd p) [])
              (interior_pixels img)) as [rs ->]; [|simpl; eauto].
  intros [i j] Hp. apply In_interior_pixels in Hp. cbn [fst snd].
  now apply scan_pixel_total.
Qed.

Lemma scan_octave_total dt octave_images threshold :
  well_formed_octave octave_images ->
  exists found, scan_octave dt octave_images threshold [] = Ok found.
Proof.
  intros [Huni Hrect]. rewrite scan_octave_eq.
  destruct (map_result_total (scan_scale dt octave_images threshold)
              (enumerate (py_slice octave_images 1 (-1)))) as [rs ->];
    [|simpl; eauto].
  intros [scale img] Hin. apply In_enumerate in Hin as [Hscale Hin].
  apply py_slice_interior_lookup in Hin as [Himg Hlen].
  destruct (lookup_lt_is_Some_2 octave_images (Z.to_nat scale)) as [prev_img Hprev];
    [lia|].
  destruct (lookup_lt_is_Some_2 octave_images (Z.to_nat (scale + 2)))
    as [next_img Hnext]; [lia|].
  assert (Hp : list_getitem octave_images scale = Ok prev_img).
  { pose proof (list_getitem_lookup _ _ _ Hprev) as H.
    now rewrite Z2Nat.id in H by lia. }
  assert (Hn : list_getitem octave_images (scale + 2) = Ok next_img).
  { pose proof (list_getitem_lookup _ _ _ Hnext) as H.
    now rewrite Z2Nat.id in H by lia. }
  unfold scan_scale. cbn [fst snd]. rewrite Hp, Hn. cbn [mbind result_bind].
  assert (Hmem : forall k x, octave_images !! k = Some x -> In x octave_images).
  { intros k x Hk. apply list_elem_of_In. eapply list_elem_of_lookup_2. exact Hk. }
  apply detect_keypoints_in_image_total.
  - eapply Hrect, Hmem, Himg.
  - apply Huni; eapply Hmem; eassumption.
  - apply Huni; eapply Hmem; eassumption.
Qed.

(** X7. On a pyramid whose octaves each hold rectangular images of one
    shape, the detector raises nothing: every index it computes is in
    range and every window it takes a maximum of is non-empty. *)
Theorem detect_keypoints_total dt DoG_pyramid threshold :
  Forall well_formed_octave DoG_pyramid ->
  exists keypoints, detect_keypoints dt DoG_pyramid threshold = Ok keypoints.
Proof.
  intros Hwf. rewrite detect_keypoints_eq.
  destruct (map_result_total
              (fun octave_images => scan_octave dt octave_images threshold [])
              DoG_pyramid) as [rs ->]; [|simpl; eauto].
  intros octave_images Hin. apply scan_octave_total.
  rewrite Forall_forall in Hwf. apply Hwf. now apply list_elem_of_In.
Qed.

Lemma detect_keypoints_returns dt DoG_pyramid threshold :
  Forall well_formed_octave DoG_pyramid ->
  exists keypoints, detect_keypoints dt DoG_pyramid threshold = Ok keypoints.
Proof.
  intros Hwf. rewrite detect_keypoints_eq.
  destruct (map_result_total
              (fun octave_images => scan_octave dt octave_images threshold [])
              DoG_pyramid) as [rs Hrs]; [|rewrite Hrs; simpl; eauto].
  intros octave_images Hin. apply scan_octave_total.
  eapply Forall_forall; [exact Hwf|]. now apply list_elem_of_In.
Qed.

(** Decide, for a pyramid given by its values, that its octaves hold
    images of one shape, and that these are rectangular. *)
Ltac concrete_octave :=
  apply Forall_forall; intros ? Ho; apply list_elem_of_In in Ho; simpl in Ho;
  repeat (destruct Ho as [<-|Ho]; [|]); try destruct Ho.

Ltac concrete_uniform :=
  intros a b Ha Hb; simpl in Ha, Hb; intuition subst; repeat constructor.

Ltac concrete_rectangular :=
  intros a Ha row Hrow; simpl in Ha; intuition subst; simpl in Hrow;
  intuition subst; reflexivity.

Ltac concrete_uniform_octaves := concrete_octave; concrete_uniform.

Ltac concrete_well_formed_octaves :=
  concrete_octave; (split; [concrete_uniform|concrete_rectangular]).

Lemma detect_keypoints_total_witness :
  exists keypoints,
    detect_keypoints uint8
      [[ [[0; 0; 0]; [0; 0; 0]; [0; 0; 0]];
         [[0; 0; 0]; [0; 50; 0]; [0; 30; 0]];
         [[0; 0; 0]; [0; 0; 0]; [0; 0; 0]] ]; [ [[1; 2]] ]] 5 = Ok keypoints.
Proof.
  apply (detect_keypoints_total uint8). concrete_well_formed_octaves.
Defined.

(** * Further properties of the Difference-of-Gaussian generator *)

(** X8. On a pyramid whose octaves each hold images of one shape the
    generator raises nothing and keeps the number of octaves; an octave of
    [n] images yields [n - 1] difference images (none for an empty octave or
    an octave of one image), and image [i] is the element-wise difference
    of images [i + 1] and [i], taken in the arithmetic of the element type. *)
Theorem generate_DoG_pyramid_differences dt gaussian_pyramid :
  Forall uniform_octave gaussian_pyramid ->
  exists DoG_pyramid,
    generate_DoG_pyramid dt gaussian_pyramid = Ok DoG_pyramid /\
    length DoG_pyramid = length gaussian_pyramid /\
    forall o octave, gaussian_pyramid !! o = Some octave ->
      exists DoG_octave,
        DoG_pyramid !! o = Some DoG_octave /\
        length DoG_octave = (length octave - 1)%nat /\
        forall i a b, octave !! i = Some a -> octave !! S i = Some b ->
                      DoG_octave !! i = Some (dtype_difference dt b a).
Proof.
  intros Huni.
  destruct (generate_DoG_pyramid_uniform dt gaussian_pyramid Huni) as (dp & Hrun & Hall).
  exists dp. split; [exact Hrun|]. split; [symmetry; eapply Forall2_length, Hall|].
  intros o octave Ho.
  destruct (Forall2_lookup_l _ _ _ _ _ Hall Ho) as (d & Hd & Hlen & Himg).
  exists d. auto.
Qed.

Lemma generate_DoG_pyramid_differences_witness :
  exists DoG_pyramid,
    generate_DoG_pyramid uint8 [[ [[5; 7]]; [[3; 9]]; [[4; 4]] ]; [ [[1]] ]; []]
    = Ok DoG_pyramid /\
    length DoG_pyramid = length [[ [[5; 7]]; [[3; 9]]; [[4; 4]] ]; [ [[1]] ]; []] /\
    forall o octave,
      [[ [[5; 7]]; [[3; 9]]; [[4; 4]] ]; [ [[1]] ]; []] !! o = Some octave ->
      exists DoG_octave,
        DoG_pyramid !! o = Some DoG_octave /\
        length DoG_octave = (length octave - 1)%nat /\
        forall i a b, octave !! i = Some a -> octave !! S i = Some b ->
                      DoG_octave !! i = Some (dtype_difference uint8 b a).
Proof.
  apply (generate_DoG_pyramid_differences uint8). concrete_uniform_octaves.
Defined.

Lemma same_shape_sym a b : same_shape a b -> same_shape b a.
Proof. unfold same_shape. induction 1; constructor; auto. Qed.

Lemma same_shape_trans a b c : same_shape a b -> same_shape b c -> same_shape a c.
Proof.
  unfold same_shape. intros H. revert c.
  induction H as [|r1 r2 a b Hr _ IH]; intros c Hc; inversion Hc; subst;
    constructor; [congruence|auto].
Qed.

Lemma dtype_difference_same_shape dt b a :
  same_shape b a -> same_shape (dtype_difference dt b a) a.
Proof.
  unfold same_shape, dtype_difference.
  induction 1 as [|r1 r2 b a Hr _ IH]; simpl; constructor; [|exact IH].
  rewrite length_zip_with. lia.
Qed.

Lemma wrap_in_range dt z : in_range dt (wrap dt z).
Proof.
  unfold wrap, in_range. destruct dt.
  - apply Z.mod_pos_bound. lia.
  - apply Z.mod_pos_bound. lia.
  - pose proof (Z.mod_pos_bound (z + 32768) 65536). lia.
Qed.

Lemma In_zip_with {A B C : Type} (g : A -> B -> C) (l : list A) (k : list B) z :
  In z (zip_with g l k) -> exists x y, In x l /\ In y k /\ z = g x y.
Proof.
  revert k; induction l as [|x l IH]; intros [|y k] H; simpl in H;
    try contradiction.
  destruct H as [<-|H]; [exists x, y; simpl; auto|].
  destruct (IH k H) as (x' & y' & Hx & Hy & ->). exists x', y'. simpl. auto.
Qed.

Lemma dtype_difference_in_range dt b a : values_in_range dt (dtype_difference dt b a).
Proof.
  intros row v Hrow Hv. unfold dtype_difference in Hrow.
  apply In_zip_with in Hrow as (r1 & r2 & _ & _ & ->).
  apply In_zip_with in Hv as (x & y & _ & _ & ->). apply wrap_in_range.
Qed.

(** The differences of a well-formed octave form a well-formed octave of
    the same shape, with every value in the range of the element type. *)
Lemma DoG_octave_well_formed dt octave DoG_octave :
  well_formed_octave octave ->
  DoG_octave_of dt octave = Ok DoG_octave ->
  well_formed_octave DoG_octave /\
  (forall d a, In d DoG_octave -> In a octave -> same_shape d a) /\
  (forall d, In d DoG_octave -> values_in_range dt d).
Proof.
  intros [Huni Hrect] Hrun.
  destruct (DoG_octave_of_uniform dt octave Huni) as (ds & Hds & Hlen & Himg).
  rewrite Hrun in Hds. injection Hds as <-.
  assert (Hmem : forall k x, octave !! k = Some x -> In x octave).
  { intros k x Hk. apply list_elem_of_In. eapply list_elem_of_lookup_2. exact Hk. }
  assert (Hfrom : forall d, In d DoG_octave ->
             exists a b, In a octave /\ In b octave /\ d = dtype_difference dt b a).
  { intros d Hd. apply list_elem_of_In, list_elem_of_lookup in Hd as [i Hi].
    pose proof (lookup_lt_Some _ _ _ Hi) as Hlt.
    destruct (lookup_lt_is_Some_2 octave i) as [a Ha]; [lia|].
    destruct (lookup_lt_is_Some_2 octave (S i)) as [b Hb]; [lia|].
    exists a, b. rewrite (Himg _ _ _ Ha Hb) in Hi. injection Hi as <-. eauto. }
  assert (Hshape : forall d a, In d DoG_octave -> In a octave -> same_shape d a).
  { intros d a Hd Ha. destruct (Hfrom d Hd) as (a' & b' & Ha' & Hb' & ->).
    eapply same_shape_trans; [apply dtype_difference_same_shape; now apply Huni|].
    now apply Huni. }
  split; [split|split].
  - intros d1 d2 Hd1 Hd2. destruct (Hfrom d1 Hd1) as (a & _ & Ha & _ & _).
    eapply same_shape_trans; [apply Hshape; eassumption|].
    apply same_shape_sym. now apply Hshape.
  - intros d Hd. destruct (Hfrom d Hd) as (a & _ & Ha & _ & _).
    eapply same_shape_rectangular; [apply same_shape_sym, Hshape; eassumption|].
    now apply Hrect.
  - exact Hshape.
  - intros d Hd. destruct (Hfrom d Hd) as (a & b & _ & _ & ->).
    apply dtype_difference_in_range.
Qed.

(** X9. The difference images of a well-formed pyramid have the shape of
    the images they come from, and every value they hold lies in the range
    of the element type: on uint8 images no difference is negative. *)
Theorem generate_DoG_pyramid_keeps_shape_and_range dt gaussian_pyramid DoG_pyramid :
  Forall well_formed_octave gaussian_pyramid ->
  generate_DoG_pyramid dt gaussian_pyramid = Ok DoG_pyramid ->
  Forall2 (fun octave DoG_octave =>
             forall d, In d DoG_octave ->
               values_in_range dt d /\
               rectangular d /\
               forall a, In a octave -> shape d = shape a)
          gaussian_pyramid DoG_pyramid.
Proof.
  intros Hwf. rewrite generate_DoG_pyramid_eq. intros Hrun.
  apply map_result_Ok in Hrun.
  induction Hrun as [|octave d gp dp Hd _ IH]; [constructor|].
  apply Forall_cons in Hwf as [Ho Hwf]. constructor; [|now apply IH].
  destruct (DoG_octave_well_formed dt octave d Ho Hd) as ([_ Hrect] & Hshape & Hrange).
  intros x Hx. split; [now apply Hrange|]. split; [now apply Hrect|].
  intros a Ha. apply same_shape_shape. now apply Hshape.
Qed.

Lemma generate_DoG_pyramid_keeps_shape_and_range_witness :
  Forall2 (fun octave DoG_octave =>
             forall d, In d DoG_octave ->
               values_in_range uint8 d /\
               rectangular d /\
               forall a, In a octave -> shape d = shape a)
          [[ [[5; 7]]; [[3; 9]]; [[4; 4]] ]] [[ [[254; 2]]; [[1; 251]] ]].
Proof.
  apply (generate_DoG_pyramid_keeps_shape_and_range uint8).
  - concrete_well_formed_octaves.
  - reflexivity.
Defined.

(** X10. The two later stages compose without an exception: from a
    well-formed Gaussian pyramid the generator returns a DoG pyramid, and
    the detector returns a keypoint list for it, for every threshold. *)
Theorem DoG_then_detect_total dt gaussian_pyramid threshold :
  Forall well_formed_octave gaussian_pyramid ->
  exists DoG_pyramid keypoints,
    generate_DoG_pyramid dt gaussian_pyramid = Ok DoG_pyramid /\
    detect_keypoints dt DoG_pyramid threshold = Ok keypoints.
Proof.
  intros Hwf.
  destruct (generate_DoG_pyramid_uniform dt gaussian_pyramid) as (dp & Hdp & _).
  { eapply Forall_impl; [exact Hwf|]. now intros o [Hu _]. }
  assert (Hwf' : Forall well_formed_octave dp).
  { pose proof Hdp as Hrun. rewrite generate_DoG_pyramid_eq in Hrun.
    apply map_result_Ok in Hrun. clear Hdp.
    induction Hrun as [|octave d gp dp' Hd _ IH]; [constructor|].
    apply Forall_cons in Hwf as [Ho Hwf]. constructor; [|now apply IH].
    now destruct (DoG_octave_well_formed dt octave d Ho Hd). }
  destruct (detect_keypoints_returns dt dp threshold Hwf') as [kps Hkps].
  eauto.
Qed.

Lemma DoG_then_detect_total_witness :
  exists DoG_pyramid keypoints,
    generate_DoG_pyramid uint8
      [[ [[0; 0; 0]; [0; 0; 0]; [0; 0; 0]];
         [[0; 0; 0]; [0; 50; 0]; [0; 30; 0]];
         [[0; 0; 0]; [0; 50; 0]; [0; 30; 0]];
         [[0; 0; 0]; [0; 0; 0]; [0; 0; 0]] ]] = Ok DoG_pyramid /\
    detect_keypoints uint8 DoG_pyramid 5 = Ok keypoints.
Proof.
  apply (DoG_then_detect_total uint8). concrete_well_formed_octaves.
Defined.

(** * The pipeline *)

(** ** Where the checked primitives return *)

Lemma Qle_bool_pos s : (0 < s)%Q -> Qle_bool s 0 = false.
Proof.
  intros Hs. destruct (Qle_bool s 0) eqn:E; [|reflexivity].
  apply Qle_bool_iff in E. exfalso. eapply Qlt_not_le; eassumption.
Qed.

Lemma checked_GaussianBlur_returns {Img : Type} (img_shape : Img -> nat * nat)
    blur a s :
  is_empty (img_shape a) = false -> (0 < s)%Q ->
  checked_GaussianBlur img_shape blur a s = Ok (blur a s).
Proof.
  intros Ha Hs. unfold checked_GaussianBlur. now rewrite Ha, Qle_bool_pos.
Qed.

Lemma checked_GaussianBlur_Ok {Img : Type} (img_shape : Img -> nat * nat)
    blur a s b :
  checked_GaussianBlur img_shape blur a s = Ok b -> b = blur a s.
Proof.
  unfold checked_GaussianBlur. destruct (_ || _); [discriminate|].
  intros H. now injection H.
Qed.

Lemma checked_resize_returns {Img : Type} (img_shape : Img -> nat * nat)
    scale a w h interp :
  is_empty (img_shape a) = false -> 0 < w -> 0 < h ->
  checked_resize img_shape scale a (w, h) interp = Ok (scale a (w, h) interp).
Proof.
  intros Ha Hw Hh. unfold checked_resize. cbn [fst snd]. rewrite Ha.
  destruct (w <=? 0) eqn:Ew; [lia|]. destruct (h <=? 0) eqn:Eh; [lia|].
  reflexivity.
Qed.

Lemma checked_resize_Ok {Img : Type} (img_shape : Img -> nat * nat)
    scale a dsize interp b :
  checked_resize img_shape scale a dsize interp = Ok b ->
  b = scale a dsize interp /\ 0 < fst dsize /\ 0 < snd dsize.
Proof.
  unfold checked_resize.
  destruct (is_empty (img_shape a)); [discriminate|].
  destruct (fst dsize <=? 0) eqn:Ew; [discriminate|].
  destruct (snd dsize <=? 0) eqn:Eh; [discriminate|].
  cbn [orb]. intros H. injection H as <-. repeat split; lia.
Qed.

(** ** The builder returns on an image that is large enough *)

Section BuilderReturns.
Context {Img : Type}.
Variable img_shape : Img -> nat * nat.
Variable GaussianBlur : Img -> Q -> result Img.
Variable resize : Img -> Z * Z -> interpolation -> result Img.

(** What the builder needs of the two primitives to get through: a blur of
    a non-empty image with a positive sigma of at most [sigma_max] returns
    (cv2 derives the kernel size from sigma, and fails when sigma is too
    large for one), and a resize of a non-empty image to a positive size
    returns an image of that size. *)
Variable sigma_max : Q.
Hypothesis blur_returns : forall a s,
  is_empty (img_shape a) = false -> (0 < s)%Q -> (s <= sigma_max)%Q ->
  exists b, GaussianBlur a s = Ok b.
Hypothesis resize_returns : forall a w h interp,
  is_empty (img_shape a) = false -> 0 < w -> 0 < h ->
  exists b, resize a (w, h) interp = Ok b /\
            img_shape b = (Z.to_nat h, Z.to_nat w).

Lemma not_empty_shape (shp : nat * nat) :
  0 < Z.of_nat (fst shp) -> 0 < Z.of_nat (snd shp) -> is_empty shp = false.
Proof.
  intros Hr Hc. unfold is_empty. apply orb_false_iff.
  split; apply Nat.eqb_neq; lia.
Qed.

Lemma blurred_scales_returns seed s n :
  is_empty (img_shape seed) = false -> (0 < s)%Q ->
  (doubled s n <= sigma_max)%Q ->
  exists octave, blurred_scales GaussianBlur seed s n = Ok octave.
Proof.
  intros Hseed Hs Hmax. unfold blurred_scales. apply map_result_total.
  intros k Hk. apply in_seq in Hk.
  apply blur_returns; [exact Hseed|now apply doubled_pos|].
  eapply Qle_trans; [|exact Hmax]. apply doubled_le; [exact Hs|lia].
Qed.

(** While the factor's power does not exceed the height and the width of
    the input, every octave iteration completes, and the image carried on
    has the input's size divided by that power. *)
Lemma builder_after_returns image num_scales sigma0 f k :
  1 <= f -> (0 < sigma0)%Q ->
  (doubled sigma0 (Z.to_nat num_scales) <= sigma_max)%Q ->
  (doubled sigma_literal (Z.to_nat num_scales) <= sigma_max)%Q ->
  f ^ Z.of_nat k <= Z.of_nat (fst (img_shape image)) ->
  f ^ Z.of_nat k <= Z.of_nat (snd (img_shape image)) ->
  exists st,
    builder_after img_shape GaussianBlur resize image num_scales sigma0 f k = Ok st /\
    Z.of_nat (fst (img_shape (current_image st)))
    = Z.of_nat (fst (img_shape image)) / f ^ Z.of_nat k /\
    Z.of_nat (snd (img_shape (current_image st)))
    = Z.of_nat (snd (img_shape image)) / f ^ Z.of_nat k.
Proof.
  intros Hf Hsigma Hmax0 Hmax1. induction k as [|k IH]; intros Hrows Hcols.
  - eexists. split; [reflexivity|]. cbn [current_image].
    rewrite Z.pow_0_r, !Z.div_1_r. auto.
  - rewrite Nat2Z.inj_succ, Z.pow_succ_r in Hrows, Hcols by lia.
    assert (Hpow : 0 < f ^ Z.of_nat k) by (apply Z.pow_pos_nonneg; lia).
    destruct IH as (st & Hst & Hh & Hw); [nia|nia|].
    set (rows := Z.of_nat (fst (img_shape image))) in *.
    set (cols := Z.of_nat (snd (img_shape image))) in *.
    assert (Hfh : f <= rows / f ^ Z.of_nat k)
      by (apply Z.div_le_lower_bound; lia).
    assert (Hfw : f <= cols / f ^ Z.of_nat k)
      by (apply Z.div_le_lower_bound; lia).
    assert (Hne : is_empty (img_shape (current_image st)) = false)
      by (apply not_empty_shape; lia).
    destruct (builder_after_state _ _ _ _ _ _ _ _ _ Hst) as [_ Hsig].
    destruct (blurred_scales_returns (current_image st) (sigma st)
                (Z.to_nat num_scales) Hne) as [octave Hoct].
    { rewrite Hsig. destruct k; [exact Hsigma|reflexivity]. }
    { rewrite Hsig. destruct k; [exact Hmax0|exact Hmax1]. }
    destruct (resize_returns (current_image st)
                (Z.of_nat (snd (img_shape (current_image st))) / f)
                (Z.of_nat (fst (img_shape (current_image st))) / f)
                INTER_NEAREST Hne) as (r & Hres & Hshape).
    { rewrite Hw. apply Z.div_str_pos. lia. }
    { rewrite Hh. apply Z.div_str_pos. lia. }
    exists {| current_image := r; sigma := sigma_literal;
              pyramid := pyramid st ++ [octave] |}.
    split.
    + rewrite builder_after_succ, Hst. cbn [mbind result_bind].
      rewrite octave_body_spec, Hoct. cbn [mbind result_bind].
      unfold int_div. destruct (f =? 0) eqn:Ef; [lia|].
      cbn [mbind result_bind]. rewrite !Z.quot_div_nonneg by lia.
      now rewrite Hres.
    + cbn [current_image]. rewrite Hshape. cbn [fst snd].
      rewrite !Z2Nat.id by (apply Z.div_pos; lia).
      rewrite Hh, Hw, Nat2Z.inj_succ, Z.pow_succ_r by lia.
      rewrite !Z.div_div by lia. rewrite (Z.mul_comm f). auto.
Qed.

Lemma build_returns image num_octaves num_scales sigma0 f :
  1 <= f -> (0 < sigma0)%Q ->
  (doubled sigma0 (Z.to_nat num_scales) <= sigma_max)%Q ->
  (doubled sigma_literal (Z.to_nat num_scales) <= sigma_max)%Q ->
  0 <= num_octaves ->
  f ^ num_octaves <= Z.of_nat (fst (img_shape image)) ->
  f ^ num_octaves <= Z.of_nat (snd (img_shape image)) ->
  exists pyr,
    build_scale_space_pyramid img_shape GaussianBlur resize
      image num_octaves num_scales sigma0 f = Ok pyr.
Proof.
  intros Hf Hsigma Hmax0 Hmax1 Ho Hrows Hcols. rewrite build_eq.
  destruct (builder_after_returns image num_scales sigma0 f
              (Z.to_nat num_octaves) Hf Hsigma Hmax0 Hmax1) as (st & -> & _);
    rewrite ?Z2Nat.id by lia; eauto.
Qed.
End BuilderReturns.

Section Pipeline.
Variable dt : dtype.
Variable GaussianBlur : ndarray -> Q -> result ndarray.
Variable resize : ndarray -> Z * Z -> interpolation -> result ndarray.

(** The contracts of the two primitives where they return: a blur keeps
    the shape of its input, a resize gives a rectangular array. *)
Hypothesis blur_shape : forall a s b, GaussianBlur a s = Ok b -> same_shape b a.
Hypothesis resize_rectangular :
  forall a dsize interp b, resize a dsize interp = Ok b -> rectangular b.

(** Where they return: a blur of a non-empty array with a positive sigma
    of at most [sigma_max], and a resize of a non-empty array to a positive
    size, which gives an array of that size. *)
Variable sigma_max : Q.
Hypothesis blur_returns : forall a s,
  is_empty (nd_shape a) = false -> (0 < s)%Q -> (s <= sigma_max)%Q ->
  exists b, GaussianBlur a s = Ok b.
Hypothesis resize_returns : forall a w h interp,
  is_empty (nd_shape a) = false -> 0 < w -> 0 < h ->
  exists b, resize a (w, h) interp = Ok b /\
            nd_shape b = (Z.to_nat h, Z.to_nat w).

Lemma builder_after_rectangular image num_scales sigma0 f k st :
  rectangular image ->
  builder_after nd_shape GaussianBlur resize image num_scales sigma0 f k = Ok st ->
  rectangular (current_image st).
Proof.
  intros Himg. destruct k as [|k]; intros H.
  - injection H as <-. exact Himg.
  - rewrite builder_after_succ in H. bind_inv H.
    apply octave_body_Ok in H as (_ & _ & _ & Hres & _).
    eapply resize_rectangular, Hres.
Qed.

Lemma blurred_scales_well_formed seed s n octave :
  rectangular seed ->
  blurred_scales GaussianBlur seed s n = Ok octave ->
  well_formed_octave octave.
Proof.
  intros Hseed Hoct. apply blurred_scales_Ok in Hoct as [_ Himgs].
  assert (Hin : forall a, In a octave -> same_shape a seed).
  { intros a Ha. apply list_elem_of_In, list_elem_of_lookup in Ha as [k Hk].
    eapply blur_shape, Himgs, Hk. }
  split.
  - intros a b Ha Hb. eapply same_shape_trans; [apply Hin, Hb|].
    apply same_shape_sym, Hin, Ha.
  - intros a Ha. eapply same_shape_rectangular; [apply same_shape_sym, Hin, Ha|].
    exact Hseed.
Qed.

(** Every octave the builder returns is well formed. *)
Lemma build_well_formed image num_octaves num_scales sigma0 f pyr :
  rectangular image ->
  build_scale_space_pyramid nd_shape GaussianBlur resize
    image num_octaves num_scales sigma0 f = Ok pyr ->
  Forall well_formed_octave pyr.
Proof.
  intros Himg Hbuild. apply Forall_forall. intros octave Hin.
  apply list_elem_of_lookup in Hin as [o Ho].
  pose proof Hbuild as H. rewrite build_eq in H. bind_inv H. injection H as <-.
  destruct (builder_after_state _ _ _ _ _ _ _ _ _ Ha) as [Hlen _].
  pose proof (lookup_lt_Some _ _ _ Ho) as Hlt. rewrite Hlen in Hlt.
  destruct (builder_after_prefix _ _ _ _ _ _ _ _ _ o Ha) as [st_o Hst_o]; [lia|].
  destruct (builder_after_octave _ _ _ _ _ _ _ _ _ _ _ Ha Hlt Hst_o)
    as (octave' & Hlook & Hscales).
  rewrite Hlook in Ho. injection Ho as <-.
  eapply blurred_scales_well_formed; [|exact Hscales].
  eapply builder_after_rectangular; eassumption.
Qed.

(** The builder of the pipeline returns on an image that is large enough
    for the octaves asked for. *)
Lemma pipeline_build_returns image num_octaves num_scales sigma0 f :
  1 <= f -> (0 < sigma0)%Q ->
  (doubled sigma0 (Z.to_nat num_scales) <= sigma_max)%Q ->
  (doubled sigma_literal (Z.to_nat num_scales) <= sigma_max)%Q ->
  0 <= num_octaves ->
  f ^ num_octaves <= fst (shape image) ->
  f ^ num_octaves <= snd (shape image) ->
  exists pyr,
    build_scale_space_pyramid nd_shape GaussianBlur resize
      image num_octaves num_scales sigma0 f = Ok pyr.
Proof.
  intros Hf Hsigma Hmax0 Hmax1 Ho Hrows Hcols.
  apply (build_returns nd_shape GaussianBlur resize sigma_max
           blur_returns resize_returns);
    assumption.
Qed.

(** X11. With primitives that honour their contracts, a rectangular input,
    a positive sigma, sigmas that stay within the range of the blur (the
    largest value the variable [sigma] takes is the initial one doubled
    [num_scales] times), a downsampling factor of at least 1 and an input of
    at least [factor ^ num_octaves] rows and columns (so that every resize
    of the builder, the one after the last octave included, asks for a
    positive size), the three stages run to the end: no call of cv2 and
    none of the index computations, subtractions or window maxima of the
    module raises, for any threshold. *)
Theorem pipeline_total image num_octaves num_scales sigma0 f threshold :
  rectangular image -> 1 <= f -> (0 < sigma0)%Q ->
  (doubled sigma0 (Z.to_nat num_scales) <= sigma_max)%Q ->
  (doubled sigma_literal (Z.to_nat num_scales) <= sigma_max)%Q ->
  0 <= num_octaves ->
  f ^ num_octaves <= fst (shape image) ->
  f ^ num_octaves <= snd (shape image) ->
  exists keypoints,
    pipeline dt GaussianBlur resize image num_octaves num_scales sigma0 f threshold
    = Ok keypoints.
Proof.
  intros Himg Hf Hsigma Hmax0 Hmax1 Ho Hrows Hcols. unfold pipeline.
  destruct (pipeline_build_returns image num_octaves num_scales sigma0 f
              Hf Hsigma Hmax0 Hmax1 Ho Hrows Hcols) as [pyr Hbuild].
  rewrite Hbuild. cbn [mbind result_bind].
  pose proof (build_well_formed _ _ _ _ _ _ Himg Hbuild) as Hwf.
  destruct (generate_DoG_pyramid_uniform dt pyr) as (dp & Hdp & _).
  { eapply Forall_impl; [exact Hwf|]. now intros o [Hu _]. }
  rewrite Hdp. cbn [mbind result_bind].
  apply detect_keypoints_returns.
  rewrite generate_DoG_pyramid_eq in Hdp. apply map_result_Ok in Hdp.
  clear Hbuild. induction Hdp as [|octave d gp dp' Hd _ IH]; [constructor|].
  apply Forall_cons in Hwf as [Hoct Hwf]. constructor; [|now apply IH].
  now destruct (DoG_octave_well_formed dt octave d Hoct Hd).
Qed.

(** X12. Under the conditions of X11, with fewer than four scales per
    octave the pipeline reports no keypoint: each octave then has at most
    two difference images, and none of them has a scale before and a scale
    after it. *)
Theorem pipeline_needs_four_scales image num_octaves num_scales sigma0 f threshold :
  rectangular image -> 1 <= f -> (0 < sigma0)%Q ->
  (doubled sigma0 (Z.to_nat num_scales) <= sigma_max)%Q ->
  (doubled sigma_literal (Z.to_nat num_scales) <= sigma_max)%Q ->
  0 <= num_octaves ->
  f ^ num_octaves <= fst (shape image) ->
  f ^ num_octaves <= snd (shape image) ->
  num_scales <= 3 ->
  pipeline dt GaussianBlur resize image num_octaves num_scales sigma0 f threshold
  = Ok [].
Proof.
  intros Himg Hf Hsigma Hmax0 Hmax1 Ho Hrows Hcols Hscales. unfold pipeline.
  destruct (pipeline_build_returns image num_octaves num_scales sigma0 f
              Hf Hsigma Hmax0 Hmax1 Ho Hrows Hcols) as [pyr Hbuild].
  rewrite Hbuild. cbn [mbind result_bind].
  pose proof (build_well_formed _ _ _ _ _ _ Himg Hbuild) as Hwf.
  assert (Hlen : Forall (fun octave => (length octave <= 3)%nat) pyr).
  { apply Forall_forall. intros octave Hin.
    apply list_elem_of_lookup in Hin as [o Hlook].
    destruct (build_octave_images _ _ _ _ _ _ _ _ _ _ _ Hbuild Hlook)
      as [seed Hseed].
    apply blurred_scales_Ok in Hseed as [Hn _]. lia. }
  destruct (generate_DoG_pyramid_uniform dt pyr) as (dp & Hdp & Hall).
  { eapply Forall_impl; [exact Hwf|]. now intros o [Hu _]. }
  rewrite Hdp. cbn [mbind result_bind].
  apply detect_keypoints_short_octaves_all.
  clear Hbuild Hdp Hwf.
  induction Hall as [|octave d gp dp' [Hd _] _ IH]; [constructor|].
  apply Forall_cons in Hlen as [Hoct Hlen]. constructor; [lia|now apply IH].
Qed.
End Pipeline.

Lemma same_shape_refl a : same_shape a a.
Proof. unfold same_shape. induction a; constructor; auto. Qed.

Lemma stub_resize_rectangular a dsize interp : rectangular (stub_resize a dsize interp).
Proof.
  unfold stub_resize, rectangular, shape. intros row Hrow. cbn [snd].
  apply list_elem_of_In, elem_of_replicate in Hrow as [-> Hn].
  destruct (Z.to_nat (snd dsize)); [lia|]. reflexivity.
Qed.

(** The stand-ins honour the contracts of the primitives. *)
Lemma stub_GaussianBlur_shape a s b :
  stub_GaussianBlur a s = Ok b -> same_shape b a.
Proof.
  intros H. apply checked_GaussianBlur_Ok in H as ->. apply same_shape_refl.
Qed.

Lemma stub_GaussianBlur_returns a s :
  is_empty (nd_shape a) = false -> (0 < s)%Q -> (s <= 100)%Q ->
  exists b, stub_GaussianBlur a s = Ok b.
Proof.
  intros Ha Hs _. eexists. now apply checked_GaussianBlur_returns.
Qed.

Lemma stub_cv_resize_rectangular a dsize interp b :
  stub_cv_resize a dsize interp = Ok b -> rectangular b.
Proof.
  intros H. apply checked_resize_Ok in H as [-> _].
  apply stub_resize_rectangular.
Qed.

Lemma stub_cv_resize_returns a w h interp :
  is_empty (nd_shape a) = false -> 0 < w -> 0 < h ->
  exists b, stub_cv_resize a (w, h) interp = Ok b /\
            nd_shape b = (Z.to_nat h, Z.to_nat w).
Proof.
  intros Ha Hw Hh. eexists. split; [now apply checked_resize_returns|].
  unfold stub_resize, nd_shape. cbn [fst snd]. rewrite length_replicate.
  destruct (Z.to_nat h) eqn:E; [lia|]. cbn. now rewrite length_replicate.
Qed.

Lemma pipeline_total_witness :
  exists keypoints,
    pipeline uint8 stub_GaussianBlur stub_cv_resize
      [[0; 0; 0; 0]; [0; 50; 0; 0]; [0; 30; 90; 0]; [0; 0; 50; 0]] 2 4 1.6 2 5
    = Ok keypoints.
Proof.
  apply (pipeline_total uint8 stub_GaussianBlur stub_cv_resize
           stub_GaussianBlur_shape stub_cv_resize_rectangular
           100 stub_GaussianBlur_returns stub_cv_resize_returns).
  - intros row Hrow. simpl in Hrow. intuition subst; reflexivity.
  - lia.
  - reflexivity.
  - discriminate.
  - discriminate.
  - lia.
  - simpl. lia.
  - simpl. lia.
Defined.

Lemma pipeline_needs_four_scales_witness :
  pipeline uint8 stub_GaussianBlur stub_cv_resize
    [[0; 0; 0; 0]; [0; 50; 0; 0]; [0; 30; 90; 0]; [0; 0; 50; 0]] 2 3 1.6 2 5
  = Ok [].
Proof.
  apply (pipeline_needs_four_scales uint8 stub_GaussianBlur stub_cv_resize
           stub_GaussianBlur_shape stub_cv_resize_rectangular
           100 stub_GaussianBlur_returns stub_cv_resize_returns).
  - intros row Hrow. simpl in Hrow. intuition subst; reflexivity.
  - lia.
  - reflexivity.
  - discriminate.
  - discriminate.
  - lia.
  - simpl. lia.
  - simpl. lia.
  - lia.
Defined.

(** * Further properties of the pyramid builder *)

Section BuilderSchedule.
Context {Img : Type}.
Variable img_shape : Img -> nat * nat.
Variable GaussianBlur : Img -> Q -> result Img.
Variable resize : Img -> Z * Z -> interpolation -> result Img.

(** X13. The sigma schedule of the code: image [s] of octave [o] is a blur
    of the octave's seed with [sigma * 2^s], where [sigma] is the caller's
    in the first octave and the literal 1.6 in every later octave; all
    images of an octave are blurs of one and the same seed. *)
Theorem build_sigma_schedule image num_octaves num_scales sigma0 f pyr o octave :
  build_scale_space_pyramid img_shape GaussianBlur resize
    image num_octaves num_scales sigma0 f = Ok pyr ->
  pyr !! o = Some octave ->
  exists seed,
    forall s img, octave !! s = Some img ->
      exists sigma_s,
        GaussianBlur seed sigma_s = Ok img /\
        (sigma_s == (if decide (o = 0%nat) then sigma0 else sigma_literal)
                    * 2 ^ Z.of_nat s)%Q.
Proof.
  intros Hbuild Ho.
  destruct (build_octave_images _ _ _ _ _ _ _ _ _ _ _ Hbuild Ho) as [seed Hseed].
  apply blurred_scales_Ok in Hseed as [_ Himgs].
  exists seed. intros s img Hs.
  exists (doubled (octave_sigma sigma0 o) s). split; [now apply Himgs|].
  rewrite doubled_spec. destruct o; reflexivity.
Qed.

(** The image carried into octave [k] has the input's height and width
    divided by the [k]-th power of the factor, rounded down. *)
Lemma builder_after_shape image num_scales sigma0 f k st :
  (forall img w h interp r,
     resize img (w, h) interp = Ok r -> img_shape r = (Z.to_nat h, Z.to_nat w)) ->
  1 <= f ->
  builder_after img_shape GaussianBlur resize image num_scales sigma0 f k = Ok st ->
  Z.of_nat (fst (img_shape (current_image st)))
  = Z.of_nat (fst (img_shape image)) / f ^ Z.of_nat k /\
  Z.of_nat (snd (img_shape (current_image st)))
  = Z.of_nat (snd (img_shape image)) / f ^ Z.of_nat k.
Proof.
  intros Hresize Hf. revert st; induction k as [|k IH]; intros st H.
  - injection H as <-. cbn [current_image]. rewrite Z.pow_0_r, !Z.div_1_r. auto.
  - rewrite builder_after_succ in H. bind_inv H.
    destruct (IH _ Ha) as [Hh Hw].
    apply octave_body_Ok in H as (_ & _ & _ & Hres & _).
    rewrite !Z.quot_div_nonneg in Hres by lia.
    rewrite (Hresize _ _ _ _ _ Hres). cbn [fst snd].
    rewrite !Z2Nat.id by (apply Z.div_pos; lia).
    rewrite Hh, Hw, Nat2Z.inj_succ, Z.pow_succ_r by lia.
    rewrite !Z.div_div by (try apply Z.pow_pos_nonneg; lia).
    rewrite (Z.mul_comm f). auto.
Qed.

(** X14. Resolution of the octaves: with a factor of at least 1, a blur
    that keeps the shape and a resize that yields the requested size,
    every image of octave [k] of a returned pyramid has the height and the
    width of the input divided by [factor^k], rounded down. *)
Theorem build_octave_resolution image num_octaves num_scales sigma0 f pyr k octave img :
  (forall a s b, GaussianBlur a s = Ok b -> img_shape b = img_shape a) ->
  (forall a w h interp r,
     resize a (w, h) interp = Ok r -> img_shape r = (Z.to_nat h, Z.to_nat w)) ->
  1 <= f ->
  build_scale_space_pyramid img_shape GaussianBlur resize
    image num_octaves num_scales sigma0 f = Ok pyr ->
  pyr !! k = Some octave ->
  In img octave ->
  Z.of_nat (fst (img_shape img)) = Z.of_nat (fst (img_shape image)) / f ^ Z.of_nat k /\
  Z.of_nat (snd (img_shape img)) = Z.of_nat (snd (img_shape image)) / f ^ Z.of_nat k.
Proof.
  intros Hblur Hresize Hf Hbuild Hk Himg.
  pose proof Hbuild as H. rewrite build_eq in H. bind_inv H. injection H as <-.
  destruct (builder_after_state _ _ _ _ _ _ _ _ _ Ha) as [Hlen _].
  pose proof (lookup_lt_Some _ _ _ Hk) as Hlt. rewrite Hlen in Hlt.
  destruct (builder_after_prefix _ _ _ _ _ _ _ _ _ k Ha) as [st_k Hst_k]; [lia|].
  destruct (builder_after_octave _ _ _ _ _ _ _ _ _ _ _ Ha Hlt Hst_k)
    as (octave' & Hlook & Hscales).
  rewrite Hlook in Hk. injection Hk as <-.
  apply blurred_scales_Ok in Hscales as [_ Himgs].
  apply list_elem_of_In, list_elem_of_lookup in Himg as [s Hs].
  rewrite (Hblur _ _ _ (Himgs _ _ Hs)).
  eapply builder_after_shape; eassumption.
Qed.

(** X15. Asking for more octaves does not change the octaves already
    there: the pyramid built for [n] octaves is the first [n] octaves of
    the pyramid built for any larger count. *)
Theorem build_octaves_prefix image n n' num_scales sigma0 f pyr pyr' :
  n <= n' ->
  build_scale_space_pyramid img_shape GaussianBlur resize
    image n num_scales sigma0 f = Ok pyr ->
  build_scale_space_pyramid img_shape GaussianBlur resize
    image n' num_scales sigma0 f = Ok pyr' ->
  pyr = take (Z.to_nat n) pyr'.
Proof.
  intros Hn Hb Hb'. rewrite build_eq in Hb, Hb'. bind_inv Hb. bind_inv Hb'.
  injection Hb as <-. injection Hb' as <-.
  eapply builder_after_pyramid_prefix; [exact Ha0|lia|exact Ha].
Qed.
End BuilderSchedule.

Lemma build_sigma_schedule_witness :
  exists seed,
    forall s img,
      [Blur (Resize (Source 8 8) (4, 4) INTER_NEAREST) 1.6;
       Blur (Resize (Source 8 8) (4, 4) INTER_NEAREST) 3.2] !! s = Some img ->
      exists sigma_s,
        sym_GaussianBlur seed sigma_s = Ok img /\
        (sigma_s == (if decide (1%nat = 0%nat) then 1 else sigma_literal)
                    * 2 ^ Z.of_nat s)%Q.
Proof.
  apply (build_sigma_schedule sym_shape sym_GaussianBlur sym_resize
           (Source 8 8) 2 2 1 2
           [[Blur (Source 8 8) 1; Blur (Source 8 8) 2];
            [Blur (Resize (Source 8 8) (4, 4) INTER_NEAREST) 1.6;
             Blur (Resize (Source 8 8) (4, 4) INTER_NEAREST) 3.2]] 1%nat).
  - reflexivity.
  - reflexivity.
Defined.

Lemma sym_GaussianBlur_shape a s b :
  sym_GaussianBlur a s = Ok b -> sym_shape b = sym_shape a.
Proof. intros H. now apply checked_GaussianBlur_Ok in H as ->. Qed.

Lemma sym_resize_shape a w h interp r :
  sym_resize a (w, h) interp = Ok r -> sym_shape r = (Z.to_nat h, Z.to_nat w).
Proof. intros H. now apply checked_resize_Ok in H as [-> _]. Qed.

Lemma build_octave_resolution_witness :
  let seed2 := Resize (Resize (Source 16 12) (6, 8) INTER_NEAREST)
                 (3, 4) INTER_NEAREST in
  Z.of_nat (fst (sym_shape (Blur seed2 1.6)))
  = Z.of_nat (fst (sym_shape (Source 16 12))) / 2 ^ Z.of_nat 2 /\
  Z.of_nat (snd (sym_shape (Blur seed2 1.6)))
  = Z.of_nat (snd (sym_shape (Source 16 12))) / 2 ^ Z.of_nat 2.
Proof.
  intros seed2.
  apply (build_octave_resolution sym_shape sym_GaussianBlur sym_resize
           (Source 16 12) 3 1 1 2
           [[Blur (Source 16 12) 1];
            [Blur (Resize (Source 16 12) (6, 8) INTER_NEAREST) 1.6];
            [Blur seed2 1.6]]
           2%nat [Blur seed2 1.6]).
  - apply sym_GaussianBlur_shape.
  - apply sym_resize_shape.
  - lia.
  - reflexivity.
  - reflexivity.
  - simpl. auto.
Defined.

Lemma build_octaves_prefix_witness :
  [[Blur (Source 16 12) 1]]
  = take (Z.to_nat 1)
      [[Blur (Source 16 12) 1];
       [Blur (Resize (Source 16 12) (6, 8) INTER_NEAREST) 1.6];
       [Blur (Resize (Resize (Source 16 12) (6, 8) INTER_NEAREST)
                (3, 4) INTER_NEAREST) 1.6]].
Proof.
  apply (build_octaves_prefix sym_shape sym_GaussianBlur sym_resize
           (Source 16 12) 1 3 1 1 2).
  - lia.
  - reflexivity.
  - reflexivity.
Defined.

(** *** The calls the builder makes *)

Lemma count_calls_app kind tr1 tr2 :
  count_calls kind (tr1 ++ tr2)
  = (count_calls kind tr1 + count_calls kind tr2)%nat.
Proof. unfold count_calls. now rewrite List.filter_app, length_app. Qed.

Section StoreCalls.
Context {Img : Type}.
Variable img_shape : Img -> nat * nat.
Variable GaussianBlur : Img -> Q -> result Img.
Variable resize : Img -> Z * Z -> interpolation -> result Img.

(** A scale loop that returns has made one blur call per scale and nothing
    else. *)
Lemma scale_loop_calls (l : list Z) :
  forall (h h' : Store.store Img) cur v octave s r,
    holds h cur v ->
    Store.for_each_st l (Store.scale_body GaussianBlur cur) (octave, s) h
    = (Ok r, h') ->
    exists octave' tr,
      r = (octave ++ octave', doubled s (length l)) /\
      Store.trace h' = Store.trace h ++ tr /\
      count_calls is_blur tr = length l /\
      count_calls is_resize tr = 0%nat /\
      length (Store.objects h') = (length (Store.objects h) + length l)%nat /\
      holds h' cur v /\
      Forall (fun r => (r < length (Store.objects h'))%nat) octave'.
Proof.
  induction l as [|x l IH]; intros h h' cur v octave s r Hcur Hrun.
  - cbv [Store.for_each_st Store.ret] in Hrun. injection Hrun as <- <-.
    exists [], []. rewrite !app_nil_r. cbn [length]. rewrite Nat.add_0_r.
    repeat split; [exact Hcur|constructor].
  - destruct (GaussianBlur v s) as [b|e] eqn:Hb.
    2:{ rewrite (scale_step_raise _ _ _ _ _ _ _ _ _ Hcur Hb) in Hrun.
        discriminate. }
    rewrite (scale_step_run _ _ _ _ _ _ _ _ _ Hcur Hb) in Hrun.
    set (h1 := {| Store.objects := Store.objects h ++ [b];
                  Store.trace := _ |}) in Hrun.
    assert (Hcur1 : holds h1 cur v)
      by (eapply holds_extend; [reflexivity|exact Hcur]).
    destruct (IH h1 h' cur v (octave ++ [length (Store.objects h)]) (s * 2)%Q r
                Hcur1 Hrun)
      as (octave' & tr & -> & Htr & Hblur & Hres & Hlen & Hcur' & Hfresh).
    exists (length (Store.objects h) :: octave'),
      (Store.Blurred cur s (length (Store.objects h)) :: tr).
    cbn [Store.objects Store.trace h1] in Htr, Hlen. rewrite length_app in Hlen.
    cbn [length] in Hlen |- *.
    split; [now rewrite <- doubled_succ, <- app_assoc|].
    split; [now rewrite Htr, <- app_assoc|].
    unfold count_calls in *. cbn [List.filter is_blur is_resize length].
    repeat split; try lia; [exact Hcur'|].
    constructor; [lia|exact Hfresh].
Qed.

(** An octave iteration that returns has made [num_scales] blur calls and
    then one resize call; the array that resize allocated is the newest of
    the store, and it is what the loop carries on. *)
Lemma octave_body_calls (h h' : Store.store Img) st st' v num_scales f k :
  holds h (Store.current_image st) v ->
  S (Store.current_image st) = length (Store.objects h) ->
  Forall (Forall (fun r => (r < Store.current_image st)%nat)) (Store.pyramid st) ->
  Store.octave_body img_shape GaussianBlur resize num_scales f k st h = (Ok st', h') ->
  exists tr0 e,
    Store.trace h' = Store.trace h ++ tr0 ++ [e] /\
    count_calls is_blur tr0 = Z.to_nat num_scales /\
    count_calls is_resize tr0 = 0%nat /\
    is_resize e = true /\
    Store.event_dst e = Store.current_image st' /\
    length (Store.objects h')
    = (length (Store.objects h) + Z.to_nat num_scales + 1)%nat /\
    S (Store.current_image st') = length (Store.objects h') /\
    (exists v', holds h' (Store.current_image st') v') /\
    Forall (Forall (fun r => (r < Store.current_image st')%nat)) (Store.pyramid st').
Proof.
  intros Hcur Hnew Hpyr Hrun.
  destruct (Store.for_each_st (py_range 0 num_scales)
              (Store.scale_body GaussianBlur (Store.current_image st))
              ([], Store.sigma st) h) as [[r|e] h1] eqn:Hloop.
  2:{ rewrite (store_octave_body_raise _ _ _ _ _ _ _ _ _ _ Hloop) in Hrun.
      discriminate. }
  destruct (scale_loop_calls _ _ _ _ _ _ _ _ Hcur Hloop)
    as (octave' & tr & -> & Htr & Hblur & Hres & Hlen & Hcur1 & Hfresh).
  rewrite length_py_range, Z.sub_0_r in *. cbn [app] in Hloop.
  rewrite (store_octave_body_run _ _ _ _ _ _ _ _ _ _ _ Hloop Hcur1) in Hrun.
  destruct (f =? 0); [discriminate|].
  destruct (resize v _ INTER_NEAREST) as [w|e]; [|discriminate].
  injection Hrun as <- <-.
  eexists tr, _.
  cbn [Store.objects Store.trace Store.current_image Store.pyramid
         Store.event_dst fst].
  split; [rewrite Htr, <- app_assoc; reflexivity|].
  rewrite length_app. cbn [length is_resize].
  repeat split; try lia.
  - exists w. unfold holds. cbn [Store.objects].
    rewrite lookup_app_r by lia. now rewrite Nat.sub_diag.
  - apply Forall_app. split.
    + eapply Forall_impl; [exact Hpyr|]. cbn beta. intros octave Hoct.
      eapply Forall_impl; [exact Hoct|]. cbn beta. intros r Hlt. lia.
    + constructor; [|constructor].
      eapply Forall_impl; [exact Hfresh|]. cbn beta. intros r Hlt. lia.
Qed.

Lemma octave_loop_calls (l : list Z) num_scales f :
  forall (h h' : Store.store Img) st st' v,
    holds h (Store.current_image st) v ->
    S (Store.current_image st) = length (Store.objects h) ->
    Forall (Forall (fun r => (r < Store.current_image st)%nat)) (Store.pyramid st) ->
    Store.for_each_st l
      (Store.octave_body img_shape GaussianBlur resize num_scales f) st h
    = (Ok st', h') ->
    exists tr,
      Store.trace h' = Store.trace h ++ tr /\
      count_calls is_blur tr = (length l * Z.to_nat num_scales)%nat /\
      count_calls is_resize tr = length l /\
      (l <> [] -> exists tr0 e, tr = tr0 ++ [e] /\ is_resize e = true /\
                                Store.event_dst e = Store.current_image st') /\
      length (Store.objects h')
      = (length (Store.objects h) + length l * (Z.to_nat num_scales + 1))%nat /\
      Forall (Forall (fun r => (r < Store.current_image st')%nat)) (Store.pyramid st').
Proof.
  induction l as [|x l IH]; intros h h' st st' v Hcur Hnew Hpyr Hrun.
  - cbv [Store.for_each_st Store.ret] in Hrun. injection Hrun as <- <-.
    exists []. rewrite app_nil_r. cbn [length]. repeat split; try lia;
      [congruence|exact Hpyr].
  - cbn [Store.for_each_st] in Hrun. rewrite bind_run in Hrun.
    destruct (Store.octave_body img_shape GaussianBlur resize num_scales f x st h)
      as [[st1|e1] h1] eqn:Hbody; [|discriminate].
    destruct (octave_body_calls _ _ _ _ _ _ _ _ Hcur Hnew Hpyr Hbody)
      as (tr0 & e & Htr & Hblur & Hres & He & Hdst & Hlen & Hnew1
          & [v1 Hcur1] & Hpyr1).
    destruct (IH h1 h' st1 st' v1 Hcur1 Hnew1 Hpyr1 Hrun)
      as (tr & Htr' & Hblur' & Hres' & Hlast & Hlen' & Hpyr').
    exists ((tr0 ++ [e]) ++ tr).
    split; [rewrite Htr', Htr; now rewrite <- !app_assoc|].
    rewrite !count_calls_app, Hblur, Hres, Hblur', Hres'. cbn [length].
    assert (Hb1 : count_calls is_blur [e] = 0%nat)
      by (unfold count_calls; destruct e; try discriminate; reflexivity).
    assert (Hr1 : count_calls is_resize [e] = 1%nat)
      by (unfold count_calls; destruct e; try discriminate; reflexivity).
    rewrite Hb1, Hr1.
    split; [lia|]. split; [lia|]. split; [|split; [lia|exact Hpyr']].
    intros _. destruct l as [|y l].
    + exists tr0, e. cbv [Store.for_each_st Store.ret] in Hrun.
      injection Hrun as <- <-.
      rewrite <- (app_nil_r (Store.trace h1)) in Htr' at 1.
      apply app_inv_head in Htr' as <-. rewrite app_nil_r. auto.
    + destruct Hlast as (tr1 & e' & -> & He' & Hdst'); [discriminate|].
      exists ((tr0 ++ [e]) ++ tr1), e'. now rewrite <- !app_assoc.
Qed.

(** X16. What a call of the builder that returns has asked of cv2: after
    the copy of the input it has made exactly [num_octaves * num_scales]
    blur calls and [num_octaves] resize calls, and has allocated one array
    for each; the last call is the resize after the last octave, whose
    result is not part of the returned pyramid. *)
Theorem build_call_counts (h0 h' : Store.store Img) image v
    num_octaves num_scales sigma0 f refs :
  holds h0 image v ->
  Store.build_scale_space_pyramid img_shape GaussianBlur resize
    image num_octaves num_scales sigma0 f h0 = (Ok refs, h') ->
  exists rest,
    Store.trace h'
    = Store.trace h0 ++ Store.Copied image (length (Store.objects h0)) :: rest /\
    count_calls is_blur rest = (Z.to_nat num_octaves * Z.to_nat num_scales)%nat /\
    count_calls is_resize rest = Z.to_nat num_octaves /\
    length (Store.objects h')
    = (length (Store.objects h0) + 1
       + Z.to_nat num_octaves * (Z.to_nat num_scales + 1))%nat /\
    (1 <= num_octaves ->
     exists rest0 e,
       rest = rest0 ++ [e] /\ is_resize e = true /\
       Forall (Forall (fun r => r <> Store.event_dst e)) refs).
Proof.
  intros Hv Hrun. unfold Store.build_scale_space_pyramid in Hrun.
  rewrite bind_run in Hrun. unfold Store.np_copy in Hrun.
  rewrite (primitive_run _ _ _ _ _ _ Hv eq_refl) in Hrun.
  rewrite bind_run in Hrun.
  set (h1 := {| Store.objects := _; Store.trace := _ |}) in Hrun.
  set (st := {| Store.current_image := _; Store.sigma := _; Store.pyramid := _ |})
    in Hrun.
  destruct (Store.for_each_st (py_range 0 num_octaves)
              (Store.octave_body img_shape GaussianBlur resize num_scales f) st h1)
    as [[st'|e] h2] eqn:Hloop; [|discriminate].
  cbv [Store.ret] in Hrun. injection Hrun as <- <-.
  assert (Hcur : holds h1 (Store.current_image st) v).
  { unfold holds. cbn [Store.objects h1 Store.current_image st].
    rewrite lookup_app_r by lia. now rewrite Nat.sub_diag. }
  assert (Hnew : S (Store.current_image st) = length (Store.objects h1)).
  { cbn [Store.objects h1 Store.current_image st]. rewrite length_app. simpl. lia. }
  assert (Hfresh : Forall (Forall (fun r => (r < Store.current_image st)%nat))
                     (Store.pyramid st)) by constructor.
  destruct (octave_loop_calls _ _ _ _ _ _ _ _ Hcur Hnew Hfresh Hloop)
    as (rest & Htr & Hblur & Hres & Hlast & Hlen & Hpyr).
  rewrite length_py_range, Z.sub_0_r in *.
  exists rest.
  cbn [Store.objects Store.trace h1] in Htr, Hlen. rewrite length_app in Hlen.
  cbn [length] in Hlen.
  split; [now rewrite Htr, <- app_assoc|].
  repeat split; try lia.
  intros Hn. destruct Hlast as (rest0 & e & -> & He & Hdst).
  { intros Hnil. apply (f_equal length) in Hnil. rewrite length_py_range in Hnil.
    simpl in Hnil. lia. }
  exists rest0, e. repeat split; [exact He|].
  eapply Forall_impl; [exact Hpyr|]. cbn beta. intros octave Hoct.
  eapply Forall_impl; [exact Hoct|]. cbn beta. intros r Hlt. lia.
Qed.
End StoreCalls.

Lemma build_call_counts_witness :
  let h0 := {| Store.objects := [Source 1 1; Source 9 9]; Store.trace := [] |} in
  let run := Store.build_scale_space_pyramid sym_shape sym_GaussianBlur sym_resize
               1%nat 2 3 1 2 h0 in
  let refs := [[3; 4; 5]; [7; 8; 9]]%nat in
  fst run = Ok refs /\
  exists rest,
    Store.trace (snd run) = [] ++ Store.Copied 1%nat 2%nat :: rest /\
    count_calls is_blur rest = (Z.to_nat 2 * Z.to_nat 3)%nat /\
    count_calls is_resize rest = Z.to_nat 2 /\
    length (Store.objects (snd run)) = (2 + 1 + Z.to_nat 2 * (Z.to_nat 3 + 1))%nat /\
    (1 <= 2 ->
     exists rest0 e,
       rest = rest0 ++ [e] /\ is_resize e = true /\
       Forall (Forall (fun r => r <> Store.event_dst e)) refs).
Proof.
  intros h0 run refs. split; [vm_compute; reflexivity|].
  apply (build_call_counts sym_shape sym_GaussianBlur sym_resize
           h0 (snd run) 1%nat (Source 9 9) 2 3 1 2 refs).
  - reflexivity.
  - vm_compute. reflexivity.
Defined.

(** * playground/Face_detec&Rec.py *)

Lemma enumerate_from_0 {A : Type} (l : list A) : enumerate l = enumerate_from 0 l.
Proof. reflexivity. Qed.

Lemma enumerate_from_cons {A : Type} (n : nat) (x : A) (l : list A) :
  enumerate_from n (x :: l) = (Z.of_nat n, x) :: enumerate_from (S n) l.
Proof.
  unfold enumerate_from. rewrite imap_cons, Nat.add_0_r. f_equal.
  apply imap_ext. intros k y _. cbn. do 2 f_equal. lia.
Qed.

Section FaceProperties.
Context {Raw Img : Type}.
Variable listdir : string -> list string.
Variable join : string -> string -> string.
Variable imread : string -> Raw.
Variable cv_resize : Raw -> Z * Z -> Raw.
Variable flatten : Raw -> Img.
Variable PCA_APPLY : Img -> list string * list string * Z.

Lemma folder_loop (label subdir_path : string) (files image_paths labels : list string) :
  foldl (fun '(image_paths, labels) filename =>
           let labels := labels ++ [label] in
           let image_path := join subdir_path filename in
           (image_paths ++ [image_path], labels))
        (image_paths, labels) files
  = (image_paths ++ map (join subdir_path) files,
     labels ++ map (fun _ => label) files).
Proof.
  revert image_paths labels; induction files as [|f files IH];
    intros image_paths labels; cbn [foldl map].
  - now rewrite !app_nil_r.
  - rewrite IH, <- !app_assoc. reflexivity.
Qed.

Lemma get_image_paths_eq path :
  get_image_paths listdir join path
  = (concat (map (fun d => map (join (join path d)) (listdir (join path d)))
               (listdir path)),
     concat (map (fun d => map (fun _ => d) (listdir (join path d)))
               (listdir path))).
Proof.
  unfold get_image_paths.
  assert (Hgen : forall (dirs image_paths labels : list string),
    foldl (fun '(image_paths, labels) subdir =>
             let label := subdir in
             let subdir_path := join path subdir in
             foldl (fun '(image_paths, labels) filename =>
                      let labels := labels ++ [label] in
                      let image_path := join subdir_path filename in
                      (image_paths ++ [image_path], labels))
                   (image_paths, labels) (listdir subdir_path))
          (image_paths, labels) dirs
    = (image_paths
       ++ concat (map (fun d => map (join (join path d)) (listdir (join path d))) dirs),
       labels ++ concat (map (fun d => map (fun _ => d) (listdir (join path d))) dirs))).
  { induction dirs as [|d dirs IH]; intros image_paths labels; cbn [foldl map concat].
    - now rewrite !app_nil_r.
    - cbn zeta. rewrite folder_loop, IH, <- !app_assoc. reflexivity. }
  apply Hgen.
Qed.

Lemma zip_app_same {A B : Type} (l1 l2 : list A) (k1 k2 : list B) :
  length l1 = length k1 -> zip (l1 ++ l2) (k1 ++ k2) = zip l1 k1 ++ zip l2 k2.
Proof.
  revert k1; induction l1 as [|x l1 IH]; intros [|y k1] H; try discriminate;
    [reflexivity|]. cbn. f_equal. apply IH. now injection H.
Qed.

(** X17. The two lists [get_image_paths] returns stay aligned: they have
    the same length, and read together they are, folder by folder in the
    order of the listing, the files of each folder of [path], every file
    paired with the name of its folder as its label. *)
Theorem get_image_paths_aligned path :
  let '(image_paths, labels) := get_image_paths listdir join path in
  length image_paths = length labels /\
  zip image_paths labels
  = concat (map (fun d => map (fun f => (join (join path d) f, d))
                              (listdir (join path d)))
                (listdir path)).
Proof.
  rewrite get_image_paths_eq.
  induction (listdir path) as [|d dirs [IHlen IHzip]]; [split; reflexivity|].
  cbn [map concat]. split.
  - rewrite !length_app, !length_map. lia.
  - rewrite zip_app_same by now rewrite !length_map.
    rewrite IHzip. f_equal.
    induction (listdir (join path d)) as [|f files IH]; [reflexivity|].
    cbn. now rewrite IH.
Qed.

Lemma get_array_images_eq image_paths width height :
  get_array_images imread cv_resize flatten image_paths width height
  = map (fun p => flatten (cv_resize (imread p) (width, height))) image_paths.
Proof.
  unfold get_array_images.
  assert (Hgen : forall images,
    foldl (fun images image_path =>
             let image := imread image_path in
             let image := cv_resize image (width, height) in
             images ++ [flatten image]) images image_paths
    = images ++ map (fun p => flatten (cv_resize (imread p) (width, height)))
                   image_paths).
  { induction image_paths as [|p ps IH]; intros images; cbn [foldl map].
    - now rewrite app_nil_r.
    - cbn zeta. rewrite IH, <- app_assoc. reflexivity. }
  apply Hgen.
Qed.
Lemma get_image_paths_lengths path :
  length (fst (get_image_paths listdir join path))
  = length (snd (get_image_paths listdir join path)).
Proof.
  rewrite get_image_paths_eq. cbn [fst snd].
  induction (listdir path) as [|d dirs IH]; [reflexivity|].
  cbn [map concat]. rewrite !length_app, !length_map. lia.
Qed.

Lemma py_truediv_zero a : py_truediv a 0 = Raise ZeroDivisionError.
Proof. reflexivity. Qed.

Lemma py_truediv_nonzero a b :
  b <> 0 -> exists q, py_truediv a b = Ok q.
Proof.
  intros Hb. unfold py_truediv. destruct (b =? 0) eqn:E; [lia|eauto].
Qed.

Lemma py_truediv_unit a b q :
  0 <= a <= b -> 0 < b -> py_truediv a b = Ok q -> (0 <= q <= 1)%Q.
Proof.
  intros Ha Hb H. unfold py_truediv in H. destruct (b =? 0) eqn:E; [lia|].
  injection H as <-. unfold Qle; cbn [Qnum Qden].
  rewrite Z2Pos.id by lia. rewrite Z.sgn_pos by lia. split; lia.
Qed.

Lemma guarded_truediv a b :
  exists q, (if negb (b =? 0) then py_truediv a b else Ok 0%Q) = Ok q.
Proof.
  unfold py_truediv. destruct (b =? 0); cbn [negb]; eauto.
Qed.

Lemma list_getitem_in_range {A : Type} (l : list A) (i : Z) :
  0 <= i < Z.of_nat (length l) -> exists x, list_getitem l i = Ok x.
Proof.
  intros Hi. destruct (lookup_lt_is_Some_2 l (Z.to_nat i)) as [x Hx]; [lia|].
  exists x. rewrite <- (Z2Nat.id i) by lia. now apply list_getitem_lookup.
Qed.

Lemma performance_step_inv test_labels t i img c c' :
  performance_step PCA_APPLY test_labels t (i, img) c = Ok c' ->
  tp c' + fp c' = tp c + fp c
                  + (if best_match_of PCA_APPLY img <=? t then 1 else 0) /\
  tn c' + fn c' = tn c + fn c
                  + (if best_match_of PCA_APPLY img <=? t then 0 else 1) /\
  (tp c <= tp c' /\ tn c <= tn c' /\ fp c <= fp c' /\ fn c <= fn c') /\
  length (tpr_values c') = S (length (tpr_values c)) /\
  length (fpr_values c') = S (length (fpr_values c)) /\
  bestMatches c' = bestMatches c ++ [best_match_of PCA_APPLY img].
Proof.
  unfold performance_step, best_match_of.
  destruct (PCA_APPLY img) as [[train_imgs_paths train_labels] best_match].
  cbn [snd]. intros H.
  apply bind_Ok_inv in H; destruct H as (test_label & _ & H).
  apply bind_Ok_inv in H; destruct H as (train_label & _ & H).
  destruct (bool_decide (test_label = train_label));
    destruct (best_match <=? t) eqn:Ele;
    destruct (best_match >=? t) eqn:Ege; try lia;
    apply bind_Ok_inv in H; destruct H as (tpr & _ & H);
    apply bind_Ok_inv in H; destruct H as (fpr & _ & H);
    injection H as <-; cbn [tp tn fp fn tpr_values fpr_values bestMatches];
    rewrite !length_app; cbn [length]; repeat split; lia.
Qed.

Lemma performance_step_Ok test_labels t i img c :
  0 <= i < Z.of_nat (length test_labels) ->
  valid_match PCA_APPLY img ->
  exists c', performance_step PCA_APPLY test_labels t (i, img) c = Ok c'.
Proof.
  unfold performance_step, valid_match, best_match_of.
  destruct (PCA_APPLY img) as [[train_imgs_paths train_labels] best_match].
  cbn [fst snd]. intros Hi Hvalid.
  destruct (list_getitem_in_range test_labels i Hi) as [test_label ->].
  destruct (list_getitem_in_range train_labels best_match Hvalid)
    as [train_label ->].
  cbn [mbind result_bind].
  destruct (bool_decide (test_label = train_label));
    destruct (best_match <=? t); destruct (best_match >=? t);
    match goal with
    | |- context [if negb (?b =? 0) then py_truediv ?a ?b else Ok 0%Q] =>
        destruct (guarded_truediv a b) as [tpr ->]
    end;
    cbn [mbind result_bind];
    match goal with
    | |- context [if negb (?b =? 0) then py_truediv ?a ?b else Ok 0%Q] =>
        destruct (guarded_truediv a b) as [fpr ->]
    end;
    cbn [mbind result_bind]; eauto.
Qed.

Lemma performance_loop_inv test_labels t imgs : forall n c0 c,
  for_each (enumerate_from n imgs) (performance_step PCA_APPLY test_labels t) c0
  = Ok c ->
  tp c + fp c = tp c0 + fp c0
    + Z.of_nat (length (List.filter
                          (fun img => best_match_of PCA_APPLY img <=? t) imgs)) /\
  tn c + fn c = tn c0 + fn c0
    + Z.of_nat (length (List.filter
                          (fun img => negb (best_match_of PCA_APPLY img <=? t))
                          imgs)) /\
  (tp c0 <= tp c /\ tn c0 <= tn c /\ fp c0 <= fp c /\ fn c0 <= fn c) /\
  length (tpr_values c) = (length (tpr_values c0) + length imgs)%nat /\
  length (fpr_values c) = (length (fpr_values c0) + length imgs)%nat /\
  bestMatches c = bestMatches c0 ++ map (best_match_of PCA_APPLY) imgs.
Proof.
  induction imgs as [|img imgs IH]; intros n c0 c Hrun.
  - cbn in Hrun. injection Hrun as <-. cbn [List.filter length map].
    rewrite app_nil_r. repeat split; lia.
  - rewrite enumerate_from_cons in Hrun. cbn [for_each] in Hrun.
    apply bind_Ok_inv in Hrun; destruct Hrun as (c1 & Hstep & Hrun).
    apply performance_step_inv in Hstep.
    destruct Hstep as (H1 & H2 & H3 & H4 & H5 & H6).
    apply IH in Hrun. destruct Hrun as (I1 & I2 & I3 & I4 & I5 & I6).
    cbn [List.filter map].
    destruct (best_match_of PCA_APPLY img <=? t); cbn [negb length];
      rewrite I6, H6, <- app_assoc; repeat split; try reflexivity; lia.
Qed.

Lemma performance_loop_Ok test_labels t imgs : forall n c0,
  (n + length imgs <= length test_labels)%nat ->
  (forall img, In img imgs -> valid_match PCA_APPLY img) ->
  exists c,
    for_each (enumerate_from n imgs) (performance_step PCA_APPLY test_labels t) c0
    = Ok c.
Proof.
  induction imgs as [|img imgs IH]; intros n c0 Hlen Hvalid.
  - cbn. eauto.
  - rewrite enumerate_from_cons. cbn [for_each]. cbn [length] in Hlen.
    destruct (performance_step_Ok test_labels t (Z.of_nat n) img c0) as [c1 ->];
      [lia | apply Hvalid; now left |].
    cbn [mbind result_bind]. apply IH; [lia|].
    intros img' Hin. apply Hvalid. now right.
Qed.

Lemma filter_length_all {A : Type} (f : A -> bool) (l : list A) :
  (forall x, In x l -> f x = true) -> length (List.filter f l) = length l.
Proof.
  induction l as [|x l IH]; intros H; [reflexivity|]. cbn [List.filter].
  rewrite (H x) by now left. cbn [length]. f_equal. apply IH.
  intros y Hy. apply H. now right.
Qed.

Lemma filter_length_none {A : Type} (f : A -> bool) (l : list A) :
  (forall x, In x l -> f x = false) -> length (List.filter f l) = 0%nat.
Proof.
  induction l as [|x l IH]; intros H; [reflexivity|]. cbn [List.filter].
  rewrite (H x) by now left. apply IH. intros y Hy. apply H. now right.
Qed.

Lemma filter_length_some {A : Type} (f : A -> bool) (l : list A) (x : A) :
  In x l -> f x = true -> (0 < length (List.filter f l))%nat.
Proof.
  intros Hin Hf. assert (Hx : In x (List.filter f l)) by now apply filter_In.
  destruct (List.filter f l); [destruct Hx | cbn; lia].
Qed.

Lemma filter_length_split {A : Type} (f : A -> bool) (l : list A) :
  (length (List.filter f l) + length (List.filter (fun x => negb (f x)) l))%nat
  = length l.
Proof.
  induction l as [|x l IH]; [reflexivity|]. cbn [List.filter].
  destruct (f x); cbn [negb length]; lia.
Qed.

Lemma performance_loop_inv_top test_labels test_images threshold c :
  performance_counters PCA_APPLY test_labels test_images threshold = Ok c ->
  tp c + fp c
  = Z.of_nat (length (List.filter
       (fun img => best_match_of PCA_APPLY img <=? threshold) test_images)) /\
  tn c + fn c
  = Z.of_nat (length (List.filter
       (fun img => negb (best_match_of PCA_APPLY img <=? threshold))
       test_images)) /\
  tp c + tn c + fp c + fn c = Z.of_nat (length test_images) /\
  (0 <= tp c /\ 0 <= tn c /\ 0 <= fp c /\ 0 <= fn c).
Proof.
  unfold performance_counters. rewrite enumerate_from_0. intros Hrun.
  apply performance_loop_inv in Hrun.
  cbn [tp tn fp fn tpr_values fpr_values bestMatches length app] in Hrun.
  destruct Hrun as (H1 & H2 & H3 & _).
  pose proof (filter_length_split
                (fun img => best_match_of PCA_APPLY img <=? threshold)
                test_images) as Hsplit.
  repeat split; try assumption; lia.
Qed.

(** X18. When the loop of [calculate_performance] has run over all test
    images, the four counters partition them: [tp + fp] is the number of
    images whose best match is at most the threshold, [tn + fn] the number
    of those above it, the four add up to the number of test images, none
    is negative, both rate lists have one entry for each image, and
    [bestMatches] lists the best match of each image in order. *)
Theorem performance_counters_partition test_labels test_images threshold c :
  performance_counters PCA_APPLY test_labels test_images threshold = Ok c ->
  tp c + fp c
  = Z.of_nat (length (List.filter
       (fun img => best_match_of PCA_APPLY img <=? threshold) test_images)) /\
  tn c + fn c
  = Z.of_nat (length (List.filter
       (fun img => negb (best_match_of PCA_APPLY img <=? threshold))
       test_images)) /\
  tp c + tn c + fp c + fn c = Z.of_nat (length test_images) /\
  (0 <= tp c /\ 0 <= tn c /\ 0 <= fp c /\ 0 <= fn c) /\
  length (tpr_values c) = length test_images /\
  length (fpr_values c) = length test_images /\
  bestMatches c = map (best_match_of PCA_APPLY) test_images.
Proof.
  unfold performance_counters. rewrite enumerate_from_0. intros Hrun.
  apply performance_loop_inv in Hrun.
  cbn [tp tn fp fn tpr_values fpr_values bestMatches length app] in Hrun.
  destruct Hrun as (H1 & H2 & H3 & H4 & H5 & H6).
  pose proof (filter_length_split
                (fun img => best_match_of PCA_APPLY img <=? threshold)
                test_images) as Hsplit.
  repeat split; try assumption; lia.
Qed.

Lemma calculate_performance_unfold path t w h :
  calculate_performance listdir join imread cv_resize flatten PCA_APPLY path t w h
  = (c ← performance_counters PCA_APPLY
           (snd (get_image_paths listdir join path))
           (get_array_images imread cv_resize flatten
              (fst (get_image_paths listdir join path)) 64 64) t;
     let num_images := tp c + tn c + fp c + fn c in
     FMR ← py_truediv (fp c) num_images;
     FNMR ← py_truediv (fn c) num_images;
     accuracy ← py_truediv (tp c + tn c) num_images;
     precision ← py_truediv (tp c) (tp c + fp c);
     specificity ← py_truediv (tn c) (tn c + fn c);
     Ok (fpr_values c, tpr_values c, accuracy, precision, specificity)).
Proof.
  unfold calculate_performance.
  destruct (get_image_paths listdir join path) as [ps ls]. reflexivity.
Qed.

Lemma performance_counters_Ok path t :
  (forall img,
     In img (get_array_images imread cv_resize flatten
               (fst (get_image_paths listdir join path)) 64 64) ->
     valid_match PCA_APPLY img) ->
  exists c,
    performance_counters PCA_APPLY
      (snd (get_image_paths listdir join path))
      (get_array_images imread cv_resize flatten
         (fst (get_image_paths listdir join path)) 64 64) t = Ok c.
Proof.
  intros Hvalid. unfold performance_counters. rewrite enumerate_from_0.
  apply performance_loop_Ok; [|exact Hvalid].
  rewrite get_array_images_eq, length_map, get_image_paths_lengths. lia.
Qed.

(** X19. [calculate_performance] cannot report on a test set that lies on
    one side of the threshold.  Let every test image get a valid index from
    [PCA_APPLY].  If the best match of every image is at most the threshold
    (no test image at all included), or if every one is above it, the call
    ends in [ZeroDivisionError]: the count of images, the precision or the
    specificity is divided by zero. *)
Theorem calculate_performance_one_sided path threshold width height :
  let test_images :=
    get_array_images imread cv_resize flatten
      (fst (get_image_paths listdir join path)) 64 64 in
  (forall img, In img test_images -> valid_match PCA_APPLY img) ->
  (forall img, In img test_images ->
               best_match_of PCA_APPLY img <= threshold) \/
  (forall img, In img test_images ->
               threshold < best_match_of PCA_APPLY img) ->
  calculate_performance listdir join imread cv_resize flatten PCA_APPLY
    path threshold width height
  = Raise ZeroDivisionError.
Proof.
  intros test_images Hvalid Hside.
  rewrite calculate_performance_unfold. fold test_images.
  destruct (performance_counters_Ok path threshold Hvalid) as [c Hc].
  fold test_images in Hc. rewrite Hc. cbn [mbind result_bind]. cbn zeta.
  apply performance_loop_inv_top in Hc.
  destruct Hc as (Hle & Hgt & Hsum & (Htp & Htn & Hfp & Hfn)).
  destruct (Nat.eq_dec (length test_images) 0%nat) as [Hempty|Hne].
  { rewrite Hsum, Hempty. reflexivity. }
  rewrite Hsum.
  destruct (py_truediv_nonzero (fp c) (Z.of_nat (length test_images)))
    as [FMR ->]; [lia|].
  destruct (py_truediv_nonzero (fn c) (Z.of_nat (length test_images)))
    as [FNMR ->]; [lia|].
  destruct (py_truediv_nonzero (tp c + tn c) (Z.of_nat (length test_images)))
    as [accuracy ->]; [lia|].
  cbn [mbind result_bind].
  destruct Hside as [Hall|Hall].
  - rewrite filter_length_all in Hle by (intros img Hin; apply Hall in Hin; lia).
    rewrite filter_length_none in Hgt
      by (intros img Hin; apply Hall in Hin;
          apply negb_false_iff; lia).
    destruct (py_truediv_nonzero (tp c) (tp c + fp c)) as [precision ->]; [lia|].
    cbn [mbind result_bind]. rewrite Hgt. reflexivity.
  - rewrite filter_length_none in Hle by (intros img Hin; apply Hall in Hin; lia).
    rewrite Hle. reflexivity.
Qed.

(** X20. [calculate_performance] returns when the test set has images on
    both sides of the threshold.  Let every test image get a valid index from
    [PCA_APPLY], one of them a best match of at most the threshold and one
    of them a best match above it.  Then the call returns; the two rate
    lists it returns have one entry for each test image, and the accuracy,
    the precision and the specificity lie between 0 and 1. *)
Theorem calculate_performance_two_sided path threshold width height :
  let test_images :=
    get_array_images imread cv_resize flatten
      (fst (get_image_paths listdir join path)) 64 64 in
  (forall img, In img test_images -> valid_match PCA_APPLY img) ->
  (exists img, In img test_images /\
               best_match_of PCA_APPLY img <= threshold) ->
  (exists img, In img test_images /\
               threshold < best_match_of PCA_APPLY img) ->
  exists fpr_values tpr_values accuracy precision specificity,
    calculate_performance listdir join imread cv_resize flatten PCA_APPLY
      path threshold width height
    = Ok (fpr_values, tpr_values, accuracy, precision, specificity) /\
    length fpr_values = length test_images /\
    length tpr_values = length test_images /\
    (0 <= accuracy <= 1)%Q /\ (0 <= precision <= 1)%Q /\
    (0 <= specificity <= 1)%Q.
Proof.
  intros test_images Hvalid (lo & Hlo_in & Hlo) (hi & Hhi_in & Hhi).
  rewrite calculate_performance_unfold. fold test_images.
  destruct (performance_counters_Ok path threshold Hvalid) as [c Hc].
  fold test_images in Hc. rewrite Hc. cbn [mbind result_bind]. cbn zeta.
  pose proof Hc as Hrun. unfold performance_counters in Hrun.
  rewrite enumerate_from_0 in Hrun. apply performance_loop_inv in Hrun.
  cbn [tp tn fp fn tpr_values fpr_values bestMatches length app] in Hrun.
  destruct Hrun as (_ & _ & _ & Htpr & Hfpr & _).
  apply performance_loop_inv_top in Hc.
  destruct Hc as (Hle & Hgt & Hsum & (Htp & Htn & Hfp & Hfn)).
  assert (Hsome_le :
    (0 < length (List.filter
                   (fun img => (best_match_of PCA_APPLY img <=? threshold)%Z)
                   test_images))%nat).
  { apply (filter_length_some _ _ lo Hlo_in). apply Z.leb_le. exact Hlo. }
  assert (Hsome_gt :
    (0 < length (List.filter
                   (fun img => negb (best_match_of PCA_APPLY img <=? threshold)%Z)
                   test_images))%nat).
  { apply (filter_length_some _ _ hi Hhi_in).
    apply negb_true_iff, Z.leb_gt. exact Hhi. }
  destruct (py_truediv_nonzero (fp c) (tp c + tn c + fp c + fn c))
    as [FMR HFMR]; [lia|].
  destruct (py_truediv_nonzero (fn c) (tp c + tn c + fp c + fn c))
    as [FNMR HFNMR]; [lia|].
  destruct (py_truediv_nonzero (tp c + tn c) (tp c + tn c + fp c + fn c))
    as [accuracy Hacc]; [lia|].
  destruct (py_truediv_nonzero (tp c) (tp c + fp c)) as [precision Hprec]; [lia|].
  destruct (py_truediv_nonzero (tn c) (tn c + fn c)) as [specificity Hspec]; [lia|].
  rewrite HFMR, HFNMR, Hacc, Hprec, Hspec. cbn [mbind result_bind].
  exists (fpr_values c), (tpr_values c), accuracy, precision, specificity.
  split; [reflexivity|]. split; [exact Hfpr|]. split; [exact Htpr|].
  split; [|split].
  - eapply py_truediv_unit; [| |exact Hacc]; lia.
  - eapply py_truediv_unit; [| |exact Hprec]; lia.
  - eapply py_truediv_unit; [| |exact Hspec]; lia.
Qed.
End FaceProperties.

Lemma performance_counters_partition_witness :
  exists c,
    performance_counters sample_PCA ["tony"; "thor"; "tony"]%string
      ["test/tony/a.png"; "test/tony/b.png"; "test/thor/c.png"]%string 0 = Ok c /\
    tp c + fp c = 2 /\ tn c + fn c = 1 /\ tp c + tn c + fp c + fn c = 3 /\
    (0 <= tp c /\ 0 <= tn c /\ 0 <= fp c /\ 0 <= fn c) /\
    length (tpr_values c) = 3%nat /\ length (fpr_values c) = 3%nat /\
    bestMatches c = [0; 0; 1].
Proof.
  eexists. split; [vm_compute; reflexivity|].
  apply (performance_counters_partition sample_PCA
           ["tony"; "thor"; "tony"]%string
           ["test/tony/a.png"; "test/tony/b.png"; "test/thor/c.png"]%string 0).
  vm_compute. reflexivity.
Defined.

Lemma calculate_performance_one_sided_witness :
  calculate_performance sample_listdir sample_join sample_imread sample_resize
    sample_flatten sample_PCA "test" 200 64 64
  = Raise ZeroDivisionError.
Proof.
  apply (calculate_performance_one_sided sample_listdir sample_join
           sample_imread sample_resize sample_flatten sample_PCA "test" 200 64 64).
  - intros img Hin. vm_compute in Hin.
    destruct Hin as [<-|[<-|[<-|[]]]]; unfold valid_match, best_match_of;
      cbn; lia.
  - left. intros img Hin. vm_compute in Hin.
    destruct Hin as [<-|[<-|[<-|[]]]]; unfold best_match_of; cbn; lia.
Defined.

Lemma calculate_performance_two_sided_witness :
  exists fpr_values tpr_values accuracy precision specificity,
    calculate_performance sample_listdir sample_join sample_imread sample_resize
      sample_flatten sample_PCA "test" 0 64 64
    = Ok (fpr_values, tpr_values, accuracy, precision, specificity) /\
    length fpr_values = 3%nat /\ length tpr_values = 3%nat /\
    (0 <= accuracy <= 1)%Q /\ (0 <= precision <= 1)%Q /\
    (0 <= specificity <= 1)%Q.
Proof.
  apply (calculate_performance_two_sided sample_listdir sample_join
           sample_imread sample_resize sample_flatten sample_PCA "test" 0 64 64).
  - intros img Hin. vm_compute in Hin.
    destruct Hin as [<-|[<-|[<-|[]]]]; unfold valid_match, best_match_of;
      cbn; lia.
  - exists "test/tony/a.png"%string. split; [vm_compute; auto|].
    unfold best_match_of; cbn; lia.
  - exists "test/thor/c.png"%string. split; [vm_compute; auto|].
    unfold best_match_of; cbn; lia.
Defined.

(** * The drawing loop *)

Lemma detect_keypoints_in_octave dt DoG_pyramid threshold keypoints kp :
  detect_keypoints dt DoG_pyramid threshold = Ok keypoints ->
  In kp keypoints ->
  exists (o : nat) octave_images img,
    DoG_pyramid !! o = Some octave_images /\
    In img octave_images /\
    interior_pixel img kp.
Proof.
  intros Hdet Hkp. rewrite detect_keypoints_eq in Hdet.
  bind_inv Hdet. injection Hdet as <-.
  apply map_result_Ok in Ha.
  apply in_concat in Hkp as (r & Hr & Hkp).
  apply list_elem_of_In, list_elem_of_lookup in Hr as (o & Hr).
  destruct (Forall2_lookup_r _ _ _ _ _ Ha Hr) as (octave_images & Ho & Hscan).
  exists o, octave_images.
  rewrite scan_octave_eq in Hscan. bind_inv Hscan. injection Hscan as <-.
  cbn [app] in Hkp. apply map_result_Ok in Ha0.
  apply in_concat in Hkp as (r2 & Hr2 & Hkp).
  destruct (Forall2_In_r _ _ _ _ Ha0 Hr2) as ([m img] & Hentry & Hscale).
  exists img. split; [exact Ho|]. split.
  - apply In_enumerate in Hentry as [_ Hentry].
    apply (In_py_slice _ 1 (-1)). apply list_elem_of_In.
    eapply list_elem_of_lookup_2. exact Hentry.
  - unfold scan_scale in Hscale. cbn [fst snd] in Hscale.
    bind_inv Hscale. bind_inv Hscale.
    destruct kp as [i j].
    now apply (detect_keypoints_in_image_iff _ _ _ _ _ _ Hscale).
Qed.

Section Drawing.
Variable dt : dtype.
Variable GaussianBlur : ndarray -> Q -> result ndarray.
Variable resize : ndarray -> Z * Z -> interpolation -> result ndarray.

(** The contracts of the two primitives where they return: a blur keeps
    the shape of its input; a resize gives a rectangular array that is no
    larger than the size asked for. *)
Hypothesis blur_shape : forall a s b, GaussianBlur a s = Ok b -> same_shape b a.
Hypothesis resize_rectangular :
  forall a dsize interp b, resize a dsize interp = Ok b -> rectangular b.
Hypothesis resize_fits : forall a w h interp b,
  0 <= w -> 0 <= h ->
  resize a (w, h) interp = Ok b ->
  fst (shape b) <= h /\ snd (shape b) <= w.

Lemma shape_nonneg a : 0 <= fst (shape a) /\ 0 <= snd (shape a).
Proof. unfold shape. cbn [fst snd]. lia. Qed.

Lemma builder_after_bounded image num_scales sigma0 f k st :
  1 <= f ->
  builder_after nd_shape GaussianBlur resize image num_scales sigma0 f k = Ok st ->
  fst (shape (current_image st)) <= fst (shape image) / f ^ Z.of_nat k /\
  snd (shape (current_image st)) <= snd (shape image) / f ^ Z.of_nat k.
Proof.
  intros Hf. revert st; induction k as [|k IH]; intros st H.
  - injection H as <-. cbn [current_image]. rewrite Z.pow_0_r, !Z.div_1_r. lia.
  - rewrite builder_after_succ in H. bind_inv H.
    destruct (IH _ Ha) as [Hh Hw].
    apply octave_body_Ok in H as (_ & _ & _ & Hres & _).
    change (Z.of_nat (snd (nd_shape (current_image a))))
      with (snd (shape (current_image a))) in Hres.
    change (Z.of_nat (fst (nd_shape (current_image a))))
      with (fst (shape (current_image a))) in Hres.
    destruct (shape_nonneg (current_image a)) as [Hh0 Hw0].
    rewrite !Z.quot_div_nonneg in Hres by lia.
    pose proof (fun Hw' Hh' => resize_fits _ _ _ _ _ Hw' Hh' Hres) as Hfit.
    destruct Hfit as [Hrh Hrw]; [apply Z.div_pos; lia|apply Z.div_pos; lia|].
    rewrite Nat2Z.inj_succ, Z.pow_succ_r by lia.
    rewrite (Z.mul_comm f), <- !Z.div_div by (try apply Z.pow_pos_nonneg; lia).
    split.
    + etransitivity; [exact Hrh|]. apply Z.div_le_mono; lia.
    + etransitivity; [exact Hrw|]. apply Z.div_le_mono; lia.
Qed.

Lemma build_octave_bounded image num_octaves num_scales sigma0 f pyr k octave img :
  1 <= f ->
  build_scale_space_pyramid nd_shape GaussianBlur resize
    image num_octaves num_scales sigma0 f = Ok pyr ->
  pyr !! k = Some octave ->
  In img octave ->
  fst (shape img) <= fst (shape image) / f ^ Z.of_nat k /\
  snd (shape img) <= snd (shape image) / f ^ Z.of_nat k.
Proof.
  intros Hf Hbuild Hk Himg.
  pose proof Hbuild as H. rewrite build_eq in H. bind_inv H. injection H as <-.
  destruct (builder_after_state _ _ _ _ _ _ _ _ _ Ha) as [Hlen _].
  pose proof (lookup_lt_Some _ _ _ Hk) as Hlt. rewrite Hlen in Hlt.
  destruct (builder_after_prefix _ _ _ _ _ _ _ _ _ k Ha) as [st_k Hst_k]; [lia|].
  destruct (builder_after_octave _ _ _ _ _ _ _ _ _ _ _ Ha Hlt Hst_k)
    as (octave' & Hlook & Hscales).
  rewrite Hlook in Hk. injection Hk as <-.
  apply blurred_scales_Ok in Hscales as [_ Himgs].
  apply list_elem_of_In, list_elem_of_lookup in Himg as [s Hs].
  rewrite (same_shape_shape _ _ (blur_shape _ _ _ (Himgs _ _ Hs))).
  eapply builder_after_bounded; eassumption.
Qed.

(** X21. Where the script draws.  With a factor of at least 1, a blur that
    keeps the shape, a resize that stays within the size asked for and a
    rectangular input, every circle the drawing loop makes for the
    keypoints of the pipeline has a centre [(x, y)] that is an interior
    pixel of the input image; more precisely, for some octave [k] it lies
    in the top-left region of the input of the resolution of that octave,
    [width / factor^k] by [height / factor^k]. *)
Theorem drawn_circles_inside_image image num_octaves num_scales sigma0 f threshold
    keypoints c :
  rectangular image ->
  1 <= f ->
  pipeline dt GaussianBlur resize image num_octaves num_scales sigma0 f threshold
  = Ok keypoints ->
  In c (draw_keypoints keypoints) ->
  exists k : nat,
    Z.of_nat k < num_octaves /\
    1 <= fst (center c) <= snd (shape image) / f ^ Z.of_nat k - 2 /\
    1 <= snd (center c) <= fst (shape image) / f ^ Z.of_nat k - 2 /\
    fst (center c) <= snd (shape image) - 2 /\
    snd (center c) <= fst (shape image) - 2.
Proof.
  intros Himg Hf Hrun Hc. unfold pipeline in Hrun.
  apply bind_Ok_inv in Hrun; destruct Hrun as (gaussian_pyramid & Hbuild & Hrun).
  apply bind_Ok_inv in Hrun; destruct Hrun as (DoG_pyramid & Hdog & Hdet).
  unfold draw_keypoints in Hc.
  apply in_map_iff in Hc as ([idx point] & <- & Hentry). cbn [center fst snd].
  apply In_enumerate in Hentry as [_ Hentry].
  assert (Hpoint : In point keypoints).
  { apply list_elem_of_In. eapply list_elem_of_lookup_2. exact Hentry. }
  destruct (detect_keypoints_in_octave _ _ _ _ _ Hdet Hpoint)
    as (k & DoG_octave & d & Hk & Hd & [Hrow Hcol]).
  rewrite generate_DoG_pyramid_eq in Hdog. apply map_result_Ok in Hdog.
  destruct (Forall2_lookup_r _ _ _ _ _ Hdog Hk) as (octave & Ho & HDoG).
  pose proof (build_well_formed GaussianBlur resize blur_shape
                resize_rectangular _ _ _ _ _ _ Himg Hbuild) as Hwf.
  pose proof (proj1 (Forall_lookup _ _) Hwf _ _ Ho) as Hwf_o.
  destruct (DoG_octave_well_formed dt octave DoG_octave Hwf_o HDoG)
    as (_ & Hsame & _).
  assert (Hsome : exists a, In a octave).
  { destruct octave as [|a octave]; [|exists a; now left].
    cbv in HDoG. injection HDoG as <-. destruct Hd. }
  destruct Hsome as [a Ha].
  rewrite (same_shape_shape _ _ (Hsame d a Hd Ha)) in Hrow, Hcol.
  destruct (build_octave_bounded _ _ _ _ _ _ _ _ _ Hf Hbuild Ho Ha) as [Hh Hw].
  assert (Hpow : 0 < f ^ Z.of_nat k) by (apply Z.pow_pos_nonneg; lia).
  destruct (shape_nonneg image) as [Hh0 Hw0].
  assert (Hdh : fst (shape image) / f ^ Z.of_nat k <= fst (shape image))
    by (apply Z.div_le_upper_bound; nia).
  assert (Hdw : snd (shape image) / f ^ Z.of_nat k <= snd (shape image))
    by (apply Z.div_le_upper_bound; nia).
  exists k. split.
  { pose proof (lookup_lt_Some _ _ _ Ho) as Hlt.
    pose proof Hbuild as H. rewrite build_eq in H. bind_inv H. injection H as <-.
    destruct (builder_after_state _ _ _ _ _ _ _ _ _ Ha0) as [Hlen _].
    rewrite Hlen in Hlt. lia. }
  repeat split; lia.
Qed.
End Drawing.

Lemma sample_GaussianBlur_shape a s b :
  sample_GaussianBlur a s = Ok b -> same_shape b a.
Proof.
  intros H. apply checked_GaussianBlur_Ok in H as ->.
  unfold same_shape, sample_blur.
  induction a as [|row a IH]; cbn [map]; constructor; [|exact IH].
  apply length_map.
Qed.

Lemma stub_cv_resize_fits a w h interp b :
  0 <= w -> 0 <= h ->
  stub_cv_resize a (w, h) interp = Ok b ->
  fst (shape b) <= h /\ snd (shape b) <= w.
Proof.
  intros Hw Hh H. apply checked_resize_Ok in H as [-> _].
  unfold stub_resize, shape. cbn [fst snd].
  rewrite length_replicate. split; [lia|].
  destruct (Z.to_nat h); cbn; rewrite ?length_replicate; lia.
Qed.

Lemma drawn_circles_inside_image_witness :
  exists k : nat,
    Z.of_nat k < 2 /\
    1 <= 1 <= 4 / 2 ^ Z.of_nat k - 2 /\
    1 <= 2 <= 4 / 2 ^ Z.of_nat k - 2 /\
    1 <= 4 - 2 /\ 2 <= 4 - 2.
Proof.
  apply (drawn_circles_inside_image uint8 sample_GaussianBlur stub_cv_resize
           sample_GaussianBlur_shape stub_cv_resize_rectangular
           stub_cv_resize_fits
           [[0; 0; 0; 0]; [0; 50; 0; 0]; [0; 30; 90; 0]; [0; 0; 50; 0]] 2 4 1.6 2 5
           [(1, 1); (2, 1)]
           {| center := (1, 2); radius := 3; color := keypoint_color 1;
              thickness := 1 |}).
  - intros row Hrow. simpl in Hrow. intuition subst; reflexivity.
  - lia.
  - vm_compute. reflexivity.
  - right. left. reflexivity.
Defined.
